(** * bufio: buffer and serialization utilities

    A shallow embedding of [lib/encoding.js], [lib/reader.js],
    [lib/sizewriter.js], [lib/staticwriter.js] and [lib/hashwriter.js],
    and the properties of the numeric codec, the two varint codecs and the
    cursor classes built on them.

    JavaScript numbers are modelled as integers ([Z]).  Every number the
    codec computes on the inputs considered here is an integer of
    magnitude at most 2^53, which an IEEE double represents exactly, so
    [+], [-] and [*] are the integer operations.  The one value that is
    not a number at all, [undefined] (an index outside a typed array) and
    the [NaN] that arithmetic makes of it, is [None] of type [num]. *)

From Stdlib Require Import ZArith Lia.
From Equations Require Import Equations.
From stdpp Require Import base option list numbers strings.

Local Open Scope Z_scope.

Declare Scope js_scope.
Delimit Scope js_scope with js.

(** ** JavaScript numbers and 32-bit conversions *)

Module JS.

(** A number, or [None] for [undefined]/[NaN]. *)
Definition num : Type := option Z.
Bind Scope js_scope with num.

(** ECMAScript [ToInt32], [ToUint32] and [ToUint8] on an integer. *)
Definition ToUint32 (z : Z) : Z := z mod 2^32.
Definition ToInt32 (z : Z) : Z := (z + 2^31) mod 2^32 - 2^31.
Definition ToUint8 (z : Z) : Z := z mod 2^8.

(** [NaN] and [undefined] convert to [0]. *)
Definition int32 (a : num) : Z := from_option ToInt32 0 a.
Definition uint32 (a : num) : Z := from_option ToUint32 0 a.

(** Arithmetic: [NaN] is contagious. *)
Definition add (a b : num) : num :=
  match a, b with Some x, Some y => Some (x + y) | _, _ => None end.
Definition mul (a b : num) : num :=
  match a, b with Some x, Some y => Some (x * y) | _, _ => None end.

(** Bitwise operators work on [ToInt32] of their operands and always
    give a number. *)
Definition band (a b : num) : Z := Z.land (int32 a) (int32 b).
Definition bor (a b : num) : Z := Z.lor (int32 a) (int32 b).
Definition bnot (a : num) : Z := Z.lnot (int32 a).
Definition shl (a : num) (n : Z) : Z := ToInt32 (Z.shiftl (int32 a) n).
Definition shr (a : num) (n : Z) : Z := Z.shiftr (int32 a) n.
Definition ushr (a : num) (n : Z) : Z := Z.shiftr (uint32 a) n.

(** Comparisons with [NaN] are false. *)
Definition gt (a : num) (b : Z) : bool := from_option (λ x, bool_decide (b < x)) false a.
Definition ge (a : num) (b : Z) : bool := from_option (λ x, bool_decide (b ≤ x)) false a.
Definition le (a : num) (b : Z) : bool := from_option (λ x, bool_decide (x ≤ b)) false a.

(** [(x * (1 / 0x100000000)) | 0]: the scaling by a power of two is
    exact, and [| 0] truncates towards zero before wrapping. *)
Definition scale32_trunc (x : Z) : Z := ToInt32 (Z.quot x (2^32)).

(** [Math.floor(x * 2 ** -32)]. *)
Definition scale32_floor (x : Z) : Z := x / 2^32.

(** A value as it can appear in a field of an error object. *)
Inductive value : Type :=
| VNum (n : Z)
| VStr (s : string)
| VUndefined.

(** The exceptions the library raises.  [EncodingError] holds the
    constructor's [offset] and [reason] arguments as they were passed;
    [AssertionError] is node's [assert]; [RangeError] is node's refusal
    of a negative allocation size; [Error] is [new Error(msg)];
    [TypeError] is the call of a property that is not a function. *)
Inductive exn : Type :=
| EncodingError (offset reason : value)
| AssertionError
| RangeError
| Error (msg : string)
| TypeError.

Inductive result (A : Type) : Type :=
| Ok (a : A)
| Throw (e : exn).
Global Arguments Ok {A} a.
Global Arguments Throw {A} e.

Global Instance result_ret : MRet result := λ A a, Ok a.
Global Instance result_bind : MBind result := λ A B k m,
  match m with Ok a => k a | Throw e => Throw e end.
Global Arguments result_bind {A B} k !m /.

(** A method of an object with state [S] returns or throws; the state
    it leaves behind is kept in both cases. *)
Definition method (S A : Type) : Type := S → result A * S.

Global Instance method_ret S : MRet (method S) := λ A a s, (Ok a, s).
Global Instance method_bind S : MBind (method S) := λ A B k m s,
  match m s with
  | (Ok a, s') => k a s'
  | (Throw e, s') => (Throw e, s')
  end.
Global Instance method_fmap S : FMap (method S) := λ A B f m,
  a ← m; mret (f a).

Definition throw {S A} (e : exn) : method S A := λ s, (Throw e, s).
Definition lift {S A} (m : result A) : method S A := λ s, (m, s).
Definition get_state {S} : method S S := λ s, (Ok s, s).
Definition put_state {S} (s : S) : method S unit := λ _, (Ok tt, s).

(** node's [assert(value)] *)
Definition node_assert {S} (value : bool) : method S unit :=
  if value then mret tt else throw AssertionError.

End JS.

Import JS.

Notation "a + b" := (JS.add a b) : js_scope.
Notation "a * b" := (JS.mul a b) : js_scope.
Notation "# z" := (Some (z : Z)) (at level 9, z at level 9, format "# z") : js_scope.

(** ** lib/encoding.js *)

Module encoding.

Definition MAX_SAFE_INTEGER : Z := 2^53 - 1.

(** A [Buffer] seen through its contents: bytes [0..255]. *)
Abbreviation bytes := (list Z).

(** [data[off]]: [undefined] outside the array. *)
Definition get (data : bytes) (off : Z) : num :=
  if decide (0 ≤ off) then data !! Z.to_nat off else None.

(** [dst[off] = v]: the value is converted with [ToUint8]; a store
    outside the array is ignored. *)
Definition set (dst : bytes) (off : Z) (v : Z) : bytes :=
  if decide (0 ≤ off) then <[Z.to_nat off := ToUint8 v]> dst else dst.

Definition len (data : bytes) : Z := Z.of_nat (length data).

Record Varint : Type := mkVarint { size : Z; value : num }.

Definition check (value : bool) (offset : Z) : result unit :=
  if value then Ok tt
  else Throw (EncodingError (VNum offset) (VStr "Out of bounds read")).

Definition enforce (value : bool) (offset reason : JS.value) : result unit :=
  if value then Ok tt else Throw (EncodingError offset reason).

Definition isSafe (hi lo : num) : bool :=
  let hi1 : num :=
    match hi with
    | Some h =>
        if bool_decide (h < 0)
        then Some (if bool_decide (lo = Some 0) then bnot hi + 1 else bnot hi)
        else hi
    | None => None
    end in
  bool_decide (band hi1 (Some 0xffe00000) = 0).

(** *** Read Unsigned LE *)

Definition readU8 (data : bytes) (off : Z) : num := get data off.

Definition readU16 (data : bytes) (off : Z) : num :=
  let first := get data off in
  let last := get data (off + 1) in
  (first + last * #(2^8))%js.

Definition readU24 (data : bytes) (off : Z) : num :=
  let first := get data off in
  let last := get data (off + 2) in
  (first + get data (off + 1) * #(2^8) + last * #(2^16))%js.

Definition readU32 (data : bytes) (off : Z) : num :=
  let first := get data off in
  let last := get data (off + 3) in
  (first +
   get data (off + 1) * #(2^8) +
   get data (off + 2) * #(2^16) +
   last * #(2^24))%js.

Definition readU40 (data : bytes) (off : Z) : num :=
  let first := get data off in
  let last := get data (off + 4) in
  (first +
   get data (off + 1) * #(2^8) +
   get data (off + 2) * #(2^16) +
   get data (off + 3) * #(2^24) +
   last * #(2^32))%js.

Definition readU48 (data : bytes) (off : Z) : num :=
  let first := get data off in
  let last := get data (off + 5) in
  (first +
   get data (off + 1) * #(2^8) +
   get data (off + 2) * #(2^16) +
   get data (off + 3) * #(2^24) +
   (get data (off + 4) + last * #(2^8)) * #(2^32))%js.

Definition readU56 (data : bytes) (off : Z) : result num :=
  let hi := readU24 data (off + 4) in
  let lo := readU32 data off in
  enforce (bool_decide (band hi #0xffe00000 = 0))
    (VNum off) (VStr "Number exceeds 2^53-1");;
  Ok (hi * #0x100000000 + lo)%js.

Definition readU64 (data : bytes) (off : Z) : result num :=
  let hi := readU32 data (off + 4) in
  let lo := readU32 data off in
  enforce (bool_decide (band hi #0xffe00000 = 0))
    (VNum off) (VStr "Number exceeds 2^53-1");;
  Ok (hi * #0x100000000 + lo)%js.

Definition readU (data : bytes) (off len : Z) : result num :=
  match len with
  | 8 => readU64 data off
  | 7 => readU56 data off
  | 6 => Ok (readU48 data off)
  | 5 => Ok (readU40 data off)
  | 4 => Ok (readU32 data off)
  | 3 => Ok (readU24 data off)
  | 2 => Ok (readU16 data off)
  | 1 => Ok (readU8 data off)
  | _ => Throw (EncodingError (VNum off) (VStr "Invalid read length"))
  end.

(** *** Read Unsigned BE *)

Definition readU16BE (data : bytes) (off : Z) : num :=
  let first := get data off in
  let last := get data (off + 1) in
  (first * #(2^8) + last)%js.

Definition readU24BE (data : bytes) (off : Z) : num :=
  let first := get data off in
  let last := get data (off + 2) in
  (first * #(2^16) + get data (off + 1) * #(2^8) + last)%js.

Definition readU32BE (data : bytes) (off : Z) : num :=
  let first := get data off in
  let last := get data (off + 3) in
  (first * #(2^24) +
   get data (off + 1) * #(2^16) +
   get data (off + 2) * #(2^8) +
   last)%js.

Definition readU40BE (data : bytes) (off : Z) : num :=
  let first := get data off in
  let last := get data (off + 4) in
  (first * #(2^32) +
   get data (off + 1) * #(2^24) +
   get data (off + 2) * #(2^16) +
   get data (off + 3) * #(2^8) +
   last)%js.

Definition readU48BE (data : bytes) (off : Z) : num :=
  let first := get data off in
  let last := get data (off + 5) in
  ((first * #(2^8) + get data (off + 1)) * #(2^32) +
   get data (off + 2) * #(2^24) +
   get data (off + 3) * #(2^16) +
   get data (off + 4) * #(2^8) +
   last)%js.

Definition readU56BE (data : bytes) (off : Z) : result num :=
  let hi := readU24BE data off in
  let lo := readU32BE data (off + 3) in
  enforce (bool_decide (band hi #0xffe00000 = 0))
    (VNum off) (VStr "Number exceeds 2^53-1");;
  Ok (hi * #0x100000000 + lo)%js.

Definition readU64BE (data : bytes) (off : Z) : result num :=
  let hi := readU32BE data off in
  let lo := readU32BE data (off + 4) in
  enforce (bool_decide (band hi #0xffe00000 = 0))
    (VNum off) (VStr "Number exceeds 2^53-1");;
  Ok (hi * #0x100000000 + lo)%js.

Definition readUBE (data : bytes) (off len : Z) : result num :=
  match len with
  | 8 => readU64BE data off
  | 7 => readU56BE data off
  | 6 => Ok (readU48BE data off)
  | 5 => Ok (readU40BE data off)
  | 4 => Ok (readU32BE data off)
  | 3 => Ok (readU24BE data off)
  | 2 => Ok (readU16BE data off)
  | 1 => Ok (readU8 data off)
  | _ => Throw (EncodingError (VNum off) (VStr "Invalid read length"))
  end.

(** *** Read Signed LE *)

Definition readI8 (data : bytes) (off : Z) : num :=
  let val := get data off in
  #(bor val #(band val #(2^7) * 0x1fffffe))%js.

Definition readI16 (data : bytes) (off : Z) : num :=
  let first := get data off in
  let last := get data (off + 1) in
  let val := (first + last * #(2^8))%js in
  #(bor val #(band val #(2^15) * 0x1fffe))%js.

Definition readI24 (data : bytes) (off : Z) : num :=
  let first := get data off in
  let last := get data (off + 2) in
  let val := (first + get data (off + 1) * #(2^8) + last * #(2^16))%js in
  #(bor val #(band val #(2^23) * 0x1fe))%js.

Definition readI32 (data : bytes) (off : Z) : num :=
  let first := get data off in
  let last := get data (off + 3) in
  (first +
   get data (off + 1) * #(2^8) +
   get data (off + 2) * #(2^16) +
   #(shl last 24))%js.

Definition readI40 (data : bytes) (off : Z) : num :=
  let first := get data off in
  let last := get data (off + 4) in
  (#(bor last #(band last #(2^7) * 0x1fffffe)) * #(2^32) +
   first +
   get data (off + 1) * #(2^8) +
   get data (off + 2) * #(2^16) +
   get data (off + 3) * #(2^24))%js.

Definition readI48 (data : bytes) (off : Z) : num :=
  let first := get data off in
  let last := get data (off + 5) in
  let val := (get data (off + 4) + last * #(2^8))%js in
  (#(bor val #(band val #(2^15) * 0x1fffe)) * #(2^32) +
   first +
   get data (off + 1) * #(2^8) +
   get data (off + 2) * #(2^16) +
   get data (off + 3) * #(2^24))%js.

(** The two-argument call [enforce(isSafe(hi, lo), 'Number exceeds
    2^53-1')] binds the message to the parameter [offset] and leaves
    [reason] undefined. *)
Definition readI56 (data : bytes) (off : Z) : result num :=
  let hi := readI24 data (off + 4) in
  let lo := readU32 data off in
  enforce (isSafe hi lo) (VStr "Number exceeds 2^53-1") VUndefined;;
  Ok (hi * #0x100000000 + lo)%js.

Definition readI64 (data : bytes) (off : Z) : result num :=
  let hi := readI32 data (off + 4) in
  let lo := readU32 data off in
  enforce (isSafe hi lo) (VStr "Number exceeds 2^53-1") VUndefined;;
  Ok (hi * #0x100000000 + lo)%js.

Definition readI (data : bytes) (off len : Z) : result num :=
  match len with
  | 8 => readI64 data off
  | 7 => readI56 data off
  | 6 => Ok (readI48 data off)
  | 5 => Ok (readI40 data off)
  | 4 => Ok (readI32 data off)
  | 3 => Ok (readI24 data off)
  | 2 => Ok (readI16 data off)
  | 1 => Ok (readI8 data off)
  | _ => Throw (EncodingError (VNum off) (VStr "Invalid read length"))
  end.

(** *** Read Signed BE *)

Definition readI16BE (data : bytes) (off : Z) : num :=
  let first := get data off in
  let last := get data (off + 1) in
  let val := (first * #(2^8) + last)%js in
  #(bor val #(band val #(2^15) * 0x1fffe))%js.

Definition readI24BE (data : bytes) (off : Z) : num :=
  let first := get data off in
  let last := get data (off + 2) in
  let val := (first * #(2^16) + get data (off + 1) * #(2^8) + last)%js in
  #(bor val #(band val #(2^23) * 0x1fe))%js.

Definition readI32BE (data : bytes) (off : Z) : num :=
  let first := get data off in
  let last := get data (off + 3) in
  (#(shl first 24) +
   get data (off + 1) * #(2^16) +
   get data (off + 2) * #(2^8) +
   last)%js.

Definition readI40BE (data : bytes) (off : Z) : num :=
  let first := get data off in
  let last := get data (off + 4) in
  (#(bor first #(band first #(2^7) * 0x1fffffe)) * #(2^32) +
   get data (off + 1) * #(2^24) +
   get data (off + 2) * #(2^16) +
   get data (off + 3) * #(2^8) +
   last)%js.

Definition readI48BE (data : bytes) (off : Z) : num :=
  let first := get data off in
  let last := get data (off + 5) in
  let val := (get data (off + 1) + first * #(2^8))%js in
  (#(bor val #(band val #(2^15) * 0x1fffe)) * #(2^32) +
   get data (off + 2) * #(2^24) +
   get data (off + 3) * #(2^16) +
   get data (off + 4) * #(2^8) +
   last)%js.

Definition readI56BE (data : bytes) (off : Z) : result num :=
  let hi := readI24BE data off in
  let lo := readU32BE data (off + 3) in
  enforce (isSafe hi lo) (VStr "Number exceeds 2^53-1") VUndefined;;
  Ok (hi * #0x100000000 + lo)%js.

Definition readI64BE (data : bytes) (off : Z) : result num :=
  let hi := readI32BE data off in
  let lo := readU32BE data (off + 4) in
  enforce (isSafe hi lo) (VStr "Number exceeds 2^53-1") VUndefined;;
  Ok (hi * #0x100000000 + lo)%js.

Definition readIBE (data : bytes) (off len : Z) : result num :=
  match len with
  | 8 => readI64BE data off
  | 7 => readI56BE data off
  | 6 => Ok (readI48BE data off)
  | 5 => Ok (readI40BE data off)
  | 4 => Ok (readI32BE data off)
  | 3 => Ok (readI24BE data off)
  | 2 => Ok (readI16BE data off)
  | 1 => Ok (readI8 data off)
  | _ => Throw (EncodingError (VNum off) (VStr "Invalid read length"))
  end.

(** *** Write Unsigned LE *)

Definition writeU8 (dst : bytes) (num off : Z) : bytes * Z :=
  let dst := set dst off num in
  (dst, off + 1).

Definition writeU16 (dst : bytes) (num off : Z) : bytes * Z :=
  let dst := set dst off num in
  let dst := set dst (off + 1) (ushr #num 8) in
  (dst, off + 2).

Definition writeU24 (dst : bytes) (num off : Z) : bytes * Z :=
  let dst := set dst off num in
  let num := ushr #num 8 in
  let dst := set dst (off + 1) num in
  let num := ushr #num 8 in
  let dst := set dst (off + 2) num in
  (dst, off + 3).

Definition writeU32 (dst : bytes) (num off : Z) : bytes * Z :=
  let dst := set dst off num in
  let num := ushr #num 8 in
  let dst := set dst (off + 1) num in
  let num := ushr #num 8 in
  let dst := set dst (off + 2) num in
  let num := ushr #num 8 in
  let dst := set dst (off + 3) num in
  (dst, off + 4).

Definition writeU40 (dst : bytes) (num off : Z) : bytes * Z :=
  let newVal := num in
  let dst := set dst off num in
  let num := ushr #num 8 in
  let dst := set dst (off + 1) num in
  let num := ushr #num 8 in
  let dst := set dst (off + 2) num in
  let num := ushr #num 8 in
  let dst := set dst (off + 3) num in
  let dst := set dst (off + 4) (scale32_floor newVal) in
  (dst, off + 5).

Definition writeU48 (dst : bytes) (num off : Z) : bytes * Z :=
  let newVal := scale32_floor num in
  let dst := set dst off num in
  let num := ushr #num 8 in
  let dst := set dst (off + 1) num in
  let num := ushr #num 8 in
  let dst := set dst (off + 2) num in
  let num := ushr #num 8 in
  let dst := set dst (off + 3) num in
  let dst := set dst (off + 4) newVal in
  let dst := set dst (off + 5) (ushr #newVal 8) in
  (dst, off + 6).

(** *** Write Unsigned BE *)

Definition writeU16BE (dst : bytes) (num off : Z) : bytes * Z :=
  let dst := set dst off (ushr #num 8) in
  let dst := set dst (off + 1) num in
  (dst, off + 2).

Definition writeU24BE (dst : bytes) (num off : Z) : bytes * Z :=
  let dst := set dst (off + 2) num in
  let num := ushr #num 8 in
  let dst := set dst (off + 1) num in
  let num := ushr #num 8 in
  let dst := set dst off num in
  (dst, off + 3).

Definition writeU32BE (dst : bytes) (num off : Z) : bytes * Z :=
  let dst := set dst (off + 3) num in
  let num := ushr #num 8 in
  let dst := set dst (off + 2) num in
  let num := ushr #num 8 in
  let dst := set dst (off + 1) num in
  let num := ushr #num 8 in
  let dst := set dst off num in
  (dst, off + 4).

Definition writeU40BE (dst : bytes) (num off : Z) : bytes * Z :=
  let dst := set dst off (scale32_floor num) in
  let off := off + 1 in
  let dst := set dst (off + 3) num in
  let num := ushr #num 8 in
  let dst := set dst (off + 2) num in
  let num := ushr #num 8 in
  let dst := set dst (off + 1) num in
  let num := ushr #num 8 in
  let dst := set dst off num in
  (dst, off + 4).

Definition writeU48BE (dst : bytes) (num off : Z) : bytes * Z :=
  let newVal := scale32_floor num in
  let dst := set dst off (ushr #newVal 8) in
  let dst := set dst (off + 1) newVal in
  let off := off + 2 in
  let dst := set dst (off + 3) num in
  let num := ushr #num 8 in
  let dst := set dst (off + 2) num in
  let num := ushr #num 8 in
  let dst := set dst (off + 1) num in
  let num := ushr #num 8 in
  let dst := set dst off num in
  (dst, off + 4).

(** *** Write Signed *)

Definition writeI32 := writeU32.
Definition writeI24 := writeU24.
Definition writeI16 := writeU16.
Definition writeI8 := writeU8.
Definition writeI32BE := writeU32BE.
Definition writeI24BE := writeU24BE.
Definition writeI16BE := writeU16BE.

(** *** Helpers: 64 and 56 bit writes *)

(** The computation of [hi] and [lo] that [write64] and [write56]
    both start with. *)
Definition split64 (num : Z) : Z * Z :=
  let neg := bool_decide (num < 0) in
  let num := if neg then - num else num in
  let hi := scale32_trunc num in
  let lo := bor #num #0 in
  if neg then
    if bool_decide (lo = 0)
    then (bor #(bnot #hi + 1) #0, lo)
    else (bnot #hi, bnot #lo + 1)
  else (hi, lo).

Definition write64 (dst : bytes) (num off : Z) (be : bool) : bytes * Z :=
  let '(hi, lo) := split64 num in
  if be then
    let '(dst, off) := writeI32BE dst hi off in
    writeI32BE dst lo off
  else
    let '(dst, off) := writeI32 dst lo off in
    writeI32 dst hi off.

Definition write56 (dst : bytes) (num off : Z) (be : bool) : bytes * Z :=
  let '(hi, lo) := split64 num in
  if be then
    let '(dst, off) := writeI24BE dst hi off in
    writeI32BE dst lo off
  else
    let '(dst, off) := writeI32 dst lo off in
    writeI24 dst hi off.

Definition writeU64 (dst : bytes) (num off : Z) := write64 dst num off false.
Definition writeU56 (dst : bytes) (num off : Z) := write56 dst num off false.
Definition writeU64BE (dst : bytes) (num off : Z) := write64 dst num off true.
Definition writeU56BE (dst : bytes) (num off : Z) := write56 dst num off true.

Definition writeI64 := writeU64.
Definition writeI56 := writeU56.
Definition writeI48 := writeU48.
Definition writeI40 := writeU40.
Definition writeI64BE := writeU64BE.
Definition writeI56BE := writeU56BE.
Definition writeI48BE := writeU48BE.
Definition writeI40BE := writeU40BE.

(** *** Width dispatch of the writers *)

Definition writeU (dst : bytes) (num off len : Z) : result (bytes * Z) :=
  match len with
  | 8 => Ok (writeU64 dst num off)
  | 7 => Ok (writeU56 dst num off)
  | 6 => Ok (writeU48 dst num off)
  | 5 => Ok (writeU40 dst num off)
  | 4 => Ok (writeU32 dst num off)
  | 3 => Ok (writeU24 dst num off)
  | 2 => Ok (writeU16 dst num off)
  | 1 => Ok (writeU8 dst num off)
  | _ => Throw (EncodingError (VNum off) (VStr "Invalid write length"))
  end.

Definition writeUBE (dst : bytes) (num off len : Z) : result (bytes * Z) :=
  match len with
  | 8 => Ok (writeU64BE dst num off)
  | 7 => Ok (writeU56BE dst num off)
  | 6 => Ok (writeU48BE dst num off)
  | 5 => Ok (writeU40BE dst num off)
  | 4 => Ok (writeU32BE dst num off)
  | 3 => Ok (writeU24BE dst num off)
  | 2 => Ok (writeU16BE dst num off)
  | 1 => Ok (writeU8 dst num off)
  | _ => Throw (EncodingError (VNum off) (VStr "Invalid write length"))
  end.

(** As in the source, [case 4] calls [writeU24] and [case 3] calls
    [writeU32]. *)
Definition writeI (dst : bytes) (num off len : Z) : result (bytes * Z) :=
  match len with
  | 8 => Ok (writeU64 dst num off)
  | 7 => Ok (writeU56 dst num off)
  | 6 => Ok (writeU48 dst num off)
  | 5 => Ok (writeU40 dst num off)
  | 4 => Ok (writeU24 dst num off)
  | 3 => Ok (writeU32 dst num off)
  | 2 => Ok (writeU16 dst num off)
  | 1 => Ok (writeU8 dst num off)
  | _ => Throw (EncodingError (VNum off) (VStr "Invalid write length"))
  end.

Definition writeIBE (dst : bytes) (num off len : Z) : result (bytes * Z) :=
  match len with
  | 8 => Ok (writeU64BE dst num off)
  | 7 => Ok (writeU56BE dst num off)
  | 6 => Ok (writeU48BE dst num off)
  | 5 => Ok (writeU40BE dst num off)
  | 4 => Ok (writeU32BE dst num off)
  | 3 => Ok (writeU24BE dst num off)
  | 2 => Ok (writeU16BE dst num off)
  | 1 => Ok (writeU8 dst num off)
  | _ => Throw (EncodingError (VNum off) (VStr "Invalid write length"))
  end.

(** *** Varints: the compact format *)

(** The [switch] compares [data[off]] with each label in turn. *)
Definition readVarint (data : bytes) (off : Z) : result Varint :=
  check (bool_decide (off < len data)) off;;
  if bool_decide (get data off = Some 0xff) then
    let size := 9 in
    check (bool_decide (off + size ≤ len data)) off;;
    value ← readU64 data (off + 1);
    enforce (gt value 0xffffffff) (VNum off) (VStr "Non-canonical varint");;
    Ok (mkVarint size value)
  else if bool_decide (get data off = Some 0xfe) then
    let size := 5 in
    check (bool_decide (off + size ≤ len data)) off;;
    let value := readU32 data (off + 1) in
    enforce (gt value 0xffff) (VNum off) (VStr "Non-canonical varint");;
    Ok (mkVarint size value)
  else if bool_decide (get data off = Some 0xfd) then
    let size := 3 in
    check (bool_decide (off + size ≤ len data)) off;;
    let value := (#(bor (get data (off + 1)) #(shl (get data (off + 2)) 8)))%js in
    enforce (ge value 0xfd) (VNum off) (VStr "Non-canonical varint");;
    Ok (mkVarint size value)
  else
    Ok (mkVarint 1 (get data off)).

Definition writeVarint (dst : bytes) (num off : Z) : bytes * Z :=
  if bool_decide (num < 0xfd) then
    let dst := set dst off (band #num #0xff) in
    (dst, off + 1)
  else if bool_decide (num ≤ 0xffff) then
    let dst := set dst off 0xfd in
    let dst := set dst (off + 1) (band #num #0xff) in
    let dst := set dst (off + 2) (band #(shr #num 8) #0xff) in
    (dst, off + 3)
  else if bool_decide (num ≤ 0xffffffff) then
    let dst := set dst off 0xfe in
    let dst := set dst (off + 1) (band #num #0xff) in
    let dst := set dst (off + 2) (band #(shr #num 8) #0xff) in
    let dst := set dst (off + 3) (band #(shr #num 16) #0xff) in
    let dst := set dst (off + 4) (ushr #num 24) in
    (dst, off + 5)
  else
    let dst := set dst off 0xff in
    writeU64 dst num (off + 1).

Definition sizeVarint (num : Z) : Z :=
  if bool_decide (num < 0xfd) then 1
  else if bool_decide (num ≤ 0xffff) then 3
  else if bool_decide (num ≤ 0xffffffff) then 5
  else 9.

(** *** Varints: the bit-packed format *)

(** The loop of [readVarint2].  [rest] is [data] from index [off] on, so
    [rest = []] is the failure of [check(off < data.length, off)], and
    its head is [ch = data[off]]. *)
Fixpoint readVarint2_loop (rest : bytes) (off num size : Z) : result Varint :=
  match rest with
  | [] => Throw (EncodingError (VNum off) (VStr "Out of bounds read"))
  | ch :: rest =>
      let off := off + 1 in
      let size := size + 1 in
      enforce (bool_decide (num ≤ 0x3fffffffffff - band #ch #0x7f))
        (VNum off) (VStr "Number exceeds 2^53-1");;
      let num := num * 0x80 + band #ch #0x7f in
      if bool_decide (band #ch #0x80 = 0) then Ok (mkVarint size #num)
      else
        enforce (bool_decide (num ≠ MAX_SAFE_INTEGER))
          (VNum off) (VStr "Number exceeds 2^53-1");;
        readVarint2_loop rest off (num + 1) size
  end.

(** At a negative [off] the check passes, [data[off]] is [undefined],
    whose bits are all clear, and the loop ends at once with the value
    0. *)
Definition readVarint2 (data : bytes) (off : Z) : result Varint :=
  if decide (off < 0) then
    check (bool_decide (off < len data)) off;;
    Ok (mkVarint 1 #0)
  else readVarint2_loop (drop (Z.to_nat off) data) off 0 0.

(** [num = ((num - (num % 0x80)) / 0x80) - 1] shortens [num] by at
    least one bit, which is why the two loops below end. *)
Lemma varint2_step_decreases (n : Z) :
  ¬ n ≤ 0x7f →
  (Z.to_nat (Z.log2 ((n - Z.rem n 0x80) / 0x80 - 1)) < Z.to_nat (Z.log2 n))%nat.
Proof.
  intros Hn.
  assert (0 ≤ Z.rem n 128) by (apply Z.rem_nonneg; lia).
  assert ((n - Z.rem n 128) / 128 * 128 ≤ n)
    by (pose proof (Z.mul_div_le (n - Z.rem n 128) 128); lia).
  set (m := (n - Z.rem n 128) / 128 - 1) in *.
  assert (7 ≤ Z.log2 n) by (change 7 with (Z.log2 128); apply Z.log2_le_mono; lia).
  destruct (decide (m ≤ 0)) as [Hm|Hm].
  - rewrite (Z.log2_nonpos m) by done. lia.
  - assert (Z.log2 (2 * m) ≤ Z.log2 n) by (apply Z.log2_le_mono; lia).
    rewrite Z.log2_double in * by lia. lia.
Qed.

(** The first loop of [writeVarint2].  [tmp[len] = x] always stores at
    [len = tmp.length], so it appends. *)
Equations? writeVarint2_loop (num len : Z) (tmp : bytes) : bytes * Z
  by wf (Z.to_nat (Z.log2 num)) lt :=
  writeVarint2_loop num len tmp
    with decide (num ≤ 0x7f) := {
    | left _ =>
        (tmp ++ [bor #(band #num #0x7f) #(if bool_decide (len = 0) then 0x00 else 0x80)],
         len)
    | right _ =>
        writeVarint2_loop ((num - Z.rem num 0x80) / 0x80 - 1) (len + 1)
          (tmp ++ [bor #(band #num #0x7f) #(if bool_decide (len = 0) then 0x00 else 0x80)])
    }.
Proof. by apply varint2_step_decreases. Qed.

(** [do { dst[off++] = tmp[len]; } while (len--)]: [tmp[len]] down to
    [tmp[0]]. *)
Fixpoint writeVarint2_emit (dst : bytes) (off : Z) (tmp : bytes) (len : nat)
  : bytes * Z :=
  let dst := set dst off (default 0 (tmp !! len)) in
  let off := off + 1 in
  match len with
  | O => (dst, off)
  | S len => writeVarint2_emit dst off tmp len
  end.

Definition writeVarint2 (dst : bytes) (num off : Z) : result (bytes * Z) :=
  let '(tmp, len) := writeVarint2_loop num 0 [] in
  check (bool_decide (off + len + 1 ≤ encoding.len dst)) off;;
  Ok (writeVarint2_emit dst off tmp (Z.to_nat len)).

Equations? sizeVarint2_loop (num size : Z) : Z by wf (Z.to_nat (Z.log2 num)) lt :=
  sizeVarint2_loop num size
    with decide (num ≤ 0x7f) := {
    | left _ => size + 1
    | right _ => sizeVarint2_loop ((num - Z.rem num 0x80) / 0x80 - 1) (size + 1)
    }.
Proof. by apply varint2_step_decreases. Qed.

Definition sizeVarint2 (num : Z) : Z := sizeVarint2_loop num 0.

End encoding.

(** ** Node's [Buffer]: views on shared array buffers *)

Module Buffer.

(** The store holds the array buffers by address. *)
Abbreviation store := (list (list Z)).

(** A [Buffer] is a view: a window of [length] bytes at [byteOffset] of
    the array buffer at address [buffer]. *)
Record t : Type := mk { buffer : nat; byteOffset : nat; length : nat }.

Definition contents (σ : store) (b : t) : list Z :=
  take (length b) (drop (byteOffset b) (default [] (σ !! buffer b))).

(** The window of a view lies within its array buffer. *)
Definition valid (σ : store) (b : t) : Prop :=
  ∃ mem, σ !! buffer b = Some mem ∧
         (byteOffset b + length b ≤ List.length mem)%nat.

(** The bytes from [start] up to [end_], as [toString(enc, start, end)]
    and the float reads take them: a negative [start] is 0 and the
    range ends with the data. *)
Definition range (data : list Z) (start end_ : Z) : list Z :=
  take (Z.to_nat end_ - Z.to_nat start) (drop (Z.to_nat start) data).

(** [src.copy(target, targetStart)] and [target.write(string,
    targetStart, enc)], with [src] the encoded string, on the contents
    of the target: the bytes that fit are stored from [targetStart] on,
    and node refuses a start outside the target. *)
Definition blit (target : list Z) (targetStart : Z) (src : list Z)
  : result (list Z) :=
  if decide (0 ≤ targetStart ≤ Z.of_nat (List.length target))
  then Ok (list_inserts (Z.to_nat targetStart) src target)
  else Throw RangeError.

(** [target.fill(value, start, end)] on the contents of the target;
    node refuses a range outside the target. *)
Definition fill (target : list Z) (value start end_ : Z) : result (list Z) :=
  if decide (0 ≤ start ∧ end_ ≤ Z.of_nat (List.length target))
  then Ok (list_inserts (Z.to_nat start)
             (replicate (Z.to_nat (end_ - start)) (ToUint8 value)) target)
  else Throw RangeError.

(** [b[i] = v] *)
Definition set (σ : store) (b : t) (i : Z) (v : Z) : store :=
  if decide (0 ≤ i < Z.of_nat (length b))
  then alter (λ mem, <[(byteOffset b + Z.to_nat i)%nat := ToUint8 v]> mem)
         (buffer b) σ
  else σ.

(** [Buffer.allocUnsafe(size)]: a view on a new array buffer.  Its
    initial contents are unspecified; both callers overwrite all of it. *)
Definition allocUnsafe (σ : store) (size : Z) : result (store * t) :=
  if decide (size < 0) then Throw RangeError
  else Ok (σ ++ [replicate (Z.to_nat size) 0],
           mk (List.length σ) 0 (Z.to_nat size)).

(** [b.slice(start, end)]: a view on the same array buffer; negative
    indices count from the end and both are clamped. *)
Definition clamp (i : Z) (n : nat) : nat :=
  if decide (i < 0) then Z.to_nat (Z.max (i + Z.of_nat n) 0)
  else Z.to_nat (Z.min i (Z.of_nat n)).

Definition slice (b : t) (start end_ : Z) : t :=
  let s := clamp start (length b) in
  let e := clamp end_ (length b) in
  mk (buffer b) (byteOffset b + s) (e - s).

(** [src.copy(target, targetStart, sourceStart, sourceEnd)] for
    non-negative indices: as many bytes as fit in the target. *)
Definition copy (σ : store) (src target : t)
    (targetStart sourceStart sourceEnd : Z) : store :=
  let chunk :=
    take (length target - Z.to_nat targetStart)
      (take (Z.to_nat (sourceEnd - sourceStart))
         (drop (Z.to_nat sourceStart) (contents σ src))) in
  alter (list_inserts (byteOffset target + Z.to_nat targetStart) chunk)
    (buffer target) σ.

End Buffer.

(** ** lib/encoding.js: the functions on whole buffers

    These work on [Buffer] objects, so they are stated over the store.
    A function that allocates returns the new store with the buffer. *)

Module encoding_bytes.

Definition out_of_bounds_read (off : Z) : exn :=
  EncodingError (VNum off) (VStr "Out of bounds read").
Definition out_of_bounds_write (off : Z) : exn :=
  EncodingError (VNum off) (VStr "Out of bounds write").

Definition sliceBytes (data : Buffer.t) (off size : Z) : result Buffer.t :=
  if bool_decide (off + size > Z.of_nat (Buffer.length data))
  then Throw (out_of_bounds_read off)
  else Ok (Buffer.slice data off (off + size)).

(** [data.copy(buf, 0, off, off + size)]: node refuses a negative
    source start. *)
Definition readBytes (σ : Buffer.store) (data : Buffer.t) (off size : Z)
  : result (Buffer.store * Buffer.t) :=
  if bool_decide (off + size > Z.of_nat (Buffer.length data))
  then Throw (out_of_bounds_read off)
  else
    '(σ, buf) ← Buffer.allocUnsafe σ size;
    if bool_decide (off < 0) then Throw RangeError
    else Ok (Buffer.copy σ data buf 0 off (off + size), buf).

(** [value.copy(data, off, 0, value.length)] returns the number of
    bytes copied, and that is what [writeBytes] returns; node refuses a
    negative target start. *)
Definition writeBytes (σ : Buffer.store) (data value : Buffer.t) (off : Z)
  : result (Buffer.store * Z) :=
  if bool_decide (off + Z.of_nat (Buffer.length value) > Z.of_nat (Buffer.length data))
  then Throw (out_of_bounds_write off)
  else if bool_decide (off < 0) then Throw RangeError
  else Ok (Buffer.copy σ value data off 0 (Z.of_nat (Buffer.length value)),
           Z.of_nat (Buffer.length value)).

(** [data.copy(buf, 0)]: the whole of [data], as far as it fits. *)
Definition realloc (σ : Buffer.store) (data : Buffer.t) (size : Z)
  : result (Buffer.store * Buffer.t) :=
  '(σ, buf) ← Buffer.allocUnsafe σ size;
  Ok (Buffer.copy σ data buf 0 0 (Z.of_nat (Buffer.length data)), buf).

Definition copy (σ : Buffer.store) (data : Buffer.t)
  : result (Buffer.store * Buffer.t) :=
  realloc σ data (Z.of_nat (Buffer.length data)).

Definition concat (σ : Buffer.store) (a b : Buffer.t)
  : result (Buffer.store * Buffer.t) :=
  let size := Z.of_nat (Buffer.length a) + Z.of_nat (Buffer.length b) in
  '(σ, buf) ← Buffer.allocUnsafe σ size;
  let σ := Buffer.copy σ a buf 0 0 (Z.of_nat (Buffer.length a)) in
  let σ := Buffer.copy σ b buf (Z.of_nat (Buffer.length a)) 0
             (Z.of_nat (Buffer.length b)) in
  Ok (σ, buf).

Definition sizeVarBytes (data : Buffer.t) : Z :=
  encoding.sizeVarint (Z.of_nat (Buffer.length data)) + Z.of_nat (Buffer.length data).

Definition sizeVarlen (len : Z) : Z := encoding.sizeVarint len + len.

End encoding_bytes.

(** ** lib/reader.js *)

Module BufferReader.

Record t : Type := mk {
  data : Buffer.t;
  offset : Z;
  zeroCopy : bool;
  (** the saved offsets, the most recent first *)
  stack : list Z
}.

(** The objects a method can touch: the store and the reader. *)
Definition world : Type := Buffer.store * t.

Abbreviation M := (method world).

Definition this : M t := w ← get_state; mret w.2.
Definition bytes : M (list Z) :=
  w ← get_state; mret (Buffer.contents w.1 (data w.2)).
Definition set_offset (off : Z) : M unit :=
  w ← get_state;
  put_state (w.1, mk (data w.2) off (zeroCopy w.2) (stack w.2)).
Definition set_stack (st : list Z) : M unit :=
  w ← get_state;
  put_state (w.1, mk (data w.2) (offset w.2) (zeroCopy w.2) st).

(** The length of the reader's buffer. *)
Definition data_length (r : t) : Z := Z.of_nat (Buffer.length (data r)).

(** [this.assert(value)] *)
Definition assert (value : bool) : M unit :=
  r ← this;
  if value then mret tt
  else throw (EncodingError (VNum (offset r)) (VStr "Out of bounds read")).

(** [this.enforce(value, reason)] *)
Definition enforce (value : bool) (reason : string) : M unit :=
  r ← this;
  if value then mret tt
  else throw (EncodingError (VNum (offset r)) (VStr reason)).

Definition getSize : M Z := r ← this; mret (data_length r).

Definition left : M Z :=
  r ← this;
  assert (bool_decide (offset r ≤ data_length r));;
  mret (data_length r - offset r).

Definition seek (off : Z) : M unit :=
  r ← this;
  assert (bool_decide (0 ≤ offset r + off));;
  assert (bool_decide (offset r + off ≤ data_length r));;
  set_offset (offset r + off).

Definition start : M Z :=
  r ← this;
  set_stack (offset r :: stack r);;
  mret (offset r).

Definition end_ : M Z :=
  r ← this;
  node_assert (bool_decide (0 < List.length (stack r))%nat);;
  match stack r with
  | start :: rest => set_stack rest;; mret (offset r - start)
  | [] => throw AssertionError
  end.

(** [Buffer.allocUnsafe(size)] followed by
    [data.copy(ret, 0, start, end)]. *)
Definition alloc_copy (size start end_ : Z) : M Buffer.t := λ '(σ, r),
  match Buffer.allocUnsafe σ size with
  | Ok (σ, ret) => (Ok ret, (Buffer.copy σ (data r) ret 0 start end_, r))
  | Throw e => (Throw e, (σ, r))
  end.

Definition endData (zeroCopy : bool) : M Buffer.t :=
  r ← this;
  node_assert (bool_decide (0 < List.length (stack r))%nat);;
  match stack r with
  | start :: rest =>
      set_stack rest;;
      let end_ := offset r in
      let size := end_ - start in
      let data := data r in
      if bool_decide (size = data_length r) then mret data
      else if BufferReader.zeroCopy r || zeroCopy
      then mret (Buffer.slice data start end_)
      else alloc_copy size start end_
  | [] => throw AssertionError
  end.

(** *** Fixed-width reads

    [width] bytes are asserted, [read] decodes them at the offset, and
    the offset advances.  Node's [readUInt16LE] and the like, called
    inside the asserted range, are the codec's functions of the same
    width. *)
Definition fixed {A} (width : Z) (read : list Z → Z → result A) : M A :=
  r ← this;
  assert (bool_decide (offset r + width ≤ data_length r));;
  data ← bytes;
  ret ← lift (read data (offset r));
  set_offset (offset r + width);;
  mret ret.

Definition pure_read (read : list Z → Z → num) : list Z → Z → result num :=
  λ data off, Ok (read data off).

Definition readU8 : M num := fixed 1 (pure_read encoding.readU8).
Definition readU16 : M num := fixed 2 (pure_read encoding.readU16).
Definition readU16BE : M num := fixed 2 (pure_read encoding.readU16BE).
Definition readU32 : M num := fixed 4 (pure_read encoding.readU32).
Definition readU32BE : M num := fixed 4 (pure_read encoding.readU32BE).
Definition readU64 : M num := fixed 8 encoding.readU64.
Definition readU64BE : M num := fixed 8 encoding.readU64BE.
Definition readI8 : M num := fixed 1 (pure_read encoding.readI8).
Definition readI16 : M num := fixed 2 (pure_read encoding.readI16).
Definition readI16BE : M num := fixed 2 (pure_read encoding.readI16BE).
Definition readI32 : M num := fixed 4 (pure_read encoding.readI32).
Definition readI32BE : M num := fixed 4 (pure_read encoding.readI32BE).
Definition readI64 : M num := fixed 8 encoding.readI64.
Definition readI64BE : M num := fixed 8 encoding.readI64BE.

(** A float is returned as the bytes of its IEEE pattern, the least
    significant first. *)
Definition ieee (width : nat) (be : bool) (data : list Z) (off : Z)
  : result (list Z) :=
  let raw := Buffer.range data off (off + Z.of_nat width) in
  Ok (if be then reverse raw else raw).

Definition readFloat : M (list Z) := fixed 4 (ieee 4 false).
Definition readFloatBE : M (list Z) := fixed 4 (ieee 4 true).
Definition readDouble : M (list Z) := fixed 8 (ieee 8 false).
Definition readDoubleBE : M (list Z) := fixed 8 (ieee 8 true).

(** *** Varints *)

Definition readVarint : M num :=
  r ← this;
  data ← bytes;
  v ← lift (encoding.readVarint data (offset r));
  set_offset (offset r + encoding.size v);;
  mret (encoding.value v).

Definition readVarint2 : M num :=
  r ← this;
  data ← bytes;
  v ← lift (encoding.readVarint2 data (offset r));
  set_offset (offset r + encoding.size v);;
  mret (encoding.value v).

(** *** Bytes and strings *)

Definition readBytes (size : num) (zeroCopy : bool) : M Buffer.t :=
  node_assert (ge size 0);;
  let size := default 0 size in
  r ← this;
  assert (bool_decide (offset r + size ≤ data_length r));;
  ret ← (if BufferReader.zeroCopy r || zeroCopy
         then mret (Buffer.slice (data r) (offset r) (offset r + size))
         else alloc_copy size (offset r) (offset r + size));
  set_offset (offset r + size);;
  mret ret.

Definition readVarBytes (zeroCopy : bool) : M Buffer.t :=
  size ← readVarint;
  readBytes size zeroCopy.

Section strings.

(** [buf.toString(enc)] on the bytes of a range: the text decoding,
    which is node's. *)
Variable toString : string → list Z → string.

Definition readString (enc : string) (size : num) : M string :=
  node_assert (ge size 0);;
  let size := default 0 size in
  r ← this;
  assert (bool_decide (offset r + size ≤ data_length r));;
  data ← bytes;
  let ret := toString enc (Buffer.range data (offset r) (offset r + size)) in
  set_offset (offset r + size);;
  mret ret.

(** [limit] is [None] when the argument is absent. *)
Definition readVarString (enc : string) (limit : option Z) : M string :=
  size ← readVarint;
  enforce (match limit with
           | None => true
           | Some l => bool_decide (l = 0) || le size l
           end) "String exceeds limit.";;
  readString enc size.

(** The scan of [readNullString]: [rest] is the data from index [i]
    on; the result is the index of the first zero byte, or the length
    of the data. *)
Fixpoint scan_zero (rest : list Z) (i : Z) : Z :=
  match rest with
  | [] => i
  | b :: rest => if bool_decide (b = 0) then i else scan_zero rest (i + 1)
  end.

(** No index below 0 holds a zero, so a scan from a negative offset
    continues at 0. *)
Definition readNullString (enc : string) : M string :=
  r ← this;
  assert (bool_decide (offset r + 1 ≤ data_length r));;
  data ← bytes;
  let i := scan_zero (drop (Z.to_nat (offset r)) data) (Z.max (offset r) 0) in
  assert (bool_decide (i ≠ data_length r));;
  ret ← readString enc (Some (i - offset r));
  set_offset (i + 1);;
  mret ret.

(** *** The 64-bit object reads

    [readU64N] and its siblings call [encoding.readU64N] and the like,
    which [lib/encoding.js] does not define; they are parameters
    here.  The object they return is held as an integer. *)
Variables encoding_readU64N encoding_readU64BEN
          encoding_readI64N encoding_readI64BEN : list Z → Z → result Z.

Definition readU64N : M Z := fixed 8 encoding_readU64N.
Definition readU64BEN : M Z := fixed 8 encoding_readU64BEN.
Definition readI64N : M Z := fixed 8 encoding_readI64N.
Definition readI64BEN : M Z := fixed 8 encoding_readI64BEN.

End strings.

(** *** Checksums *)

(** [a === b] on two numbers: [NaN] is equal to nothing. *)
Definition same_number (a b : num) : bool :=
  match a, b with
  | Some x, Some y => bool_decide (x = y)
  | _, _ => false
  end.

(** [hash] is the caller's function from a buffer to a buffer, held as
    a function on their contents.  Node's [readUInt32LE(0, true)] on
    its result is the codec's read, as for the fixed-width reads. *)
Definition createChecksum (hash : list Z → list Z) : M num :=
  r ← this;
  let start :=
    if bool_decide (0 < List.length (stack r))%nat
    then default 0 (head (stack r)) else 0 in
  w ← get_state;
  let data := Buffer.contents w.1 (Buffer.slice (data r) start (offset r)) in
  mret (encoding.readU32 (hash data) 0).

Definition verifyChecksum (hash : list Z → list Z) : M num :=
  chk ← createChecksum hash;
  checksum ← readU32;
  enforce (same_number chk checksum) "Checksum mismatch.";;
  mret checksum.

(** *** The read operations as data *)

Inductive op : Type :=
| ReadU8 | ReadU16 | ReadU16BE | ReadU32 | ReadU32BE | ReadU64 | ReadU64BE
| ReadI8 | ReadI16 | ReadI16BE | ReadI32 | ReadI32BE | ReadI64 | ReadI64BE
| ReadU64N | ReadU64BEN | ReadI64N | ReadI64BEN
| ReadFloat | ReadFloatBE | ReadDouble | ReadDoubleBE
| ReadVarint | ReadVarint2
| ReadBytes (size : num) (zeroCopy : bool)
| ReadString (enc : string) (size : num)
| ReadNullString (enc : string)
| ReadVarBytes (zeroCopy : bool)
| ReadVarString (enc : string) (limit : option Z).

(** What a read returns. *)
Inductive ret : Type :=
| RNum (n : num)
| RN64 (n : Z)
| RFloat (ieee : list Z)
| RBuffer (b : Buffer.t)
| RString (s : string).

Section exec.

Variable toString : string → list Z → string.
Variables encoding_readU64N encoding_readU64BEN
          encoding_readI64N encoding_readI64BEN : list Z → Z → result Z.

Definition exec (o : op) : M ret :=
  match o with
  | ReadU8 => RNum <$> readU8
  | ReadU16 => RNum <$> readU16
  | ReadU16BE => RNum <$> readU16BE
  | ReadU32 => RNum <$> readU32
  | ReadU32BE => RNum <$> readU32BE
  | ReadU64 => RNum <$> readU64
  | ReadU64BE => RNum <$> readU64BE
  | ReadI8 => RNum <$> readI8
  | ReadI16 => RNum <$> readI16
  | ReadI16BE => RNum <$> readI16BE
  | ReadI32 => RNum <$> readI32
  | ReadI32BE => RNum <$> readI32BE
  | ReadI64 => RNum <$> readI64
  | ReadI64BE => RNum <$> readI64BE
  | ReadU64N => RN64 <$> readU64N encoding_readU64N
  | ReadU64BEN => RN64 <$> readU64BEN encoding_readU64BEN
  | ReadI64N => RN64 <$> readI64N encoding_readI64N
  | ReadI64BEN => RN64 <$> readI64BEN encoding_readI64BEN
  | ReadFloat => RFloat <$> readFloat
  | ReadFloatBE => RFloat <$> readFloatBE
  | ReadDouble => RFloat <$> readDouble
  | ReadDoubleBE => RFloat <$> readDoubleBE
  | ReadVarint => RNum <$> readVarint
  | ReadVarint2 => RNum <$> readVarint2
  | ReadBytes size zeroCopy => RBuffer <$> readBytes size zeroCopy
  | ReadString enc size => RString <$> readString toString enc size
  | ReadNullString enc => RString <$> readNullString toString enc
  | ReadVarBytes zeroCopy => RBuffer <$> readVarBytes zeroCopy
  | ReadVarString enc limit => RString <$> readVarString toString enc limit
  end.

End exec.

End BufferReader.

(** ** The write operations of the writer family, as data *)

Module Write.

(** A 32-byte hash is passed as a buffer or as a hex string. *)
Inductive hash_arg : Type :=
| HashBuffer (value : list Z)
| HashHex (value : string).

(** The argument of a float write is held as the bytes of its IEEE
    pattern, the least significant first. *)
Inductive op : Type :=
| U8 (value : Z) | U16 (value : Z) | U16BE (value : Z)
| U32 (value : Z) | U32BE (value : Z) | U64 (value : Z) | U64BE (value : Z)
| I8 (value : Z) | I16 (value : Z) | I16BE (value : Z)
| I32 (value : Z) | I32BE (value : Z) | I64 (value : Z) | I64BE (value : Z)
| Float (ieee : list Z) | FloatBE (ieee : list Z)
| Double (ieee : list Z) | DoubleBE (ieee : list Z)
| Varint (value : Z) | Varint2 (value : Z)
| Bytes (value : list Z)
| VarBytes (value : list Z)
| Copy (value : list Z) (start end_ : Z)
| String (value : string) (enc : option string)
| Hash (value : hash_arg)
| VarString (value : string) (enc : option string)
| NullString (value : string) (enc : option string)
| Checksum (hash : list Z → list Z)
| Fill (value size : Z).

End Write.

(** ** lib/sizewriter.js *)

Module SizeWriter.

Record t : Type := mk { offset : Z }.

Abbreviation M := (method t).

Definition new : t := mk 0.

(** [this.offset += n] *)
Definition add (n : Z) : M unit :=
  w ← get_state; put_state (mk (offset w + n)).

Section methods.

(** [Buffer.byteLength(value, enc)] is node's. *)
Variable byteLength : string → option string → Z.

Definition getSize : M Z := w ← get_state; mret (offset w).
Definition seek (off : Z) : M unit := add off.
Definition destroy : M unit := put_state (mk 0).
Definition render : M Z :=
  w ← get_state;
  let size := offset w in
  destroy;;
  mret size.

Definition writeU8 (value : Z) : M unit := add 1.
Definition writeU16 (value : Z) : M unit := add 2.
Definition writeU16BE (value : Z) : M unit := add 2.
Definition writeU32 (value : Z) : M unit := add 4.
Definition writeU32BE (value : Z) : M unit := add 4.
Definition writeU64 (value : Z) : M unit := add 8.
Definition writeU64BE (value : Z) : M unit := add 8.
Definition writeI8 (value : Z) : M unit := add 1.
Definition writeI16 (value : Z) : M unit := add 2.
Definition writeI16BE (value : Z) : M unit := add 2.
Definition writeI32 (value : Z) : M unit := add 4.
Definition writeI32BE (value : Z) : M unit := add 4.
Definition writeI64 (value : Z) : M unit := add 8.
Definition writeI64BE (value : Z) : M unit := add 8.
Definition writeFloat (value : list Z) : M unit := add 4.
Definition writeFloatBE (value : list Z) : M unit := add 4.
Definition writeDouble (value : list Z) : M unit := add 8.
Definition writeDoubleBE (value : list Z) : M unit := add 8.

Definition writeVarint (value : Z) : M unit := add (encoding.sizeVarint value).
Definition writeVarint2 (value : Z) : M unit := add (encoding.sizeVarint2 value).

Definition writeBytes (value : list Z) : M unit := add (encoding.len value).

Definition writeVarBytes (value : list Z) : M unit :=
  writeVarint (encoding.len value);;
  writeBytes value.

Definition copy (value : list Z) (start end_ : Z) : M unit := add (end_ - start).

Definition writeString (value : string) (enc : option string) : M unit :=
  if bool_decide (String.length value = 0%nat) then mret tt
  else add (byteLength value enc).

Definition writeHash (value : Write.hash_arg) : M unit := add 32.

Definition writeVarString (value : string) (enc : option string) : M unit :=
  if bool_decide (String.length value = 0%nat) then add 1
  else
    let size := byteLength value enc in
    writeVarint size;;
    add size.

Definition writeNullString (value : string) (enc : option string) : M unit :=
  writeString value enc;;
  writeU8 0.

Definition writeChecksum (hash : list Z → list Z) : M unit := add 4.

Definition fill (value size : Z) : M unit := add size.

Definition exec (o : Write.op) : M unit :=
  match o with
  | Write.U8 v => writeU8 v
  | Write.U16 v => writeU16 v
  | Write.U16BE v => writeU16BE v
  | Write.U32 v => writeU32 v
  | Write.U32BE v => writeU32BE v
  | Write.U64 v => writeU64 v
  | Write.U64BE v => writeU64BE v
  | Write.I8 v => writeI8 v
  | Write.I16 v => writeI16 v
  | Write.I16BE v => writeI16BE v
  | Write.I32 v => writeI32 v
  | Write.I32BE v => writeI32BE v
  | Write.I64 v => writeI64 v
  | Write.I64BE v => writeI64BE v
  | Write.Float v => writeFloat v
  | Write.FloatBE v => writeFloatBE v
  | Write.Double v => writeDouble v
  | Write.DoubleBE v => writeDoubleBE v
  | Write.Varint v => writeVarint v
  | Write.Varint2 v => writeVarint2 v
  | Write.Bytes v => writeBytes v
  | Write.VarBytes v => writeVarBytes v
  | Write.Copy v s e => copy v s e
  | Write.String v enc => writeString v enc
  | Write.Hash v => writeHash v
  | Write.VarString v enc => writeVarString v enc
  | Write.NullString v enc => writeNullString v enc
  | Write.Checksum h => writeChecksum h
  | Write.Fill v n => fill v n
  end.

(** A sequence of calls on one writer; the first to throw ends it. *)
Fixpoint run (ops : list Write.op) : M unit :=
  match ops with
  | [] => mret tt
  | o :: ops => exec o;; run ops
  end.

End methods.

End SizeWriter.

(** ** lib/staticwriter.js *)

Module StaticWriter.

Record t : Type := mk { data : list Z; offset : Z }.

Abbreviation M := (method t).

(** [new StaticWriter(size)]; the allocation is unsafe, so the initial
    bytes [init] are whatever the memory held. *)
Definition new (init : list Z) : t := mk init 0.

Definition set_data (data : list Z) : M unit :=
  w ← get_state; put_state (mk data (offset w)).
Definition set_offset (off : Z) : M unit :=
  w ← get_state; put_state (mk (data w) off).

(** [this.offset = write(this.data, value, this.offset)] for a write of
    the codec, and for node's [writeUInt8] and the like, which store
    the same bytes. *)
Definition put (write : list Z → Z → Z → list Z * Z) (value : Z) : M unit :=
  w ← get_state;
  let '(data, off) := write (data w) value (offset w) in
  put_state (mk data off).

(** The bytes of a float, stored as [least] has them or reversed. *)
Definition put_ieee (width : nat) (be : bool) (ieee : list Z) : M unit :=
  w ← get_state;
  let raw := take width (ieee ++ replicate width 0) in
  data ← lift (Buffer.blit (data w) (offset w) (if be then reverse raw else raw));
  put_state (mk data (offset w + Z.of_nat width)).

Section methods.

(** [Buffer.byteLength(value, enc)] and the bytes that
    [buf.write(value, offset, enc)] stores are node's. *)
Variable byteLength : string → option string → Z.
Variable encode : string → option string → list Z.

Definition getSize : M Z := w ← get_state; mret (offset w).

Definition seek (off : Z) : M unit :=
  w ← get_state; set_offset (offset w + off).

Definition destroy : M unit := put_state (mk [] 0).

Definition render : M (list Z) :=
  w ← get_state;
  let data := data w in
  node_assert (bool_decide (offset w = encoding.len data));;
  destroy;;
  mret data.

Definition writeU8 : Z → M unit := put encoding.writeU8.
Definition writeU16 : Z → M unit := put encoding.writeU16.
Definition writeU16BE : Z → M unit := put encoding.writeU16BE.
Definition writeU32 : Z → M unit := put encoding.writeU32.
Definition writeU32BE : Z → M unit := put encoding.writeU32BE.
Definition writeU64 : Z → M unit := put encoding.writeU64.
Definition writeU64BE : Z → M unit := put encoding.writeU64BE.
Definition writeI8 : Z → M unit := put encoding.writeI8.
Definition writeI16 : Z → M unit := put encoding.writeI16.
Definition writeI16BE : Z → M unit := put encoding.writeI16BE.
Definition writeI32 : Z → M unit := put encoding.writeI32.
Definition writeI32BE : Z → M unit := put encoding.writeI32BE.
Definition writeI64 : Z → M unit := put encoding.writeI64.
Definition writeI64BE : Z → M unit := put encoding.writeI64BE.
Definition writeFloat : list Z → M unit := put_ieee 4 false.
Definition writeFloatBE : list Z → M unit := put_ieee 4 true.
Definition writeDouble : list Z → M unit := put_ieee 8 false.
Definition writeDoubleBE : list Z → M unit := put_ieee 8 true.

Definition writeVarint : Z → M unit := put encoding.writeVarint.

Definition writeVarint2 (value : Z) : M unit :=
  w ← get_state;
  r ← lift (encoding.writeVarint2 (data w) value (offset w));
  put_state (mk r.1 r.2).

Definition writeBytes (value : list Z) : M unit :=
  if bool_decide (encoding.len value = 0) then mret tt
  else
    w ← get_state;
    data ← lift (Buffer.blit (data w) (offset w) value);
    put_state (mk data (offset w + encoding.len value)).

Definition writeVarBytes (value : list Z) : M unit :=
  writeVarint (encoding.len value);;
  writeBytes value.

Definition copy (value : list Z) (start end_ : Z) : M unit :=
  let len := end_ - start in
  if bool_decide (len = 0) then mret tt
  else
    w ← get_state;
    data ← lift (Buffer.blit (data w) (offset w) (Buffer.range value start end_));
    put_state (mk data (offset w + len)).

Definition writeString (value : string) (enc : option string) : M unit :=
  if bool_decide (String.length value = 0%nat) then mret tt
  else
    let size := byteLength value enc in
    w ← get_state;
    data ← lift (Buffer.blit (data w) (offset w) (encode value enc));
    put_state (mk data (offset w + size)).

Definition writeHash (value : Write.hash_arg) : M unit :=
  match value with
  | Write.HashBuffer value =>
      node_assert (bool_decide (encoding.len value = 32));;
      writeBytes value
  | Write.HashHex value =>
      node_assert (bool_decide (String.length value = 64%nat));;
      w ← get_state;
      data ← lift (Buffer.blit (data w) (offset w) (encode value (Some "hex")));
      put_state (mk data (offset w + 32))
  end.

Definition writeVarString (value : string) (enc : option string) : M unit :=
  if bool_decide (String.length value = 0%nat) then writeVarint 0
  else
    let size := byteLength value enc in
    writeVarint size;;
    w ← get_state;
    data ← lift (Buffer.blit (data w) (offset w) (encode value enc));
    put_state (mk data (offset w + size)).

Definition writeNullString (value : string) (enc : option string) : M unit :=
  writeString value enc;;
  writeU8 0.

Definition writeChecksum (hash : list Z → list Z) : M unit :=
  w ← get_state;
  let data := Buffer.range (data w) 0 (offset w) in
  data ← lift (Buffer.blit (StaticWriter.data w) (offset w) (take 4 (hash data)));
  put_state (mk data (offset w + 4)).

Definition fill (value size : Z) : M unit :=
  node_assert (bool_decide (0 ≤ size));;
  if bool_decide (size = 0) then mret tt
  else
    w ← get_state;
    data ← lift (Buffer.fill (data w) value (offset w) (offset w + size));
    put_state (mk data (offset w + size)).

Definition exec (o : Write.op) : M unit :=
  match o with
  | Write.U8 v => writeU8 v
  | Write.U16 v => writeU16 v
  | Write.U16BE v => writeU16BE v
  | Write.U32 v => writeU32 v
  | Write.U32BE v => writeU32BE v
  | Write.U64 v => writeU64 v
  | Write.U64BE v => writeU64BE v
  | Write.I8 v => writeI8 v
  | Write.I16 v => writeI16 v
  | Write.I16BE v => writeI16BE v
  | Write.I32 v => writeI32 v
  | Write.I32BE v => writeI32BE v
  | Write.I64 v => writeI64 v
  | Write.I64BE v => writeI64BE v
  | Write.Float v => writeFloat v
  | Write.FloatBE v => writeFloatBE v
  | Write.Double v => writeDouble v
  | Write.DoubleBE v => writeDoubleBE v
  | Write.Varint v => writeVarint v
  | Write.Varint2 v => writeVarint2 v
  | Write.Bytes v => writeBytes v
  | Write.VarBytes v => writeVarBytes v
  | Write.Copy v s e => copy v s e
  | Write.String v enc => writeString v enc
  | Write.Hash v => writeHash v
  | Write.VarString v enc => writeVarString v enc
  | Write.NullString v enc => writeNullString v enc
  | Write.Checksum h => writeChecksum h
  | Write.Fill v n => fill v n
  end.

(** A sequence of calls on one writer; the first to throw ends it. *)
Fixpoint run (ops : list Write.op) : M unit :=
  match ops with
  | [] => mret tt
  | o :: ops => exec o;; run ops
  end.

End methods.

End StaticWriter.

(** ** lib/hashwriter.js *)

Module HashWriter.

(** The hash context is the caller's; it is held as the bytes it has
    been fed. *)
Record t : Type := mk { ctx : list Z }.

Abbreviation M := (method t).

Definition update (data : list Z) : M unit :=
  w ← get_state; put_state (mk (ctx w ++ data)).

Definition getSize : M Z := throw (Error "Not available.").
Definition seek (off : Z) : M unit := throw (Error "Not available.").
Definition destroy : M unit := throw (Error "Not available.").

Definition writeVarint (value : Z) : M unit :=
  let size := encoding.sizeVarint value in
  let pool := replicate (Z.to_nat size) 0 in
  update (encoding.writeVarint pool value 0).1.

Definition writeBytes (value : list Z) : M unit := update value.

Definition writeChecksum : M unit := throw (Error "Not available.").

End HashWriter.

(** * Properties *)

(** ** Bytes and indices *)

Definition byte (b : Z) : Prop := 0 ≤ b ≤ 255.

Lemma len_app (a b : list Z) : encoding.len (a ++ b) = encoding.len a + encoding.len b.
Proof. unfold encoding.len. rewrite length_app. lia. Qed.

Lemma len_nonneg (a : list Z) : 0 ≤ encoding.len a.
Proof. unfold encoding.len. lia. Qed.

Lemma get_app_r (pre l : list Z) (k : Z) :
  0 ≤ k → encoding.get (pre ++ l) (encoding.len pre + k) = encoding.get l k.
Proof.
  intros Hk. unfold encoding.get, encoding.len.
  rewrite !decide_True by lia.
  rewrite lookup_app_r by lia. f_equal. lia.
Qed.

Lemma get_app_r0 (pre l : list Z) :
  encoding.get (pre ++ l) (encoding.len pre) = encoding.get l 0.
Proof. rewrite <- (get_app_r pre l 0) by lia. f_equal. lia. Qed.

Lemma set_app_r (pre l : list Z) (k v : Z) :
  0 ≤ k → encoding.set (pre ++ l) (encoding.len pre + k) v = pre ++ encoding.set l k v.
Proof.
  intros Hk. unfold encoding.set, encoding.len.
  rewrite !decide_True by lia.
  replace (Z.to_nat (Z.of_nat (length pre) + k)) with (length pre + Z.to_nat k)%nat by lia.
  apply insert_app_r.
Qed.

Lemma set_app_r0 (pre l : list Z) (v : Z) :
  encoding.set (pre ++ l) (encoding.len pre) v = pre ++ encoding.set l 0 v.
Proof. rewrite <- (set_app_r pre l 0) by lia. f_equal. lia. Qed.

Lemma drop_len_app (pre l : list Z) :
  drop (Z.to_nat (encoding.len pre)) (pre ++ l) = l.
Proof. unfold encoding.len. rewrite Nat2Z.id. apply drop_app_length. Qed.

Lemma get_cons_0 (x : Z) (l : list Z) : encoding.get (x :: l) 0 = Some x.
Proof. reflexivity. Qed.

Lemma get_cons_pos (x : Z) (l : list Z) (k : Z) :
  0 < k → encoding.get (x :: l) k = encoding.get l (k - 1).
Proof.
  intros Hk. unfold encoding.get. rewrite !decide_True by lia.
  replace (Z.to_nat k) with (S (Z.to_nat (k - 1))) by lia. done.
Qed.

Lemma set_cons_0 (x : Z) (l : list Z) (v : Z) :
  encoding.set (x :: l) 0 v = ToUint8 v :: l.
Proof. reflexivity. Qed.

Lemma set_cons_pos (x : Z) (l : list Z) (k v : Z) :
  0 < k → encoding.set (x :: l) k v = x :: encoding.set l (k - 1) v.
Proof.
  intros Hk. unfold encoding.set. rewrite !decide_True by lia.
  replace (Z.to_nat k) with (S (Z.to_nat (k - 1))) by lia. done.
Qed.

(** A range of a buffer, cut out of it. *)
Lemma buffer_split (data : list Z) (off : Z) (n : nat) :
  0 ≤ off → off + Z.of_nat n ≤ encoding.len data →
  ∃ pre chunk post,
    data = pre ++ chunk ++ post ∧ encoding.len pre = off ∧ length chunk = n.
Proof.
  intros H0 Hn. unfold encoding.len in *.
  exists (take (Z.to_nat off) data),
         (take n (drop (Z.to_nat off) data)),
         (drop n (drop (Z.to_nat off) data)).
  rewrite !take_drop, !length_take, length_drop. repeat split; lia.
Qed.

Ltac fixed_length l :=
  repeat (destruct l as [|? l]; simpl in *; try discriminate).

(** ** Bit arithmetic *)

Lemma land_neg_pow2 (x k : Z) : 0 ≤ k → Z.land x (- 2^k) = x / 2^k * 2^k.
Proof.
  intros Hk.
  replace (- 2^k) with (Z.lnot (Z.ones k))
    by (rewrite Z.ones_equiv; unfold Z.lnot; lia).
  rewrite <- Z.ldiff_land, Z.ldiff_ones_r by done.
  by rewrite Z.shiftr_div_pow2, Z.shiftl_mul_pow2.
Qed.

Lemma land_pow2 (a k : Z) :
  0 ≤ k → Z.land a (2^k) = if Z.testbit a k then 2^k else 0.
Proof.
  intros Hk. apply Z.bits_inj'. intros i Hi.
  rewrite Z.land_spec, Z.pow2_bits_eqb by done.
  destruct (Z.eqb_spec k i) as [->|Hne].
  - destruct (Z.testbit a i) eqn:E; simpl.
    + by rewrite Z.pow2_bits_true.
    + by rewrite Z.bits_0.
  - rewrite andb_false_r. destruct (Z.testbit a k).
    + by rewrite Z.pow2_bits_false.
    + by rewrite Z.bits_0.
Qed.

Lemma testbit_top (a k : Z) :
  0 ≤ k → 0 ≤ a < 2^(k + 1) → Z.testbit a k = bool_decide (2^k ≤ a).
Proof.
  intros Hk Ha. rewrite Z.pow_add_r in Ha by lia. change (2^1) with 2 in Ha.
  rewrite Z.testbit_eqb by done.
  assert (0 < 2^k) by (apply Z.pow_pos_nonneg; lia).
  case_bool_decide.
  - rewrite <- (Z.div_unique a (2^k) 1 (a - 2^k)) by lia. reflexivity.
  - rewrite Z.div_small by lia. reflexivity.
Qed.

Lemma lor_neg_pow2 (x k : Z) : 0 ≤ k → 0 ≤ x < 2^k → Z.lor x (- 2^k) = x - 2^k.
Proof.
  intros Hk Hx.
  assert (Z.land x (- 2^k) = 0) as E.
  { rewrite land_neg_pow2, Z.div_small by done. done. }
  rewrite <- Z.lxor_lor, <- Z.add_nocarry_lxor by done. lia.
Qed.

Lemma ToInt32_small (x : Z) : - 2^31 ≤ x < 2^31 → ToInt32 x = x.
Proof. intros H. unfold ToInt32. rewrite Z.mod_small; lia. Qed.

Lemma ToInt32_high (x : Z) : 2^31 ≤ x < 2^32 → ToInt32 x = x - 2^32.
Proof.
  intros H. unfold ToInt32.
  rewrite <- (Z.mod_unique_pos (x + 2^31) (2^32) 1 (x - 2^31)); lia.
Qed.

(** [(hi & 0xffe00000) === 0] on a 32-bit [hi] *)
Lemma hi_is_safe (hi : Z) :
  0 ≤ hi < 2^32 → band (Some hi) (Some 0xffe00000) = 0 ↔ hi < 2^21.
Proof.
  intros H. unfold band, int32. simpl from_option.
  rewrite (ToInt32_high 0xffe00000) by lia.
  change (0xffe00000 - 2^32) with (- 2^21).
  rewrite land_neg_pow2 by lia.
  destruct (decide (hi < 2^31)).
  - rewrite ToInt32_small by lia. Z.div_mod_to_equations. lia.
  - rewrite ToInt32_high by lia. Z.div_mod_to_equations. lia.
Qed.

(** Sign extension of a [k]-bit value, as the signed reads do it:
    [val | (val & 2 ** (k - 1)) * c] with [c = 2^(33 - k) - 2]. *)
Lemma sign_extend (k val : Z) :
  0 < k < 32 → 0 ≤ val < 2^k →
  bor (Some val) (Some (band (Some val) (Some (2^(k - 1))) * (2^(33 - k) - 2)))
  = if bool_decide (val < 2^(k - 1)) then val else val - 2^k.
Proof.
  intros Hk Hval.
  assert (2^k ≤ 2^31) by (apply Z.pow_le_mono_r; lia).
  assert (0 < 2^(k - 1)) by (apply Z.pow_pos_nonneg; lia).
  assert (2^(k - 1) < 2^k) by (apply Z.pow_lt_mono_r; lia).
  assert (2^(k-1) * 2^(33 - k) = 2^32) as E32
    by (rewrite <- Z.pow_add_r by lia; f_equal; lia).
  assert (2^(k-1) * 2 = 2^k) as Ek.
  { change 2 with (2^1) at 2. rewrite <- Z.pow_add_r by lia. f_equal. lia. }
  unfold bor, band, int32. simpl from_option.
  rewrite (ToInt32_small val), (ToInt32_small (2^(k-1))) by lia.
  rewrite land_pow2 by lia.
  rewrite (testbit_top val (k - 1)) by (replace (k - 1 + 1) with k by lia; lia).
  case_bool_decide; case_bool_decide; try lia.
  - rewrite ToInt32_high by nia.
    replace (2^(k-1) * (2^(33 - k) - 2) - 2^32) with (- 2^k) by lia.
    by apply lor_neg_pow2; lia.
  - rewrite Z.mul_0_l. rewrite (ToInt32_small 0) by lia. apply Z.lor_0_r.
Qed.

(** ** The fixed-width codec: writing, then reading *)

Ltac norm_offsets :=
  rewrite <- ?Z.add_assoc; simpl Z.add.

Ltac sets_concrete :=
  repeat first
    [ rewrite set_app_r0
    | rewrite set_app_r by lia
    | rewrite set_cons_0
    | rewrite set_cons_pos by lia; simpl (_ - 1) ].

Ltac gets_concrete :=
  repeat first
    [ rewrite get_app_r0
    | rewrite get_app_r by lia
    | rewrite get_cons_0
    | rewrite get_cons_pos by lia; simpl (_ - 1) ].

Ltac at_chunk data off n :=
  let pre := fresh "pre" in
  let chunk := fresh "chunk" in
  let post := fresh "post" in
  let Hlen := fresh "Hlen" in
  let Hoff := fresh "Hoff" in
  destruct (buffer_split data off n) as (pre & chunk & post & -> & Hoff & Hlen);
  [lia | first [lia | simpl; lia] | ];
  subst off; fixed_length chunk; clear Hlen.

Lemma int32_safe (x : Z) :
  bool_decide (band (Some x) (Some 0xffe00000) = 0)
  = bool_decide (0 ≤ ToInt32 x < 2^21).
Proof.
  apply bool_decide_ext.
  unfold band, int32. simpl from_option.
  rewrite (ToInt32_high 0xffe00000) by lia.
  change (0xffe00000 - 2^32) with (- 2^21).
  rewrite land_neg_pow2 by lia.
  Z.div_mod_to_equations. lia.
Qed.

Lemma int32_safe_iff (x : Z) :
  band (Some x) (Some 0xffe00000) = 0 ↔ 0 ≤ ToInt32 x < 2^21.
Proof.
  rewrite <- (bool_decide_eq_true (band _ _ = 0)), int32_safe.
  apply bool_decide_eq_true.
Qed.

Lemma sign_extend_8 (val : Z) :
  0 ≤ val < 2^8 →
  bor (Some val) (Some (band (Some val) (Some (2^7)) * 0x1fffffe))
  = if bool_decide (val < 2^7) then val else val - 2^8.
Proof. intros H. exact (sign_extend 8 val ltac:(lia) H). Qed.

Lemma sign_extend_16 (val : Z) :
  0 ≤ val < 2^16 →
  bor (Some val) (Some (band (Some val) (Some (2^15)) * 0x1fffe))
  = if bool_decide (val < 2^15) then val else val - 2^16.
Proof. intros H. exact (sign_extend 16 val ltac:(lia) H). Qed.

Lemma sign_extend_24 (val : Z) :
  0 ≤ val < 2^24 →
  bor (Some val) (Some (band (Some val) (Some (2^23)) * 0x1fe))
  = if bool_decide (val < 2^23) then val else val - 2^24.
Proof. intros H. exact (sign_extend 24 val ltac:(lia) H). Qed.

Lemma ToInt32_eq (x : Z) : ToInt32 x = (x + 2^31) mod 2^32 - 2^31.
Proof. reflexivity. Qed.

Lemma ToUint32_eq (x : Z) : ToUint32 x = x mod 2^32.
Proof. reflexivity. Qed.

Lemma ToInt32_0 : ToInt32 0 = 0.
Proof. reflexivity. Qed.

(** Arithmetic on the 32-bit conversions, by their equations. *)
Ltac js_arith :=
  unfold bor, bnot, ushr, shr, shl, scale32_floor, scale32_trunc in *;
  unfold uint32, int32, ToUint8, Z.lnot in *;
  simpl from_option in *;
  rewrite ?ToInt32_0, ?Z.lor_0_r in *;
  rewrite ?ToInt32_eq, ?ToUint32_eq in *;
  rewrite ?Z.shiftr_div_pow2, ?Z.shiftl_mul_pow2 in * by lia;
  Z.to_euclidean_division_equations; lia.

Ltac sign_extends :=
  repeat first
    [ rewrite sign_extend_8 by js_arith
    | rewrite sign_extend_16 by js_arith
    | rewrite sign_extend_24 by js_arith ].

(** What a width can hold, within the safe integers. *)
Definition unsigned_fits (width v : Z) : Prop :=
  0 ≤ v < 2^(8 * width) ∧ v ≤ 2^53 - 1.

Definition signed_fits (width v : Z) : Prop :=
  - 2^(8 * width - 1) ≤ v < 2^(8 * width - 1) ∧ - (2^53 - 1) ≤ v ≤ 2^53 - 1.

Ltac unfold_codec :=
  unfold encoding.writeU64, encoding.writeU56, encoding.writeU64BE, encoding.writeU56BE,
    encoding.write64, encoding.write56;
  unfold encoding.readU64, encoding.readU56, encoding.readU64BE, encoding.readU56BE,
    encoding.readI64, encoding.readI56, encoding.readI64BE, encoding.readI56BE;
  unfold encoding.writeI32, encoding.writeI24, encoding.writeI32BE, encoding.writeI24BE;
  unfold encoding.writeU48, encoding.writeU40, encoding.writeU32, encoding.writeU24,
    encoding.writeU16, encoding.writeU8,
    encoding.writeU48BE, encoding.writeU40BE, encoding.writeU32BE, encoding.writeU24BE,
    encoding.writeU16BE;
  unfold encoding.readU48, encoding.readU40, encoding.readU32, encoding.readU24,
    encoding.readU16, encoding.readU8,
    encoding.readU48BE, encoding.readU40BE, encoding.readU32BE, encoding.readU24BE,
    encoding.readU16BE,
    encoding.readI48, encoding.readI40, encoding.readI32, encoding.readI24,
    encoding.readI16, encoding.readI8,
    encoding.readI48BE, encoding.readI40BE, encoding.readI32BE, encoding.readI24BE,
    encoding.readI16BE.


Lemma bool_decide_Some_0 (x : Z) :
  bool_decide (Some x = Some 0) = bool_decide (x = 0).
Proof. apply bool_decide_ext. split; [by intros [= ->]|by intros ->]. Qed.

(** [split64] on a safe integer: the low word is the value modulo 2^32
    and the high word its quotient, in two's complement. *)
Lemma split64_spec (v : Z) :
  - (2^53 - 1) ≤ v ≤ 2^53 - 1 →
  ToUint32 (encoding.split64 v).2 = v mod 2^32 ∧
  ToInt32 (encoding.split64 v).1 = v / 2^32.
Proof.
  intros Hv. unfold encoding.split64.
  repeat case_bool_decide; simpl; split; js_arith.
Qed.

Ltac split64_cases :=
  try match goal with
  | Hs : - (2^53 - 1) ≤ ?v ≤ 2^53 - 1 |- context [encoding.split64 ?v] =>
      let hi := fresh "hi" in
      let lo := fresh "lo" in
      let Hlo := fresh "Hlo" in
      let Hhi := fresh "Hhi" in
      destruct (split64_spec v Hs) as [Hlo Hhi];
      destruct (encoding.split64 v) as [hi lo];
      simpl in Hlo, Hhi
  end.

Ltac width_cases len :=
  let H := fresh in
  assert (len = 1 ∨ len = 2 ∨ len = 3 ∨ len = 4 ∨
          len = 5 ∨ len = 6 ∨ len = 7 ∨ len = 8) as H by lia;
  destruct H as [->|[->|[->|[->|[->|[->|[->| ->]]]]]]].








(** The four bytes that a 32-bit write stores for [x], read back. *)
Section word_bytes.
Variable x : Z.
Let b0 := ToUint8 x.
Let b1 := ToUint8 (ushr (Some x) 8).
Let b2 := ToUint8 (ushr (Some (ushr (Some x) 8)) 8).
Let b3 := ToUint8 (ushr (Some (ushr (Some (ushr (Some x) 8)) 8)) 8).

Lemma u32_le : b0 + b1 * 2^8 + b2 * 2^16 + b3 * 2^24 = ToUint32 x.
Proof. subst b0 b1 b2 b3. js_arith. Qed.
Lemma u32_be : b3 * 2^24 + b2 * 2^16 + b1 * 2^8 + b0 = ToUint32 x.
Proof. subst b0 b1 b2 b3. js_arith. Qed.
Lemma i32_le : b0 + b1 * 2^8 + b2 * 2^16 + shl (Some b3) 24 = ToInt32 x.
Proof. subst b0 b1 b2 b3. js_arith. Qed.
Lemma i32_be : shl (Some b3) 24 + b2 * 2^16 + b1 * 2^8 + b0 = ToInt32 x.
Proof. subst b0 b1 b2 b3. js_arith. Qed.
Lemma u24_le : b0 + b1 * 2^8 + b2 * 2^16 = x mod 2^24.
Proof. subst b0 b1 b2. js_arith. Qed.
Lemma u24_be : b2 * 2^16 + b1 * 2^8 + b0 = x mod 2^24.
Proof. subst b0 b1 b2. js_arith. Qed.
End word_bytes.

Ltac words :=
  rewrite ?u32_le, ?u32_be, ?i32_le, ?i32_be, ?u24_le, ?u24_be;
  rewrite ?sign_extend_24 by (apply Z.mod_pos_bound; lia).

Ltac codec_finish :=
  simpl JS.add; words; sign_extends;
  unfold encoding.enforce, encoding.isSafe;
  rewrite ?bool_decide_Some_0, ?int32_safe;
  repeat case_bool_decide; simpl;
  rewrite ?int32_safe_iff in *;
  lazymatch goal with
  | |- Ok _ = Ok _ => do 2 f_equal; js_arith
  | |- Throw _ = Ok _ => exfalso; js_arith
  end.

Ltac codec_at dst off n :=
  at_chunk dst off n; simpl; unfold_codec; split64_cases;
  simpl fst; norm_offsets; sets_concrete; gets_concrete;
  codec_finish.

Lemma roundtrip_U (dst : list Z) (off len v : Z) :
  1 ≤ len ≤ 8 → 0 ≤ off → off + len ≤ encoding.len dst → unsigned_fits len v →
  (r ← encoding.writeU dst v off len; encoding.readU r.1 off len) = Ok (Some v).
Proof.
  intros Hlen H0 H1 [Hv Hs].
  assert (- (2^53 - 1) ≤ v ≤ 2^53 - 1) by lia.
  width_cases len.
  - codec_at dst off 1%nat.
  - codec_at dst off 2%nat.
  - codec_at dst off 3%nat.
  - codec_at dst off 4%nat.
  - codec_at dst off 5%nat.
  - codec_at dst off 6%nat.
  - codec_at dst off 7%nat.
  - codec_at dst off 8%nat.
Qed.

Lemma roundtrip_UBE (dst : list Z) (off len v : Z) :
  1 ≤ len ≤ 8 → 0 ≤ off → off + len ≤ encoding.len dst → unsigned_fits len v →
  (r ← encoding.writeUBE dst v off len; encoding.readUBE r.1 off len) = Ok (Some v).
Proof.
  intros Hlen H0 H1 [Hv Hs].
  assert (- (2^53 - 1) ≤ v ≤ 2^53 - 1) by lia.
  width_cases len.
  - codec_at dst off 1%nat.
  - codec_at dst off 2%nat.
  - codec_at dst off 3%nat.
  - codec_at dst off 4%nat.
  - codec_at dst off 5%nat.
  - codec_at dst off 6%nat.
  - codec_at dst off 7%nat.
  - codec_at dst off 8%nat.
Qed.

Lemma roundtrip_IBE (dst : list Z) (off len v : Z) :
  1 ≤ len ≤ 8 → 0 ≤ off → off + len ≤ encoding.len dst → signed_fits len v →
  (r ← encoding.writeIBE dst v off len; encoding.readIBE r.1 off len) = Ok (Some v).
Proof.
  intros Hlen H0 H1 [Hv Hs]. width_cases len.
  - codec_at dst off 1%nat.
  - codec_at dst off 2%nat.
  - codec_at dst off 3%nat.
  - codec_at dst off 4%nat.
  - codec_at dst off 5%nat.
  - codec_at dst off 6%nat.
  - codec_at dst off 7%nat.
  - codec_at dst off 8%nat.
Qed.

Lemma roundtrip_I (dst : list Z) (off len v : Z) :
  1 ≤ len ≤ 8 → len ≠ 4 →
  0 ≤ off → off + len ≤ encoding.len dst → signed_fits len v →
  (r ← encoding.writeI dst v off len; encoding.readI r.1 off len) = Ok (Some v).
Proof.
  intros Hlen H4 H0 H1 [Hv Hs]. width_cases len; [| | | done | | | |].
  - codec_at dst off 1%nat.
  - codec_at dst off 2%nat.
  - at_chunk dst off 3%nat; simpl; unfold_codec;
      simpl fst; norm_offsets; sets_concrete; gets_concrete; codec_finish.
  - codec_at dst off 5%nat.
  - codec_at dst off 6%nat.
  - codec_at dst off 7%nat.
  - codec_at dst off 8%nat.
Qed.


(** C1: the round trip fails for the signed little-endian pair at width
    4.  [writeI] sends width 4 to the 3-byte write and width 3 to the
    4-byte write, so the value 2^24, which fits in 4 signed bytes, is
    written as three zero bytes and read back as 0. *)
Theorem C1_writeI_width_4_writes_3_bytes :
  (∀ dst v off, encoding.writeI dst v off 4 = Ok (encoding.writeU24 dst v off)) ∧
  (∀ dst v off, encoding.writeI dst v off 3 = Ok (encoding.writeU32 dst v off)) ∧
  signed_fits 4 (2^24) ∧
  (r ← encoding.writeI [0; 0; 0; 0] (2^24) 0 4; encoding.readI r.1 0 4)
  = Ok (Some 0).
Proof.
  split; [reflexivity|]. split; [reflexivity|].
  split; [unfold signed_fits; lia | reflexivity].
Qed.

(** ** The 56 and 64 bit reads *)

(** The number a byte sequence spells, least significant byte first. *)
Fixpoint le_value (bs : list Z) : Z :=
  match bs with
  | [] => 0
  | b :: bs => b + 2^8 * le_value bs
  end.

(** Most significant byte first. *)
Definition be_value (bs : list Z) : Z := le_value (reverse bs).

(** The two's complement reading of a [width]-byte number. *)
Definition twos (width val : Z) : Z :=
  if bool_decide (val < 2^(8 * width - 1)) then val else val - 2^(8 * width).

(** A safe integer. *)
Definition safe (val : Z) : Prop := - (2^53 - 1) ≤ val ≤ 2^53 - 1.

Lemma range_at (pre chunk post : list Z) (n : Z) :
  n = encoding.len chunk →
  Buffer.range (pre ++ chunk ++ post) (encoding.len pre) (encoding.len pre + n) = chunk.
Proof.
  intros ->. unfold Buffer.range, encoding.len.
  rewrite Nat2Z.id, drop_app_length.
  replace (Z.to_nat (Z.of_nat (length pre) + Z.of_nat (length chunk)) - length pre)%nat
    with (length chunk) by lia.
  apply take_app_length.
Qed.

Ltac byte_bounds :=
  repeat match goal with
    | H : Forall byte (_ ++ _) |- _ => apply Forall_app in H as [? H]
    | H : Forall byte (_ :: _) |- _ => apply Forall_cons in H as [? H]
    end;
  unfold byte in *.

(** The error of the unsigned wide reads, with the offset of the read. *)
Definition exceeds (off : Z) : exn :=
  EncodingError (VNum off) (VStr "Number exceeds 2^53-1").

(** The error of the signed wide reads: the message is in the place of
    the offset, and there is no reason. *)
Definition exceeds_no_offset : exn :=
  EncodingError (VStr "Number exceeds 2^53-1") VUndefined.

Definition read_unsigned (val off : Z) : result num :=
  if bool_decide (val ≤ 2^53 - 1) then Ok (Some val) else Throw (exceeds off).

Definition read_signed (val : Z) : result num :=
  if bool_decide (safe val) then Ok (Some val) else Throw exceeds_no_offset.


Lemma shl_byte (c : Z) :
  byte c → shl (Some c) 24 = if bool_decide (c < 128) then c * 2^24 else c * 2^24 - 2^32.
Proof. unfold byte. intros H. case_bool_decide; js_arith. Qed.

Ltac range_chunk data off n :=
  let pre := fresh "pre" in
  let chunk := fresh "chunk" in
  let post := fresh "post" in
  let Hlen := fresh "Hlen" in
  let Hoff := fresh "Hoff" in
  destruct (buffer_split data off n) as (pre & chunk & post & -> & Hoff & Hlen);
  [lia | first [lia | simpl; lia] | ];
  subst off; rewrite ?range_at by (unfold encoding.len; lia);
  fixed_length chunk; clear Hlen.

Ltac read_at data off n :=
  range_chunk data off n; byte_bounds;
  unfold_codec; norm_offsets; gets_concrete; simpl JS.add;
  rewrite ?sign_extend_24 by lia;
  rewrite ?shl_byte by (unfold byte; lia);
  unfold be_value, reverse; simpl rev_append; simpl le_value;
  unfold read_unsigned, read_signed, exceeds, exceeds_no_offset;
  unfold encoding.enforce, encoding.isSafe, twos, safe;
  rewrite ?bool_decide_Some_0, ?int32_safe;
  repeat case_bool_decide; simpl;
  rewrite ?int32_safe_iff in *;
  try reflexivity;
  lazymatch goal with
  | |- Ok _ = Ok _ => do 2 f_equal; js_arith
  | |- _ => exfalso; js_arith
  end.


Section wide_reads.
Variables (data : list Z) (off : Z).
Hypothesis (Hoff : 0 ≤ off) (Hbytes : Forall byte data).

Lemma readU64_spec :
  off + 8 ≤ encoding.len data →
  encoding.readU64 data off
  = read_unsigned (le_value (Buffer.range data off (off + 8))) off.
Proof. intros H. read_at data off 8%nat. Qed.

Lemma readU64BE_spec :
  off + 8 ≤ encoding.len data →
  encoding.readU64BE data off
  = read_unsigned (be_value (Buffer.range data off (off + 8))) off.
Proof. intros H. read_at data off 8%nat. Qed.

Lemma readU56_spec :
  off + 7 ≤ encoding.len data →
  encoding.readU56 data off
  = read_unsigned (le_value (Buffer.range data off (off + 7))) off.
Proof. intros H. read_at data off 7%nat. Qed.

Lemma readU56BE_spec :
  off + 7 ≤ encoding.len data →
  encoding.readU56BE data off
  = read_unsigned (be_value (Buffer.range data off (off + 7))) off.
Proof. intros H. read_at data off 7%nat. Qed.

Lemma readI64_spec :
  off + 8 ≤ encoding.len data →
  encoding.readI64 data off
  = read_signed (twos 8 (le_value (Buffer.range data off (off + 8)))).
Proof. intros H. read_at data off 8%nat. Qed.

Lemma readI64BE_spec :
  off + 8 ≤ encoding.len data →
  encoding.readI64BE data off
  = read_signed (twos 8 (be_value (Buffer.range data off (off + 8)))).
Proof. intros H. read_at data off 8%nat. Qed.

Lemma readI56_spec :
  off + 7 ≤ encoding.len data →
  encoding.readI56 data off
  = read_signed (twos 7 (le_value (Buffer.range data off (off + 7)))).
Proof. intros H. read_at data off 7%nat. Qed.

Lemma readI56BE_spec :
  off + 7 ≤ encoding.len data →
  encoding.readI56BE data off
  = read_signed (twos 7 (be_value (Buffer.range data off (off + 7)))).
Proof. intros H. read_at data off 7%nat. Qed.

End wide_reads.

(** C2: the signed 64 and 56 bit reads fail on a magnitude above 2^53-1
    with an error that holds the message where the offset belongs and no
    reason, whereas the unsigned reads of the same bytes report the
    offset, here 1. *)
Theorem C2_signed_wide_reads_lose_the_offset :
  let le64 := [7; 0; 0; 0; 0; 0; 0; 0x20; 0] in
  let be64 := [7; 0; 0x20; 0; 0; 0; 0; 0; 0] in
  let le56 := [7; 0; 0; 0; 0; 0; 0; 0x20] in
  let be56 := [7; 0x20; 0; 0; 0; 0; 0; 0] in
  encoding.readI64 le64 1 = Throw exceeds_no_offset ∧
  encoding.readI64BE be64 1 = Throw exceeds_no_offset ∧
  encoding.readI56 le56 1 = Throw exceeds_no_offset ∧
  encoding.readI56BE be56 1 = Throw exceeds_no_offset ∧
  encoding.readU64 le64 1 = Throw (exceeds 1) ∧
  encoding.readU64BE be64 1 = Throw (exceeds 1) ∧
  encoding.readU56 le56 1 = Throw (exceeds 1) ∧
  encoding.readU56BE be56 1 = Throw (exceeds 1).
Proof. repeat split; reflexivity. Qed.

(** ** The compact varint: what is decoded and what is refused *)

(** The format table: the bytes after the marker, and the least value
    the form may carry. *)
Definition form_bytes (marker : Z) : Z :=
  if bool_decide (marker = 0xff) then 8
  else if bool_decide (marker = 0xfe) then 4
  else if bool_decide (marker = 0xfd) then 2
  else 0.

Definition form_least (marker : Z) : Z :=
  if bool_decide (marker = 0xff) then 0x100000000
  else if bool_decide (marker = 0xfe) then 0x10000
  else if bool_decide (marker = 0xfd) then 0xfd
  else 0.

Definition form_value (data : list Z) (off marker : Z) : Z :=
  if bool_decide (form_bytes marker = 0) then marker
  else le_value (Buffer.range data (off + 1) (off + 1 + form_bytes marker)).

(** The form at [off] lies within the buffer. *)
Definition in_bounds (data : list Z) (off marker : Z) : Prop :=
  0 ≤ off ∧ encoding.get data off = Some marker ∧
  off + 1 + form_bytes marker ≤ encoding.len data.

Definition noncanonical (off : Z) : exn :=
  EncodingError (VNum off) (VStr "Non-canonical varint").

Lemma bool_decide_Some_eq (x y : Z) :
  bool_decide (Some x = Some y) = bool_decide (x = y).
Proof. apply bool_decide_ext. split; [by intros [= ->]|by intros ->]. Qed.

Lemma range_app_r (pre l : list Z) (a b : Z) :
  0 ≤ a →
  Buffer.range (pre ++ l) (encoding.len pre + a) (encoding.len pre + b)
  = Buffer.range l a b.
Proof.
  intros Ha. unfold Buffer.range, encoding.len.
  replace (Z.to_nat (Z.of_nat (length pre) + a)) with (length pre + Z.to_nat a)%nat by lia.
  rewrite drop_app_add. f_equal. lia.
Qed.

Ltac ranges_concrete :=
  rewrite ?range_app_r by lia;
  repeat match goal with
    | |- context [Buffer.range ?l ?a ?b] =>
        let r := eval vm_compute in (Buffer.range l a b) in
        change (Buffer.range l a b) with r
    end.

Lemma lor_disjoint (a b k : Z) :
  0 ≤ k → 0 ≤ a < 2^k → Z.lor a (b * 2^k) = a + b * 2^k.
Proof.
  intros Hk Ha.
  assert (Z.land a (b * 2^k) = 0) as E.
  { apply Z.bits_inj'. intros i Hi. rewrite Z.land_spec, Z.bits_0.
    destruct (decide (i < k)).
    - rewrite Z.mul_pow2_bits_low by lia. apply andb_false_r.
    - rewrite <- (Z.mod_small a (2^k)) by lia.
      rewrite Z.mod_pow2_bits_high by lia. done. }
  rewrite <- Z.lxor_lor, <- Z.add_nocarry_lxor by done. done.
Qed.

Lemma lor_shl_8 (b1 b2 : Z) :
  byte b1 → byte b2 → bor (Some b1) (Some (shl (Some b2) 8)) = b1 + 2^8 * b2.
Proof.
  unfold byte. intros H1 H2.
  unfold bor, shl, int32. simpl from_option.
  rewrite Z.shiftl_mul_pow2 by lia.
  rewrite (ToInt32_small b1), (ToInt32_small b2) by lia.
  rewrite !(ToInt32_small (b2 * 2^8)) by lia.
  rewrite lor_disjoint by lia. lia.
Qed.

Lemma readU32_spec (data : list Z) (off : Z) :
  0 ≤ off → off + 4 ≤ encoding.len data →
  encoding.readU32 data off = Some (le_value (Buffer.range data off (off + 4))).
Proof.
  intros H0 H1. range_chunk data off 4%nat.
  unfold encoding.readU32. norm_offsets. gets_concrete. simpl. f_equal. lia.
Qed.

Lemma readVarint_in_bounds (data : list Z) (off marker : Z) :
  Forall byte data → in_bounds data off marker →
  let v := form_value data off marker in
  encoding.readVarint data off
  = if bool_decide (v < form_least marker) then Throw (noncanonical off)
    else if bool_decide (v ≤ 2^53 - 1)
         then Ok (encoding.mkVarint (1 + form_bytes marker) (Some v))
         else Throw (exceeds (off + 1)).
Proof.
  intros Hb (H0 & Hget & Hlen) v. subst v.
  unfold encoding.readVarint, encoding.check.
  assert (off < encoding.len data).
  { unfold form_bytes in Hlen. repeat case_bool_decide; lia. }
  rewrite (bool_decide_eq_true_2 (off < encoding.len data)) by done. simpl.
  rewrite Hget, !bool_decide_Some_eq.
  unfold form_value, form_least, form_bytes in *.
  destruct (bool_decide_reflect (marker = 255)) as [->|];
    [|destruct (bool_decide_reflect (marker = 254)) as [->|];
      [|destruct (bool_decide_reflect (marker = 253)) as [->|]]].
  - rewrite (bool_decide_eq_true_2 (off + 9 ≤ encoding.len data)) by lia. simpl.
    rewrite readU64_spec by first [done | lia].
    unfold read_unsigned. set (val := le_value _).
    repeat case_bool_decide; simpl; unfold encoding.enforce, gt; simpl;
      repeat case_bool_decide; try reflexivity; try lia.
  - rewrite (bool_decide_eq_true_2 (off + 5 ≤ encoding.len data)) by lia. simpl.
    rewrite readU32_spec by lia. 
    assert (0 ≤ le_value (Buffer.range data (off + 1) (off + 1 + 4)) < 2^32).
    { clear Hget. remember (off + 1) as o eqn:Ho.
      assert (0 ≤ o ∧ o + 4 ≤ encoding.len data) as [??] by lia.
      clear Ho Hlen H H0.
      range_chunk data o 4%nat. byte_bounds. simpl. lia. }
    set (val := le_value _) in *.
    unfold encoding.enforce, gt; simpl;
      repeat case_bool_decide; try reflexivity; try lia.
  - rewrite (bool_decide_eq_true_2 (off + 3 ≤ encoding.len data)) by lia. simpl.
    clear Hget. revert Hlen. intros Hlen.
    destruct (buffer_split data (off + 1) 2%nat) as (pre & chunk & post & -> & Hoff & Hl);
      [lia|simpl; lia|].
    replace (off + 2) with (off + 1 + 1) by lia. rewrite <- Hoff.
    rewrite range_at by (unfold encoding.len; lia).
    fixed_length chunk. byte_bounds. gets_concrete.
    rewrite lor_shl_8 by (unfold byte; lia).
    unfold encoding.enforce, ge; simpl;
      repeat case_bool_decide; simpl; try reflexivity; try lia.
    repeat f_equal; lia.
  - simpl.
    assert (byte marker).
    { unfold encoding.get in Hget. rewrite decide_True in Hget by done.
      eapply Forall_lookup_1 in Hb; done. }
    unfold byte in *. repeat case_bool_decide; try reflexivity; try lia.
Qed.

Lemma readVarint_noncanonical_inv (data : list Z) (off : Z) :
  Forall byte data →
  encoding.readVarint data off = Throw (noncanonical off) →
  ∃ m, in_bounds data off m ∧ form_value data off m < form_least m.
Proof.
  intros Hb Hthrow.
  destruct (decide (off < 0)) as [Hneg|Hpos].
  { unfold encoding.readVarint, encoding.check, encoding.get in Hthrow.
    rewrite decide_False in Hthrow by lia.
    repeat case_bool_decide; simpl in Hthrow; discriminate. }
  destruct (encoding.get data off) as [m|] eqn:Hget.
  2:{ unfold encoding.readVarint, encoding.check in Hthrow.
      rewrite Hget in Hthrow.
      repeat case_bool_decide; simpl in Hthrow; discriminate. }
  exists m.
  destruct (decide (off + 1 + form_bytes m ≤ encoding.len data)) as [Hin|Hout].
  - assert (in_bounds data off m) as Hbounds by (repeat split; [lia|done..]).
    split; [done|].
    rewrite (readVarint_in_bounds data off m Hb Hbounds) in Hthrow.
    repeat case_bool_decide; try done; discriminate.
  - exfalso. unfold encoding.readVarint, encoding.check in Hthrow.
    rewrite Hget, !bool_decide_Some_eq in Hthrow.
    unfold form_bytes in Hout.
    repeat (case_bool_decide; simpl in Hthrow; try discriminate; try lia).
Qed.

(** What [readVarint] does on the forms of the table. *)
Definition readVarint_follows_table (data : list Z) (off : Z) : Prop :=
  (encoding.readVarint data off = Throw (noncanonical off) ↔
   ∃ m, in_bounds data off m ∧ form_value data off m < form_least m) ∧
  (∀ m, in_bounds data off m →
        form_least m ≤ form_value data off m →
        encoding.readVarint data off
        = if bool_decide (form_value data off m ≤ 2^53 - 1)
          then Ok (encoding.mkVarint (1 + form_bytes m)
                     (Some (form_value data off m)))
          else Throw (exceeds (off + 1))).

Lemma readVarint_table (data : list Z) (off : Z) :
  Forall byte data → readVarint_follows_table data off.
Proof.
  intros Hb. split; [split|].
  - by apply readVarint_noncanonical_inv.
  - intros (m & Hin & Hlt).
    rewrite (readVarint_in_bounds data off m Hb Hin).
    by rewrite bool_decide_eq_true_2.
  - intros m Hin Hle.
    rewrite (readVarint_in_bounds data off m Hb Hin).
    by rewrite bool_decide_eq_false_2 by lia.
Qed.

(** C3, as amended: on a buffer of bytes, [readVarint] fails with
    "Non-canonical varint" exactly on the in-bounds forms whose value is
    below the least value of the form (a 3-byte form up to 0xfc, a 5-byte
    form up to 0xffff, a 9-byte form up to 0xffffffff); every other
    in-bounds form decodes to its table value, unless it is a 9-byte form
    above 2^53-1, which fails with "Number exceeds 2^53-1". *)
Theorem C3_readVarint_rejects_noncanonical (data : list Z) (off : Z) :
  Forall byte data → readVarint_follows_table data off.
Proof. apply readVarint_table. Qed.

Lemma C3_readVarint_rejects_noncanonical_witness :
  Forall byte [0xfd; 0; 0] ∧ readVarint_follows_table [0xfd; 0; 0] 0.
Proof.
  assert (Forall byte [0xfd; 0; 0]) as H
    by (repeat constructor; unfold byte; lia).
  split; [exact H|].
  exact (C3_readVarint_rejects_noncanonical [0xfd; 0; 0] 0 H).
Defined.

(** C3 as stated fails: a 9-byte form that spells 2^53 is in bounds and
    is none of the non-canonical forms, yet it is not decoded. *)
Lemma C3_canonical_in_bounds_input_not_decoded :
  let data := [0xff; 0; 0; 0; 0; 0; 0; 0x20; 0] in
  Forall byte data ∧ in_bounds data 0 0xff ∧
  ¬ form_value data 0 0xff ≤ 0xffffffff ∧
  encoding.readVarint data 0 = Throw (exceeds 1).
Proof.
  split; [|split; [|split]].
  - repeat constructor; unfold byte; lia.
  - unfold in_bounds. split; [lia|]. split; [reflexivity|]. vm_compute. discriminate.
  - vm_compute. intros H. by apply H.
  - reflexivity.
Qed.

(** ** The compact varint: what is written *)

(** The [n] low bytes of [v], least significant first. *)
Fixpoint le_bytes (n : nat) (v : Z) : list Z :=
  match n with
  | O => []
  | S n => v mod 2^8 :: le_bytes n (v / 2^8)
  end.

(** The format table. *)
Definition varint_table (v : Z) : list Z :=
  if bool_decide (v < 0xfd) then [v]
  else if bool_decide (v ≤ 0xffff) then 0xfd :: le_bytes 2 v
  else if bool_decide (v ≤ 0xffffffff) then 0xfe :: le_bytes 4 v
  else 0xff :: le_bytes 8 v.

(** [code] stored at [off], the rest of [dst] as it was. *)
Definition stored_at (dst : list Z) (off : Z) (code : list Z) : list Z :=
  take (Z.to_nat off) dst ++ code ++ drop (Z.to_nat (off + encoding.len code)) dst.

Definition writeVarint_follows_table (dst : list Z) (v off : Z) : Prop :=
  let n := encoding.sizeVarint v in
  n = encoding.len (varint_table v) ∧
  (n = 1 ∨ n = 3 ∨ n = 5 ∨ n = 9) ∧
  encoding.writeVarint dst v off = (stored_at dst off (varint_table v), off + n) ∧
  encoding.readVarint (encoding.writeVarint dst v off).1 off
  = Ok (encoding.mkVarint n (Some v)).

Lemma band_ff (x : Z) : band (Some x) (Some 0xff) = ToInt32 x mod 2^8.
Proof.
  unfold band, int32. simpl from_option.
  rewrite (ToInt32_small 255) by lia.
  change 255 with (Z.ones 8). by rewrite Z.land_ones.
Qed.

Lemma stored_at_chunk (pre chunk post code : list Z) :
  length chunk = length code →
  stored_at (pre ++ chunk ++ post) (encoding.len pre) code = pre ++ code ++ post.
Proof.
  intros Hlen. unfold stored_at, encoding.len.
  rewrite Nat2Z.id, take_app_length. do 2 f_equal.
  replace (Z.to_nat (Z.of_nat (length pre) + Z.of_nat (length code)))
    with (length pre + length chunk)%nat by lia.
  rewrite drop_app_add. by rewrite drop_app_length.
Qed.

Ltac stored_chunk dst off n :=
  let pre := fresh "pre" in
  let chunk := fresh "chunk" in
  let post := fresh "post" in
  let Hlen := fresh "Hlen" in
  let Hoff := fresh "Hoff" in
  destruct (buffer_split dst off n) as (pre & chunk & post & -> & Hoff & Hlen);
  [lia | first [lia | simpl; lia] | ];
  subst off; rewrite ?stored_at_chunk by (rewrite Hlen; reflexivity);
  fixed_length chunk; clear Hlen.

Lemma le_value_le_bytes (n : nat) :
  ∀ v, le_value (le_bytes n v) = v mod 2^(8 * Z.of_nat n).
Proof.
  induction n as [|n IH]; intros v; simpl le_bytes; simpl le_value.
  - by rewrite Z.mod_1_r.
  - rewrite IH.
    replace (8 * Z.of_nat (S n)) with (8 + 8 * Z.of_nat n) by lia.
    rewrite Z.pow_add_r by lia.
    rewrite (Z.rem_mul_r v (2^8) (2^(8 * Z.of_nat n))) by lia. done.
Qed.

Lemma Forall_byte_le_bytes (n : nat) : ∀ v, Forall byte (le_bytes n v).
Proof.
  induction n as [|n IH]; intros v; simpl; constructor; [|done].
  unfold byte. pose proof (Z.mod_pos_bound v (2^8)). lia.
Qed.

(** The bytes [writeVarint] stores. *)
Lemma writeVarint_stores (dst : list Z) (v off : Z) :
  0 ≤ v ≤ 2^53 - 1 → 0 ≤ off → off + encoding.sizeVarint v ≤ encoding.len dst →
  encoding.writeVarint dst v off
  = (stored_at dst off (varint_table v), off + encoding.sizeVarint v).
Proof.
  intros Hv H0 Hlen.
  assert (- (2^53 - 1) ≤ v ≤ 2^53 - 1) as Hs by lia.
  unfold encoding.sizeVarint, encoding.writeVarint, varint_table in *.
  destruct (bool_decide_reflect (v < 0xfd));
    [|destruct (bool_decide_reflect (v ≤ 0xffff));
      [|destruct (bool_decide_reflect (v ≤ 0xffffffff))]].
  - stored_chunk dst off 1%nat. norm_offsets. sets_concrete.
    rewrite ?band_ff. repeat f_equal. js_arith.
  - stored_chunk dst off 3%nat. norm_offsets. sets_concrete.
    rewrite ?band_ff. simpl le_bytes. repeat f_equal; js_arith.
  - stored_chunk dst off 5%nat. norm_offsets. sets_concrete.
    rewrite ?band_ff. simpl le_bytes. repeat f_equal; js_arith.
  - stored_chunk dst off 9%nat. unfold_codec. split64_cases.
    norm_offsets. sets_concrete.
    rewrite ?band_ff. simpl le_bytes. repeat f_equal; js_arith.
Qed.

Lemma range_after_marker (pre : list Z) (m : Z) (code post : list Z) (n : Z) :
  n = encoding.len code →
  Buffer.range (pre ++ m :: code ++ post) (encoding.len pre + 1)
    (encoding.len pre + 1 + n) = code.
Proof.
  intros ->.
  replace (pre ++ m :: code ++ post) with ((pre ++ [m]) ++ code ++ post)
    by (by rewrite <- app_assoc).
  replace (encoding.len pre + 1) with (encoding.len (pre ++ [m]))
    by (rewrite len_app; reflexivity).
  by apply range_at.
Qed.

Lemma readVarint_of_table (dst : list Z) (v off : Z) :
  Forall byte dst →
  0 ≤ v ≤ 2^53 - 1 → 0 ≤ off → off + encoding.sizeVarint v ≤ encoding.len dst →
  encoding.readVarint (stored_at dst off (varint_table v)) off
  = Ok (encoding.mkVarint (encoding.sizeVarint v) (Some v)).
Proof.
  intros Hb Hv H0 Hlen.
  destruct (buffer_split dst off (Z.to_nat (encoding.sizeVarint v)))
    as (pre & chunk & post & -> & Hoff & Hchunk).
  { done. }
  { unfold encoding.sizeVarint in *. repeat case_bool_decide; lia. }
  subst off.
  assert (length (varint_table v) = Z.to_nat (encoding.sizeVarint v)) as Hcode.
  { unfold varint_table, encoding.sizeVarint. repeat case_bool_decide; reflexivity. }
  rewrite stored_at_chunk by lia.
  apply Forall_app in Hb as [Hpre Hb]. apply Forall_app in Hb as [_ Hpost].
  clear Hchunk Hlen chunk.
  set (m := default 0 (head (varint_table v))).
  assert (in_bounds (pre ++ varint_table v ++ post) (encoding.len pre) m
          ∧ form_value (pre ++ varint_table v ++ post) (encoding.len pre) m = v
          ∧ form_least m ≤ v
          ∧ 1 + form_bytes m = encoding.sizeVarint v
          ∧ Forall byte (varint_table v)) as (Hin & Hval & Hleast & Hsize & Hbytes).
  { subst m. unfold in_bounds, form_value, form_least, form_bytes,
      encoding.sizeVarint, varint_table in *.
    rewrite !len_app.
    destruct (bool_decide_reflect (v < 0xfd));
      [|destruct (bool_decide_reflect (v ≤ 0xffff));
        [|destruct (bool_decide_reflect (v ≤ 0xffffffff))]];
      simpl head; simpl default; rewrite <- app_comm_cons, get_app_r0, get_cons_0.
    - repeat case_bool_decide; try lia.
      repeat split; try done; try (unfold encoding.len; simpl; lia).
      repeat constructor; unfold byte; lia.
    - simpl bool_decide. cbv iota.
      rewrite range_after_marker by reflexivity.
      rewrite le_value_le_bytes, Z.mod_small by (simpl; lia).
      repeat split; try done; try (unfold encoding.len; simpl; lia).
      constructor; [unfold byte; lia|apply Forall_byte_le_bytes].
    - simpl bool_decide. cbv iota.
      rewrite range_after_marker by reflexivity.
      rewrite le_value_le_bytes, Z.mod_small by (simpl; lia).
      repeat split; try done; try (unfold encoding.len; simpl; lia).
      constructor; [unfold byte; lia|apply Forall_byte_le_bytes].
    - simpl bool_decide. cbv iota.
      rewrite range_after_marker by reflexivity.
      rewrite le_value_le_bytes, Z.mod_small by (simpl; lia).
      repeat split; try done; try (unfold encoding.len; simpl; lia).
      constructor; [unfold byte; lia|apply Forall_byte_le_bytes]. }
  rewrite (readVarint_in_bounds _ _ m); [|by repeat apply Forall_app_2|done].
  rewrite Hval, Hsize.
  rewrite bool_decide_eq_false_2, bool_decide_eq_true_2 by lia. done.
Qed.

Lemma writeVarint_table (dst : list Z) (v off : Z) :
  Forall byte dst →
  0 ≤ v ≤ 2^53 - 1 → 0 ≤ off → off + encoding.sizeVarint v ≤ encoding.len dst →
  writeVarint_follows_table dst v off.
Proof.
  intros Hb Hv H0 Hlen. unfold writeVarint_follows_table.
  rewrite writeVarint_stores by done. simpl fst.
  split; [|split; [|split; [done|by apply readVarint_of_table]]].
  - unfold encoding.sizeVarint, varint_table. repeat case_bool_decide; reflexivity.
  - unfold encoding.sizeVarint. repeat case_bool_decide; auto.
Qed.

Lemma le_value_bound (l : list Z) :
  Forall byte l → 0 ≤ le_value l < 2^(8 * encoding.len l).
Proof.
  unfold encoding.len.
  induction 1 as [|b l Hb _ IH]; simpl le_value; [simpl; lia|].
  replace (8 * Z.of_nat (length (b :: l))) with (8 + 8 * Z.of_nat (length l))
    by (simpl length; lia).
  rewrite Z.pow_add_r by lia. unfold byte in Hb. lia.
Qed.

Lemma range_length (data : list Z) (a b : Z) :
  0 ≤ a ≤ b → b ≤ encoding.len data →
  encoding.len (Buffer.range data a b) = b - a.
Proof.
  intros Hab Hb. unfold Buffer.range, encoding.len in *.
  rewrite length_take, length_drop. lia.
Qed.

Lemma Forall_byte_range (data : list Z) (a b : Z) :
  Forall byte data → Forall byte (Buffer.range data a b).
Proof. intros H. unfold Buffer.range. by apply Forall_take, Forall_drop. Qed.

(** Whatever [readVarint] decodes has the length that [sizeVarint] gives
    its value: no value has a longer accepted form. *)
Lemma readVarint_size (data : list Z) (off sz v : Z) :
  Forall byte data →
  encoding.readVarint data off = Ok (encoding.mkVarint sz (Some v)) →
  sz = encoding.sizeVarint v.
Proof.
  intros Hb Hread.
  destruct (decide (off < 0)) as [Hneg|Hpos].
  { unfold encoding.readVarint, encoding.check, encoding.get in Hread.
    rewrite decide_False in Hread by lia.
    repeat case_bool_decide; simpl in Hread; discriminate. }
  destruct (encoding.get data off) as [m|] eqn:Hget.
  2:{ unfold encoding.readVarint, encoding.check in Hread.
      rewrite Hget in Hread.
      repeat case_bool_decide; simpl in Hread; discriminate. }
  assert (byte m) as Hm.
  { unfold encoding.get in Hget. rewrite decide_True in Hget by lia.
    eapply Forall_lookup_1 in Hb; done. }
  destruct (decide (off + 1 + form_bytes m ≤ encoding.len data)) as [Hin|Hout].
  - assert (in_bounds data off m) as Hbounds by (repeat split; [lia|done..]).
    rewrite (readVarint_in_bounds data off m Hb Hbounds) in Hread.
    pose proof (le_value_bound (Buffer.range data (off + 1) (off + 1 + form_bytes m))
                  (Forall_byte_range _ _ _ Hb)) as Hbound.
    rewrite range_length in Hbound
      by (unfold form_bytes in *; repeat case_bool_decide; lia).
    replace (off + 1 + form_bytes m - (off + 1)) with (form_bytes m) in Hbound by lia.
    unfold form_value, form_least, form_bytes, encoding.sizeVarint, byte in *.
    repeat (case_bool_decide; try discriminate; try lia);
      injection Hread as <- <-; simpl in Hbound; lia.
  - exfalso. unfold encoding.readVarint, encoding.check in Hread.
    rewrite Hget, !bool_decide_Some_eq in Hread.
    unfold form_bytes in Hout.
    repeat (case_bool_decide; simpl in Hread; try discriminate; try lia).
Qed.

(** C9: for a safe non-negative [v] and a buffer with room at [off],
    [writeVarint] stores the encoding of the format table there and
    nothing else, [sizeVarint] is the length of that encoding (1, 3, 5 or
    9), and [readVarint] on the result gives [v] back with that size. *)
Theorem C9_writeVarint_follows_table (dst : list Z) (v off : Z) :
  Forall byte dst →
  0 ≤ v ≤ 2^53 - 1 → 0 ≤ off → off + encoding.sizeVarint v ≤ encoding.len dst →
  writeVarint_follows_table dst v off.
Proof. apply writeVarint_table. Qed.

Lemma C9_writeVarint_follows_table_witness :
  Forall byte [7; 7; 7; 7; 7; 7] ∧ writeVarint_follows_table [7; 7; 7; 7; 7; 7] 70000 1.
Proof.
  assert (Forall byte [7; 7; 7; 7; 7; 7]) as H
    by (repeat constructor; unfold byte; lia).
  split; [exact H|].
  apply (C9_writeVarint_follows_table [7; 7; 7; 7; 7; 7] 70000 1 H).
  - lia.
  - lia.
  - vm_compute. discriminate.
Defined.

Example writeVarint_70000 :
  encoding.writeVarint [7; 7; 7; 7; 7; 7] 70000 1 = ([7; 0xfe; 0x70; 0x11; 0x01; 0x00], 6).
Proof. reflexivity. Qed.

(** ** The bit-packed varint on the boundary vectors *)

Definition varint2_vectors : list (Z * list Z) :=
  [ (0, [0x00]);
    (1, [0x01]);
    (127, [0x7F]);
    (128, [0x80; 0x00]);
    (255, [0x80; 0x7F]);
    (16383, [0xFE; 0x7F]);
    (16384, [0xFF; 0x00]);
    (2^32, [0x8E; 0xFE; 0xFE; 0xFF; 0x00]) ].

(** A vector at work inside any buffer: written over [junk], read back
    between [pre] and [post]. *)
Definition varint2_vector_ok (v : Z) (bs : list Z) : Prop :=
  (∀ pre junk post : list Z,
     length junk = length bs →
     encoding.writeVarint2 (pre ++ junk ++ post) v (encoding.len pre)
     = Ok (pre ++ bs ++ post, encoding.len pre + encoding.len bs)) ∧
  (∀ pre post : list Z,
     encoding.readVarint2 (pre ++ bs ++ post) (encoding.len pre)
     = Ok (encoding.mkVarint (encoding.len bs) (Some v))).

Ltac set_in_place :=
  rewrite <- ?Z.add_assoc; simpl Z.add;
  repeat (rewrite set_app_r0 || rewrite set_app_r by lia).

Ltac run_writeVarint2 :=
  unfold encoding.writeVarint2;
  match goal with
  | |- context [encoding.writeVarint2_loop ?v 0 []] =>
      let r := eval vm_compute in (encoding.writeVarint2_loop v 0 []) in
      replace (encoding.writeVarint2_loop v 0 []) with r by (vm_compute; reflexivity)
  end.

Lemma varint2_vector_holds (v : Z) (bs : list Z) :
  (v, bs) ∈ varint2_vectors → varint2_vector_ok v bs.
Proof.
  unfold varint2_vectors. rewrite !elem_of_cons, elem_of_nil.
  intros H; split.
  - intros pre junk post Hlen.
    repeat (destruct H as [H|H]; [injection H as -> ->; revert Hlen|]);
      [..|done]; simpl; intros Hlen; fixed_length junk;
      run_writeVarint2; cbv beta iota;
      unfold encoding.check; rewrite !len_app;
      (rewrite bool_decide_eq_true_2 by (unfold encoding.len; simpl; lia));
      simpl; set_in_place;
      (refine (f_equal Ok (f_equal2 pair _ _));
       [reflexivity | unfold encoding.len; simpl; lia]).
  - intros pre post.
    repeat (destruct H as [H|H]; [injection H as -> ->|]); [..|done];
      unfold encoding.readVarint2;
      (rewrite decide_False by (pose proof (len_nonneg pre); lia));
      rewrite drop_len_app; vm_compute; reflexivity.
Qed.

(** C4: each literal boundary vector of the bit-packed varint is what
    [writeVarint2] emits for its value, into any buffer with room for it,
    and [readVarint2] reads the value back from it with the size of the
    vector. *)
Theorem C4_varint2_boundary_vectors :
  Forall (λ '(v, bs), varint2_vector_ok v bs) varint2_vectors.
Proof.
  apply Forall_forall. intros [v bs] Hin. by apply varint2_vector_holds.
Qed.

(** ** Case analysis on a byte *)

Lemma byte_cases (P : Z → Prop) `{!∀ b, Decision (P b)} :
  forallb (λ b, bool_decide (P b)) (seqZ 0 256) = true → ∀ b, byte b → P b.
Proof.
  intros Hall b Hb. rewrite forallb_forall in Hall.
  eapply bool_decide_eq_true_1, Hall.
  apply list_elem_of_In, elem_of_seqZ. unfold byte in Hb. lia.
Qed.

Lemma byte_low7 (ch : Z) : byte ch → band (Some ch) (Some 0x7f) = ch mod 128.
Proof. revert ch. apply (byte_cases _). vm_compute. reflexivity. Qed.

Lemma byte_bit7 (ch : Z) :
  byte ch → bool_decide (band (Some ch) (Some 0x80) = 0) = bool_decide (ch < 128).
Proof. revert ch. apply (byte_cases _). vm_compute. reflexivity. Qed.

(** ** The bit-packed varint is canonical *)

(** The accumulator of [readVarint2] after the continuation bytes
    [body], started at [n]. *)
Fixpoint varint2_acc (n : Z) (body : list Z) : Z :=
  match body with
  | [] => n
  | c :: body => varint2_acc (n * 128 + (c - 128) + 1) body
  end.

(** A continuation byte has its high bit set. *)
Definition cont (c : Z) : Prop := 128 ≤ c ≤ 255.

Lemma readVarint2_loop_full (rest : list Z) :
  ∀ off n s sz v,
    Forall byte rest →
    encoding.readVarint2_loop rest off n s = Ok (encoding.mkVarint sz v) →
    sz = s + encoding.len rest →
    ∃ body last,
      rest = body ++ [last] ∧ Forall cont body ∧ 0 ≤ last < 128 ∧
      v = Some (varint2_acc n body * 128 + last).
Proof.
  induction rest as [|ch rest IH]; intros off n s sz v Hb Hrun Hsz; [discriminate|].
  apply Forall_cons in Hb as [Hch Hb].
  simpl in Hrun. unfold encoding.enforce in Hrun.
  rewrite byte_low7, byte_bit7 in Hrun by done.
  repeat (case_bool_decide; simpl in Hrun); try discriminate.
  - injection Hrun as <- <-.
    assert (rest = []) as ->.
    { apply length_zero_iff_nil. unfold encoding.len in Hsz. simpl in Hsz. lia. }
    exists [], ch. repeat split; try done; [unfold byte in Hch; lia|].
    simpl. rewrite Z.mod_small by (unfold byte in Hch; lia). done.
  - apply IH in Hrun as (body & last & -> & Hbody & Hlast & ->); [|done|].
    + exists (ch :: body), last. repeat split; try done; try lia.
      * constructor; [unfold cont, byte in *; lia|done].
      * simpl. do 3 f_equal. unfold byte in Hch.
        rewrite <- (Z.mod_unique_pos ch 128 1 (ch - 128)); lia.
    + unfold encoding.len in *. simpl in Hsz. lia.
Qed.

Lemma varint2_acc_snoc (body : list Z) :
  ∀ n c, varint2_acc n (body ++ [c]) = varint2_acc n body * 128 + (c - 128) + 1.
Proof. induction body as [|b body IH]; intros n c; simpl; [done|apply IH]. Qed.

Lemma varint2_acc_nonneg (body : list Z) :
  ∀ n, 0 ≤ n → Forall cont body → 0 ≤ varint2_acc n body.
Proof.
  induction body as [|b body IH]; intros n Hn Hb; simpl; [done|].
  apply Forall_cons in Hb as [Hc Hb]. apply IH; [unfold cont in Hc; lia|done].
Qed.

Lemma varint2_acc_inj (b1 : list Z) :
  ∀ b2, Forall cont b1 → Forall cont b2 →
        varint2_acc 0 b1 = varint2_acc 0 b2 → b1 = b2.
Proof.
  induction b1 as [|c1 b1 IH] using rev_ind; intros b2 H1 H2 E;
    destruct b2 as [|c2 b2 _] using rev_ind; [done| | |].
  - apply Forall_app in H2 as [H2 Hc%Forall_inv].
    rewrite varint2_acc_snoc in E. simpl in E.
    pose proof (varint2_acc_nonneg b2 0 ltac:(done) H2). unfold cont in Hc. lia.
  - apply Forall_app in H1 as [H1 Hc%Forall_inv].
    rewrite varint2_acc_snoc in E. simpl in E.
    pose proof (varint2_acc_nonneg b1 0 ltac:(done) H1). unfold cont in Hc. lia.
  - apply Forall_app in H1 as [H1 Hc1%Forall_inv].
    apply Forall_app in H2 as [H2 Hc2%Forall_inv].
    rewrite !varint2_acc_snoc in E. unfold cont in *.
    assert (varint2_acc 0 b1 = varint2_acc 0 b2 ∧ c1 = c2) as [E' ->] by lia.
    f_equal. by apply IH.
Qed.

(** [bs] is an encoding of [v]: [readVarint2] decodes [v] from [bs] and
    consumes all of it.  Bytes after the one that ends the varint are
    never read, so they are no part of an encoding. *)
Definition varint2_encodes (bs : list Z) (v : Z) : Prop :=
  Forall byte bs ∧
  encoding.readVarint2 bs 0 = Ok (encoding.mkVarint (encoding.len bs) (Some v)).

Lemma varint2_encodes_inj (b1 b2 : list Z) (v : Z) :
  varint2_encodes b1 v → varint2_encodes b2 v → b1 = b2.
Proof.
  intros [Hb1 H1] [Hb2 H2]. unfold encoding.readVarint2 in *.
  rewrite decide_False in H1 by lia. rewrite decide_False in H2 by lia.
  change (drop (Z.to_nat 0) ?l) with l in H1, H2.
  apply readVarint2_loop_full in H1 as (body1 & l1 & -> & Hc1 & Hl1 & E1); [|done|lia].
  apply readVarint2_loop_full in H2 as (body2 & l2 & -> & Hc2 & Hl2 & E2); [|done|lia].
  injection E1 as E1. injection E2 as E2.
  pose proof (varint2_acc_nonneg body1 0 ltac:(done) Hc1).
  pose proof (varint2_acc_nonneg body2 0 ltac:(done) Hc2).
  assert (varint2_acc 0 body1 = varint2_acc 0 body2 ∧ l1 = l2) as [E ->] by lia.
  f_equal. by apply varint2_acc_inj.
Qed.

(** C5, as amended: the bit-packed format is canonical by construction.
    Two byte sequences that [readVarint2] decodes, each in full, to the
    same value are the same sequence. *)
Theorem C5_varint2_one_encoding_per_value (b1 b2 : list Z) (v : Z) :
  varint2_encodes b1 v → varint2_encodes b2 v → b1 = b2.
Proof. apply varint2_encodes_inj. Qed.

Lemma C5_varint2_one_encoding_per_value_witness :
  varint2_encodes [0x80; 0x00] 128 ∧ [0x80; 0x00] = [0x80; 0x00].
Proof.
  assert (varint2_encodes [0x80; 0x00] 128) as H.
  { split; [repeat constructor; unfold byte; lia | reflexivity]. }
  split; [exact H|].
  exact (C5_varint2_one_encoding_per_value [0x80; 0x00] [0x80; 0x00] 128 H H).
Defined.

(** C5 as stated fails: no value has two distinct encodings that
    [readVarint2] accepts. *)
Lemma C5_no_value_has_two_encodings :
  ¬ ∃ (v : Z) (b1 b2 : list Z),
      0 ≤ v ≤ 2^53 - 1 ∧ b1 ≠ b2 ∧ varint2_encodes b1 v ∧ varint2_encodes b2 v.
Proof.
  intros (v & b1 & b2 & _ & Hne & H1 & H2).
  apply Hne. by eapply varint2_encodes_inj.
Qed.

(** What differs between two buffers that decode to the same value is
    only what follows the varint. *)
Example readVarint2_ignores_the_rest :
  encoding.readVarint2 [0x00; 0x07] 0 = Ok (encoding.mkVarint 1 (Some 0)) ∧
  encoding.readVarint2 [0x00; 0x09] 0 = Ok (encoding.mkVarint 1 (Some 0)).
Proof. split; reflexivity. Qed.

(** ** The writers without a buffer and [writeChecksum] *)

(** C7, as amended: [writeChecksum] on the hash writer always throws
    [Error('Not available.')] and leaves the writer as it was; on the
    size writer it never throws and counts the four bytes of the
    checksum. *)
Theorem C7_writeChecksum_without_a_buffer :
  (∀ w : HashWriter.t,
     HashWriter.writeChecksum w = (Throw (Error "Not available."), w)) ∧
  (∀ (hash : list Z → list Z) (w : SizeWriter.t),
     SizeWriter.writeChecksum hash w
     = (Ok tt, SizeWriter.mk (SizeWriter.offset w + 4))).
Proof. split; reflexivity. Qed.

(** C7 as stated fails on the size writer: the call returns and the
    offset has moved. *)
Lemma C7_SizeWriter_writeChecksum_returns :
  SizeWriter.writeChecksum (λ _, [1; 2; 3; 4]) SizeWriter.new
  = (Ok tt, SizeWriter.mk 4).
Proof. reflexivity. Qed.

(** ** The size writer and the static writer *)


(** What a call adds to the offset of the size writer. *)
Definition grows (byteLength : string → option string → Z) (o : Write.op) : Z :=
  SizeWriter.offset (SizeWriter.exec byteLength o SizeWriter.new).2.

(** A write of the codec that returns [off + n] and keeps the length
    of the buffer. *)
Definition advances (write : list Z → Z → Z → list Z * Z) (n : Z) : Prop :=
  ∀ dst num off,
    (write dst num off).2 = off + n ∧
    encoding.len (write dst num off).1 = encoding.len dst.

Lemma len_set dst off v : encoding.len (encoding.set dst off v) = encoding.len dst.
Proof.
  unfold encoding.set, encoding.len. case_decide; [|done].
  by rewrite length_insert.
Qed.

Ltac codec_advances :=
  intros dst num off; cbv beta delta [
    encoding.writeU8 encoding.writeU16 encoding.writeU16BE
    encoding.writeU24 encoding.writeU24BE
    encoding.writeU32 encoding.writeU32BE
    encoding.writeI8 encoding.writeI16 encoding.writeI16BE
    encoding.writeI24 encoding.writeI24BE
    encoding.writeI32 encoding.writeI32BE] zeta;
  cbn [fst snd]; rewrite ?len_set; split; [lia | reflexivity].

Lemma advances_writeU8 : advances encoding.writeU8 1.
Proof. codec_advances. Qed.
Lemma advances_writeU16 : advances encoding.writeU16 2.
Proof. codec_advances. Qed.
Lemma advances_writeU16BE : advances encoding.writeU16BE 2.
Proof. codec_advances. Qed.
Lemma advances_writeU32 : advances encoding.writeU32 4.
Proof. codec_advances. Qed.
Lemma advances_writeU32BE : advances encoding.writeU32BE 4.
Proof. codec_advances. Qed.
Lemma advances_writeI8 : advances encoding.writeI8 1.
Proof. codec_advances. Qed.
Lemma advances_writeI16 : advances encoding.writeI16 2.
Proof. codec_advances. Qed.
Lemma advances_writeI16BE : advances encoding.writeI16BE 2.
Proof. codec_advances. Qed.
Lemma advances_writeI32 : advances encoding.writeI32 4.
Proof. codec_advances. Qed.
Lemma advances_writeI32BE : advances encoding.writeI32BE 4.
Proof. codec_advances. Qed.

Lemma advances_write64 be : advances (λ dst num off, encoding.write64 dst num off be) 8.
Proof.
  intros dst num off. unfold encoding.write64.
  destruct (encoding.split64 num) as [hi lo].
  destruct be.
  - destruct (advances_writeI32BE dst hi off) as [E1 L1].
    destruct (encoding.writeI32BE dst hi off) as [d1 o1]; cbn [fst snd] in *.
    destruct (advances_writeI32BE d1 lo o1) as [E2 L2].
    split; [lia | by rewrite L2, L1].
  - destruct (advances_writeI32 dst lo off) as [E1 L1].
    destruct (encoding.writeI32 dst lo off) as [d1 o1]; cbn [fst snd] in *.
    destruct (advances_writeI32 d1 hi o1) as [E2 L2].
    split; [lia | by rewrite L2, L1].
Qed.


(** The two loops of the bit-packed format count alike. *)
Lemma writeVarint2_loop_size num len tmp size :
  (encoding.writeVarint2_loop num len tmp).2 + size + 1
  = encoding.sizeVarint2_loop num size + len.
Proof.
  funelim (encoding.writeVarint2_loop num len tmp); simp sizeVarint2_loop;
    rewrite Heq; simpl.
  - lia.
  - specialize (H (size + 1)). lia.
Qed.




Lemma blit_spec target targetStart src :
  0 ≤ targetStart ≤ encoding.len target →
  ∃ target', Buffer.blit target targetStart src = Ok target' ∧
             encoding.len target' = encoding.len target.
Proof.
  intros H. unfold Buffer.blit, encoding.len in *.
  rewrite decide_True by done. eexists. split; [done|].
  by rewrite length_inserts.
Qed.


(** The result of a call on the static writer: it returns, the offset
    has moved by [n] and the buffer has kept its length. *)
Definition moves (m : StaticWriter.M unit) (w : StaticWriter.t) (n : Z) : Prop :=
  ∃ data, m w = (Ok tt, StaticWriter.mk data (StaticWriter.offset w + n)) ∧
          encoding.len data = encoding.len (StaticWriter.data w).


Lemma moves_blit w src n :
  0 ≤ StaticWriter.offset w ≤ encoding.len (StaticWriter.data w) →
  moves (λ w, match Buffer.blit (StaticWriter.data w) (StaticWriter.offset w) src with
              | Ok data => (Ok tt, StaticWriter.mk data (StaticWriter.offset w + n))
              | Throw e => (Throw e, w)
              end) w n.
Proof.
  intros H. destruct (blit_spec _ _ src H) as (d & E & L).
  exists d. by rewrite E.
Qed.



Ltac run_method :=
  unfold moves;
  repeat progress
    (unfold mbind, method_bind, mret, method_ret, get_state, put_state,
       lift, throw, node_assert; cbn beta iota).


Lemma sizeVarint_pos num : 0 < encoding.sizeVarint num.
Proof. unfold encoding.sizeVarint. repeat case_bool_decide; lia. Qed.







Ltac size_of_call :=
  cbv -[encoding.sizeVarint encoding.sizeVarint2 encoding.len
        Z.add Z.sub Z.le Z.lt bool_decide String.length] in *.

Section oracle.

Variable byteLength : string → option string → Z.
Variable encode : string → option string → list Z.
Hypothesis byteLength_nonneg : ∀ value enc, 0 ≤ byteLength value enc.


Lemma SizeWriter_exec o w :
  SizeWriter.exec byteLength o w
  = (Ok tt, SizeWriter.mk (SizeWriter.offset w + grows byteLength o)).
Proof.
  destruct w as [off].
  destruct o; size_of_call; try case_bool_decide;
    refine (f_equal (λ n, (Ok tt, SizeWriter.mk n)) _); lia.
Qed.



End oracle.





(** ** The state of the reader after a read *)

(** The reader with its offset moved by [n]. *)
Definition advance (r : BufferReader.t) (n : Z) : BufferReader.t :=
  BufferReader.mk (BufferReader.data r) (BufferReader.offset r + n)
    (BufferReader.zeroCopy r) (BufferReader.stack r).

Definition out_of_bounds (r : BufferReader.t) : exn :=
  EncodingError (VNum (BufferReader.offset r)) (VStr "Out of bounds read").

Ltac run_reader :=
  repeat progress
    (unfold BufferReader.this, BufferReader.bytes, BufferReader.set_offset,
       BufferReader.set_stack, BufferReader.assert, BufferReader.enforce,
       mbind, method_bind, mret, method_ret, get_state, put_state, lift,
       throw, node_assert, fmap, method_fmap;
     cbn beta iota delta [fst snd]).

Lemma fixed_outcome {A} (width : Z) (read : list Z → Z → result A) σ r :
  BufferReader.fixed width read (σ, r)
  = if bool_decide (BufferReader.offset r + width ≤ BufferReader.data_length r)
    then match read (Buffer.contents σ (BufferReader.data r)) (BufferReader.offset r) with
         | Ok a => (Ok a, (σ, advance r width))
         | Throw e => (Throw e, (σ, r))
         end
    else (Throw (out_of_bounds r), (σ, r)).
Proof.
  unfold BufferReader.fixed. run_reader.
  case_bool_decide; [|reflexivity]. run_reader.
  by destruct (read _ _).
Qed.

Lemma readVarint_outcome σ r :
  BufferReader.readVarint (σ, r)
  = match encoding.readVarint (Buffer.contents σ (BufferReader.data r))
            (BufferReader.offset r) with
    | Ok v => (Ok (encoding.value v), (σ, advance r (encoding.size v)))
    | Throw e => (Throw e, (σ, r))
    end.
Proof.
  unfold BufferReader.readVarint. run_reader. by destruct (encoding.readVarint _ _).
Qed.

Lemma readVarint2_outcome σ r :
  BufferReader.readVarint2 (σ, r)
  = match encoding.readVarint2 (Buffer.contents σ (BufferReader.data r))
            (BufferReader.offset r) with
    | Ok v => (Ok (encoding.value v), (σ, advance r (encoding.size v)))
    | Throw e => (Throw e, (σ, r))
    end.
Proof.
  unfold BufferReader.readVarint2. run_reader. by destruct (encoding.readVarint2 _ _).
Qed.

(** The store after [Buffer.allocUnsafe(size)] and
    [data.copy(ret, 0, start, end)], and the new buffer. *)
Definition copied (σ : Buffer.store) (r : BufferReader.t) (size start end_ : Z)
  : Buffer.store * Buffer.t :=
  let ret := Buffer.mk (length σ) 0 (Z.to_nat size) in
  (Buffer.copy (σ ++ [replicate (Z.to_nat size) 0]) (BufferReader.data r) ret
     0 start end_, ret).

Lemma alloc_copy_outcome σ r size start end_ :
  0 ≤ size →
  BufferReader.alloc_copy size start end_ (σ, r)
  = (Ok (copied σ r size start end_).2, ((copied σ r size start end_).1, r)).
Proof.
  intros H. unfold BufferReader.alloc_copy, Buffer.allocUnsafe.
  by rewrite decide_False by lia.
Qed.

Lemma readBytes_outcome size zeroCopy σ r :
  BufferReader.readBytes size zeroCopy (σ, r)
  = match size with
    | Some n =>
        if bool_decide (0 ≤ n) then
          if bool_decide (BufferReader.offset r + n ≤ BufferReader.data_length r) then
            if BufferReader.zeroCopy r || zeroCopy then
              (Ok (Buffer.slice (BufferReader.data r) (BufferReader.offset r)
                     (BufferReader.offset r + n)),
               (σ, advance r n))
            else
              let c := copied σ r n (BufferReader.offset r) (BufferReader.offset r + n) in
              (Ok c.2, (c.1, advance r n))
          else (Throw (out_of_bounds r), (σ, r))
        else (Throw AssertionError, (σ, r))
    | None => (Throw AssertionError, (σ, r))
    end.
Proof.
  unfold BufferReader.readBytes. destruct size as [n|]; [|reflexivity].
  unfold ge. simpl from_option. run_reader.
  case_bool_decide; [|reflexivity]. run_reader.
  case_bool_decide; [|reflexivity]. run_reader.
  destruct (_ || _); [reflexivity|].
  by rewrite alloc_copy_outcome.
Qed.

Section strings.

Variable toString : string → list Z → string.

Lemma readString_outcome enc size σ r :
  BufferReader.readString toString enc size (σ, r)
  = match size with
    | Some n =>
        if bool_decide (0 ≤ n) then
          if bool_decide (BufferReader.offset r + n ≤ BufferReader.data_length r) then
            (Ok (toString enc
                   (Buffer.range (Buffer.contents σ (BufferReader.data r))
                      (BufferReader.offset r) (BufferReader.offset r + n))),
             (σ, advance r n))
          else (Throw (out_of_bounds r), (σ, r))
        else (Throw AssertionError, (σ, r))
    | None => (Throw AssertionError, (σ, r))
    end.
Proof.
  unfold BufferReader.readString. destruct size as [n|]; [|reflexivity].
  unfold ge. simpl from_option. run_reader.
  case_bool_decide; [|reflexivity]. run_reader.
  case_bool_decide; reflexivity.
Qed.

End strings.

(** *** The bytes a read consumes *)

(** The width of a compact varint, which its first byte gives. *)
Definition varint_width (marker : num) : Z :=
  if bool_decide (marker = Some 0xff) then 9
  else if bool_decide (marker = Some 0xfe) then 5
  else if bool_decide (marker = Some 0xfd) then 3
  else 1.

(** The width of a bit-packed varint: the bytes up to the first one
    whose top bit is clear. *)
Fixpoint varint2_width (rest : list Z) : Z :=
  match rest with
  | [] => 0
  | ch :: rest =>
      if bool_decide (band #ch #0x80 = 0) then 1 else 1 + varint2_width rest
  end.

(** The bytes before the first zero byte. *)
Fixpoint strlen (rest : list Z) : Z :=
  match rest with
  | [] => 0
  | b :: rest => if bool_decide (b = 0) then 0 else 1 + strlen rest
  end.

(** The value of the compact varint at [off], when there is one. *)
Definition varint_at (data : list Z) (off : Z) : Z :=
  match encoding.readVarint data off with
  | Ok v => default 0 (encoding.value v)
  | Throw _ => 0
  end.

(** The bytes a successful read consumes from [data] at [off]. *)
Definition consumed (o : BufferReader.op) (data : list Z) (off : Z) : Z :=
  match o with
  | BufferReader.ReadU8 | BufferReader.ReadI8 => 1
  | BufferReader.ReadU16 | BufferReader.ReadU16BE
  | BufferReader.ReadI16 | BufferReader.ReadI16BE => 2
  | BufferReader.ReadU32 | BufferReader.ReadU32BE
  | BufferReader.ReadI32 | BufferReader.ReadI32BE
  | BufferReader.ReadFloat | BufferReader.ReadFloatBE => 4
  | BufferReader.ReadU64 | BufferReader.ReadU64BE
  | BufferReader.ReadI64 | BufferReader.ReadI64BE
  | BufferReader.ReadU64N | BufferReader.ReadU64BEN
  | BufferReader.ReadI64N | BufferReader.ReadI64BEN
  | BufferReader.ReadDouble | BufferReader.ReadDoubleBE => 8
  | BufferReader.ReadVarint => varint_width (encoding.get data off)
  | BufferReader.ReadVarint2 =>
      if decide (off < 0) then 1 else varint2_width (drop (Z.to_nat off) data)
  | BufferReader.ReadBytes size _ | BufferReader.ReadString _ size =>
      default 0 size
  | BufferReader.ReadNullString _ =>
      Z.max off 0 - off + strlen (drop (Z.to_nat off) data) + 1
  | BufferReader.ReadVarBytes _ | BufferReader.ReadVarString _ _ =>
      varint_width (encoding.get data off) + varint_at data off
  end.

(** The reads that decode a length and then read that many bytes. *)
Definition prefixed (o : BufferReader.op) : bool :=
  match o with
  | BufferReader.ReadVarBytes _ | BufferReader.ReadVarString _ _ => true
  | _ => false
  end.

Lemma readVarint_width data off v :
  encoding.readVarint data off = Ok v →
  encoding.size v = varint_width (encoding.get data off).
Proof.
  unfold encoding.readVarint, varint_width, encoding.check, encoding.enforce.
  intros H.
  repeat match type of H with
  | context [bool_decide ?P] => destruct (bool_decide_reflect P); simpl in H
  | context [gt ?a ?b] => destruct (gt a b); simpl in H
  | context [ge ?a ?b] => destruct (ge a b); simpl in H
  | context [encoding.readU64 ?d ?o] => destruct (encoding.readU64 d o); simpl in H
  end; try discriminate; by injection H as <-.
Qed.

Lemma readVarint2_loop_width rest : ∀ off num size v,
  encoding.readVarint2_loop rest off num size = Ok v →
  encoding.size v = size + varint2_width rest.
Proof.
  induction rest as [|ch rest IH]; intros off num size v H; simpl in *.
  - discriminate.
  - unfold encoding.enforce in H.
    destruct (bool_decide (num ≤ _)); simpl in H; [|discriminate].
    destruct (bool_decide (band _ _ = 0)).
    + injection H as <-. simpl. lia.
    + destruct (bool_decide (_ ≠ _)); simpl in H; [|discriminate].
      apply IH in H. lia.
Qed.

Lemma readVarint2_width data off v :
  encoding.readVarint2 data off = Ok v →
  encoding.size v
  = if decide (off < 0) then 1 else varint2_width (drop (Z.to_nat off) data).
Proof.
  unfold encoding.readVarint2. case_decide.
  - unfold encoding.check. destruct (bool_decide _); simpl; [|discriminate].
    by intros [= <-].
  - intros Hv. apply readVarint2_loop_width in Hv. lia.
Qed.

Lemma scan_zero_strlen rest : ∀ i, BufferReader.scan_zero rest i = i + strlen rest.
Proof.
  induction rest as [|b rest IH]; intros i; simpl; [lia|].
  case_bool_decide; [lia|]. rewrite IH. lia.
Qed.

Lemma strlen_bounds rest : 0 ≤ strlen rest ≤ Z.of_nat (length rest).
Proof.
  induction rest as [|b rest IH]; simpl; [lia|]. case_bool_decide; lia.
Qed.

Lemma contents_length σ b :
  (length (Buffer.contents σ b) ≤ Buffer.length b)%nat.
Proof. unfold Buffer.contents. rewrite length_take. lia. Qed.

Section reads.

Variable toString : string → list Z → string.
Variables encoding_readU64N encoding_readU64BEN
          encoding_readI64N encoding_readI64BEN : list Z → Z → result Z.

Lemma readNullString_outcome enc σ r :
  let data := Buffer.contents σ (BufferReader.data r) in
  let off := BufferReader.offset r in
  let n := Z.max off 0 - off + strlen (drop (Z.to_nat off) data) in
  BufferReader.readNullString toString enc (σ, r)
  = if bool_decide (off + 1 ≤ BufferReader.data_length r) then
      if bool_decide (off + n ≠ BufferReader.data_length r) then
        (Ok (toString enc (Buffer.range data off (off + n))), (σ, advance r (n + 1)))
      else (Throw (out_of_bounds r), (σ, r))
    else (Throw (out_of_bounds r), (σ, r)).
Proof.
  intros data off n. subst n off data.
  unfold BufferReader.readNullString. run_reader.
  case_bool_decide as H1; [|reflexivity]. run_reader.
  rewrite scan_zero_strlen.
  set (data := Buffer.contents σ (BufferReader.data r)).
  set (off := BufferReader.offset r) in *.
  set (n := Z.max off 0 - off + strlen (drop (Z.to_nat off) data)).
  replace (Z.max off 0 + strlen (drop (Z.to_nat off) data)) with (off + n) by lia.
  destruct (bool_decide_reflect (off + n ≠ BufferReader.data_length r)) as [H2|H2];
    [|reflexivity].
  run_reader. rewrite readString_outcome.
  pose proof (strlen_bounds (drop (Z.to_nat off) data)) as Hs.
  pose proof (contents_length σ (BufferReader.data r)) as Hl.
  fold data in Hl. rewrite length_drop in Hs.
  unfold BufferReader.data_length in *. fold off.
  rewrite !bool_decide_eq_true_2 by lia.
  unfold advance. cbn. fold off. fold data.
  replace (off + (off + n - off)) with (off + n) by lia.
  do 3 f_equal. lia.
Qed.

End reads.

Lemma readVarint_fits data off v :
  encoding.readVarint data off = Ok v →
  1 ≤ encoding.size v ∧ off + encoding.size v ≤ encoding.len data.
Proof.
  unfold encoding.readVarint, encoding.check, encoding.enforce.
  intros H.
  repeat match type of H with
  | context [bool_decide ?P] => destruct (bool_decide_reflect P); simpl in H
  | context [gt ?a ?b] => destruct (gt a b); simpl in H
  | context [ge ?a ?b] => destruct (ge a b); simpl in H
  | context [encoding.readU64 ?d ?o] => destruct (encoding.readU64 d o); simpl in H
  end; try discriminate; injection H as <-; simpl; lia.
Qed.

Lemma readVarint2_loop_fits rest : ∀ off num size v,
  encoding.readVarint2_loop rest off num size = Ok v →
  1 ≤ varint2_width rest ≤ encoding.len rest.
Proof.
  induction rest as [|ch rest IH]; intros off num size v H; simpl in *.
  - discriminate.
  - unfold encoding.enforce in H. unfold encoding.len in *. simpl length.
    destruct (bool_decide (num ≤ _)); simpl in H; [|discriminate].
    destruct (bool_decide (band _ _ = 0)); [lia|].
    destruct (bool_decide (_ ≠ _)); simpl in H; [|discriminate].
    apply IH in H. lia.
Qed.

Lemma readVarint2_fits data off v :
  encoding.readVarint2 data off = Ok v →
  1 ≤ encoding.size v ∧ off + encoding.size v ≤ encoding.len data.
Proof.
  intros H. pose proof (readVarint2_width _ _ _ H) as Hw. rewrite Hw.
  unfold encoding.readVarint2 in H. case_decide.
  - unfold encoding.check in H. case_bool_decide; [lia|discriminate].
  - apply readVarint2_loop_fits in H. unfold encoding.len in *.
    rewrite length_drop in H. lia.
Qed.

Lemma contents_len σ b :
  encoding.len (Buffer.contents σ b) ≤ Z.of_nat (Buffer.length b).
Proof. pose proof (contents_length σ b). unfold encoding.len. lia. Qed.

Lemma advance_advance r a b : advance (advance r a) b = advance r (a + b).
Proof. unfold advance. simpl. by rewrite Z.add_assoc. Qed.

(** The outcome of a read [o] begun in the store [σ] with the reader
    [r].  After a return only the offset of the reader has changed: it
    has moved by the bytes consumed, and is within the buffer if it
    was not negative.  A throw leaves the store and the reader as they
    were, except that a prefixed read can leave the offset behind the
    length prefix. *)
Definition settles {A} (o : BufferReader.op) (σ : Buffer.store)
    (r : BufferReader.t) (out : result A * BufferReader.world) : Prop :=
  let data := Buffer.contents σ (BufferReader.data r) in
  let off := BufferReader.offset r in
  match out with
  | (Ok _, (σ', r')) =>
      r' = advance r (consumed o data off) ∧
      0 ≤ consumed o data off ∧
      off + consumed o data off ≤ BufferReader.data_length r
  | (Throw _, (σ', r')) =>
      σ' = σ ∧
      (r' = r ∨
       (prefixed o = true ∧
        r' = advance r (varint_width (encoding.get data off)) ∧
        off + varint_width (encoding.get data off) ≤ BufferReader.data_length r))
  end.

Lemma settles_fmap {A B} (f : A → B) (m : BufferReader.M A) o σ r :
  settles o σ r (m (σ, r)) → settles o σ r ((f <$> m) (σ, r)).
Proof.
  unfold settles. run_reader. by destruct (m (σ, r)) as [[a|e] [σ' r']].
Qed.

Lemma settles_fixed {A} width (read : list Z → Z → result A) o σ r :
  0 ≤ width →
  (∀ data off, consumed o data off = width) →
  settles o σ r (BufferReader.fixed width read (σ, r)).
Proof.
  intros H0 Hw. rewrite fixed_outcome. unfold settles.
  case_bool_decide; [destruct (read _ _)|]; cbn; rewrite ?Hw; auto.
Qed.

Section settled.

Variable toString : string → list Z → string.
Variables encoding_readU64N encoding_readU64BEN
          encoding_readI64N encoding_readI64BEN : list Z → Z → result Z.

Lemma exec_settles o σ r :
  settles o σ r
    (BufferReader.exec toString encoding_readU64N encoding_readU64BEN
       encoding_readI64N encoding_readI64BEN o (σ, r)).
Proof.
  pose proof (contents_len σ (BufferReader.data r)) as Hlen.
  destruct o; cbn [BufferReader.exec]; apply settles_fmap.
  all: try (apply settles_fixed; [lia | intros; reflexivity]).
  - (* readVarint *)
    rewrite readVarint_outcome. unfold settles.
    destruct (encoding.readVarint _ _) as [v|e] eqn:E; cbn; [|auto].
    pose proof (readVarint_fits _ _ _ E). unfold BufferReader.data_length.
    rewrite <- (readVarint_width _ _ _ E). repeat split; [lia..].
  - (* readVarint2 *)
    rewrite readVarint2_outcome. unfold settles.
    destruct (encoding.readVarint2 _ _) as [v|e] eqn:E; cbn; [|auto].
    pose proof (readVarint2_fits _ _ _ E). unfold BufferReader.data_length.
    rewrite <- (readVarint2_width _ _ _ E). repeat split; [lia..].
  - (* readBytes *)
    rewrite readBytes_outcome. unfold settles.
    destruct size as [n|]; [|cbn; auto].
    repeat case_bool_decide; try destruct (_ || _); cbn; auto.
  - (* readString *)
    rewrite readString_outcome. unfold settles.
    destruct size as [n|]; [|cbn; auto].
    repeat case_bool_decide; cbn; auto.
  - (* readNullString *)
    rewrite readNullString_outcome. unfold settles.
    pose proof (strlen_bounds (drop (Z.to_nat (BufferReader.offset r))
                  (Buffer.contents σ (BufferReader.data r)))) as Hs.
    rewrite length_drop in Hs. unfold encoding.len, BufferReader.data_length in *.
    repeat case_bool_decide; cbn; auto. repeat split; lia.
  - (* readVarBytes *)
    unfold BufferReader.readVarBytes, mbind at 1, method_bind at 1.
    rewrite readVarint_outcome. unfold settles.
    destruct (encoding.readVarint _ _) as [v|e] eqn:E; [|cbn; auto].
    pose proof (readVarint_width _ _ _ E) as Hw.
    pose proof (readVarint_fits _ _ _ E) as Hf.
    assert (varint_at (Buffer.contents σ (BufferReader.data r)) (BufferReader.offset r)
            = default 0 (encoding.value v)) as Ha
      by (unfold varint_at; by rewrite E).
    rewrite readBytes_outcome. unfold BufferReader.data_length in *.
    destruct (encoding.value v) as [n|]; simpl in Ha;
      repeat case_bool_decide; try destruct (_ || _); cbn in *;
      rewrite ?advance_advance, ?Ha, <- ?Hw; (split; [done|]);
      first [ right; repeat split; lia | repeat split; lia ].
  - (* readVarString *)
    unfold BufferReader.readVarString, mbind at 1, method_bind at 1.
    rewrite readVarint_outcome. unfold settles.
    destruct (encoding.readVarint _ _) as [v|e] eqn:E; [|cbn; auto].
    pose proof (readVarint_width _ _ _ E) as Hw.
    pose proof (readVarint_fits _ _ _ E) as Hf.
    assert (varint_at (Buffer.contents σ (BufferReader.data r)) (BufferReader.offset r)
            = default 0 (encoding.value v)) as Ha
      by (unfold varint_at; by rewrite E).
    unfold BufferReader.data_length in *. run_reader.
    destruct (match limit with Some _ => _ | None => _ end);
      [|cbn; rewrite <- ?Hw; split; [done|]; right; repeat split; lia].
    run_reader. rewrite readString_outcome. unfold BufferReader.data_length in *.
    destruct (encoding.value v) as [n|]; simpl in Ha;
      repeat case_bool_decide; cbn in *;
      rewrite ?advance_advance, ?Ha, <- ?Hw; (split; [done|]);
      first [ right; repeat split; lia | repeat split; lia ].
Qed.

End settled.

(** A reader at the start of the buffer that holds [data] alone in the
    store, as [new BufferReader(data, zeroCopy)] makes it. *)
Definition reader_of (data : list Z) (zeroCopy : bool) : BufferReader.world :=
  ([data], BufferReader.mk (Buffer.mk 0 0 (length data)) 0 zeroCopy []).

(** A text decoding for the instances: the bytes as characters. *)
Definition latin1 (enc : string) (data : list Z) : string :=
  String.string_of_list_ascii
    ((λ b, Ascii.ascii_of_nat (Z.to_nat b)) <$> data).

(** The 64-bit object reads of the instances: the codec's unsigned
    little-endian read. *)
Definition read64N (data : list Z) (off : Z) : result Z :=
  n ← encoding.readU64 data off; Ok (default 0 n).

(** X1: a read that is not prefixed by a length and throws leaves the
    store and the reader exactly as they were. *)
Theorem failed_read_changes_nothing
    (toString : string → list Z → string)
    (readU64N readU64BEN readI64N readI64BEN : list Z → Z → result Z)
    (o : BufferReader.op) (σ : Buffer.store) (r : BufferReader.t)
    (e : exn) (w' : BufferReader.world) :
  prefixed o = false →
  BufferReader.exec toString readU64N readU64BEN readI64N readI64BEN o (σ, r)
  = (Throw e, w') →
  w' = (σ, r).
Proof.
  intros Hp Hexec.
  pose proof (exec_settles toString readU64N readU64BEN readI64N readI64BEN o σ r) as H.
  rewrite Hexec in H. destruct w' as [σ' r']. destruct H as [-> [->|[Hp' _]]]; [done|].
  congruence.
Qed.

Lemma failed_read_changes_nothing_witness :
  let w := reader_of [1; 2] false in
  let e := EncodingError (VNum 0) (VStr "Out of bounds read") in
  BufferReader.exec latin1 read64N read64N read64N read64N BufferReader.ReadU32 w
  = (Throw e, w) ∧ w = w.
Proof.
  intros w e. split; [reflexivity|].
  apply (failed_read_changes_nothing latin1 read64N read64N read64N read64N
           BufferReader.ReadU32 w.1 w.2 e w); reflexivity.
Defined.

(** X2: a read prefixed by a length ([readVarBytes], [readVarString])
    that throws leaves the store as it was; the reader is as it was
    when the length itself could not be read, and otherwise has its
    offset behind the length. *)
Theorem failed_prefixed_read_keeps_the_prefix
    (toString : string → list Z → string)
    (readU64N readU64BEN readI64N readI64BEN : list Z → Z → result Z)
    (o : BufferReader.op) (σ : Buffer.store) (r : BufferReader.t)
    (e : exn) (w' : BufferReader.world) :
  prefixed o = true →
  BufferReader.exec toString readU64N readU64BEN readI64N readI64BEN o (σ, r)
  = (Throw e, w') →
  match encoding.readVarint (Buffer.contents σ (BufferReader.data r))
          (BufferReader.offset r) with
  | Ok v => w' = (σ, advance r (encoding.size v))
  | Throw e' => e = e' ∧ w' = (σ, r)
  end.
Proof.
  intros Hp. destruct o; try discriminate Hp; cbn [BufferReader.exec].
  - unfold BufferReader.readVarBytes. run_reader. rewrite readVarint_outcome.
    destruct (encoding.readVarint _ _) as [v|e']; [|by intros [= -> <-]].
    rewrite readBytes_outcome.
    destruct (encoding.value v) as [n|];
      repeat case_bool_decide; try destruct (_ || _); cbn;
      intros [= <- <-]; reflexivity.
  - unfold BufferReader.readVarString. run_reader. rewrite readVarint_outcome.
    destruct (encoding.readVarint _ _) as [v|e']; [|by intros [= -> <-]].
    run_reader.
    destruct (match limit with Some _ => _ | None => _ end);
      [|by intros [= <- <-]].
    run_reader. rewrite readString_outcome.
    destruct (encoding.value v) as [n|];
      repeat case_bool_decide; cbn; intros [= <- <-]; reflexivity.
Qed.

Lemma failed_prefixed_read_keeps_the_prefix_witness :
  let w := reader_of [5; 1] false in
  let e := EncodingError (VNum 1) (VStr "Out of bounds read") in
  BufferReader.exec latin1 read64N read64N read64N read64N
    (BufferReader.ReadVarBytes false) w
  = (Throw e, (w.1, advance w.2 1)) ∧
  (w.1, advance w.2 1) = (w.1, advance w.2 1).
Proof.
  intros w e. split; [reflexivity|].
  apply (failed_prefixed_read_keeps_the_prefix latin1 read64N read64N read64N read64N
           (BufferReader.ReadVarBytes false) w.1 w.2 e (w.1, advance w.2 1));
    reflexivity.
Defined.

(** X3: a read that returns leaves the reader with the same buffer,
    mode and span stack, and its offset moved by exactly the bytes the
    read consumed: the width of a fixed-width read, the width the first
    byte of a compact varint announces, the bytes of a bit-packed
    varint up to the first without its top bit, the size asked for, the
    bytes up to and including the first zero byte, or the length prefix
    and the length it holds. *)
Theorem read_advances_by_the_bytes_consumed
    (toString : string → list Z → string)
    (readU64N readU64BEN readI64N readI64BEN : list Z → Z → result Z)
    (o : BufferReader.op) (σ : Buffer.store) (r : BufferReader.t)
    (a : BufferReader.ret) (σ' : Buffer.store) (r' : BufferReader.t) :
  BufferReader.exec toString readU64N readU64BEN readI64N readI64BEN o (σ, r)
  = (Ok a, (σ', r')) →
  r' = advance r (consumed o (Buffer.contents σ (BufferReader.data r))
                    (BufferReader.offset r)).
Proof.
  intros Hexec.
  pose proof (exec_settles toString readU64N readU64BEN readI64N readI64BEN o σ r) as H.
  rewrite Hexec in H. by destruct H.
Qed.

Lemma read_advances_by_the_bytes_consumed_witness :
  let w := reader_of [2; 104; 105; 0; 7] false in
  BufferReader.exec latin1 read64N read64N read64N read64N
    (BufferReader.ReadVarString "ascii" None) w
  = (Ok (BufferReader.RString "hi"), (w.1, advance w.2 3)) ∧
  advance w.2 3 = advance w.2 (consumed (BufferReader.ReadVarString "ascii" None)
                                 [2; 104; 105; 0; 7] 0).
Proof.
  intros w. split; [reflexivity|].
  apply (read_advances_by_the_bytes_consumed latin1 read64N read64N read64N read64N
           (BufferReader.ReadVarString "ascii" None) w.1 w.2
           (BufferReader.RString "hi") w.1 (advance w.2 3)).
  reflexivity.
Defined.

(** X4: a reader whose offset is within its buffer stays so after any
    read, returned or thrown; the buffer, the mode and the span stack
    of the reader are never changed by a read. *)
Theorem read_stays_within_the_buffer
    (toString : string → list Z → string)
    (readU64N readU64BEN readI64N readI64BEN : list Z → Z → result Z)
    (o : BufferReader.op) (σ : Buffer.store) (r : BufferReader.t) :
  0 ≤ BufferReader.offset r ≤ BufferReader.data_length r →
  let r' := (BufferReader.exec toString readU64N readU64BEN readI64N readI64BEN
               o (σ, r)).2.2 in
  BufferReader.offset r ≤ BufferReader.offset r' ≤ BufferReader.data_length r' ∧
  BufferReader.data r' = BufferReader.data r ∧
  BufferReader.zeroCopy r' = BufferReader.zeroCopy r ∧
  BufferReader.stack r' = BufferReader.stack r.
Proof.
  intros Hoff.
  pose proof (exec_settles toString readU64N readU64BEN readI64N readI64BEN o σ r) as H.
  destruct (BufferReader.exec _ _ _ _ _ _ _) as [[a|e] [σ' r']]; cbn.
  - destruct H as (-> & H0 & H1). unfold BufferReader.data_length in *. cbn.
    repeat split; lia.
  - destruct H as [_ [->|(_ & -> & H1)]]; [repeat split; lia|].
    unfold BufferReader.data_length in *. cbn.
    unfold varint_width in *. repeat case_bool_decide; repeat split; lia.
Qed.

Lemma read_stays_within_the_buffer_witness :
  let w := reader_of [0xfd; 0; 1; 9] false in
  let r' := (BufferReader.exec latin1 read64N read64N read64N read64N
               BufferReader.ReadVarint w).2.2 in
  0 ≤ 0 ≤ 4 ∧
  (0 ≤ BufferReader.offset r' ≤ BufferReader.data_length r' ∧
   BufferReader.data r' = BufferReader.data w.2 ∧
   BufferReader.zeroCopy r' = false ∧
   BufferReader.stack r' = []).
Proof.
  intros w r'. split; [lia|].
  apply (read_stays_within_the_buffer latin1 read64N read64N read64N read64N
           BufferReader.ReadVarint w.1 w.2).
  vm_compute. split; congruence.
Defined.

(** ** Buffers: views, copies and aliases *)

Lemma contents_valid_length σ b :
  Buffer.valid σ b → length (Buffer.contents σ b) = Buffer.length b.
Proof.
  intros (mem & Hmem & Hfit). unfold Buffer.contents. rewrite Hmem. simpl.
  rewrite length_take, length_drop. lia.
Qed.

(** A view on another array buffer does not see a store. *)
Lemma contents_set_other σ b1 b2 i v :
  Buffer.buffer b1 ≠ Buffer.buffer b2 →
  Buffer.contents (Buffer.set σ b1 i v) b2 = Buffer.contents σ b2.
Proof.
  intros Hne. unfold Buffer.set, Buffer.contents. case_decide; [|done].
  by rewrite list_lookup_alter_ne.
Qed.

(** A store inside the window of a view shows in the view. *)
Lemma contents_set_same σ b i v :
  Buffer.valid σ b → 0 ≤ i < Z.of_nat (Buffer.length b) →
  Buffer.contents (Buffer.set σ b i v) b
  = <[Z.to_nat i := ToUint8 v]> (Buffer.contents σ b).
Proof.
  intros (mem & Hmem & Hfit) Hi. unfold Buffer.set, Buffer.contents.
  rewrite decide_True by done. rewrite list_lookup_alter_eq, Hmem. simpl.
  rewrite drop_insert_ge by lia. rewrite take_insert_lt by lia.
  f_equal. lia.
Qed.

Lemma slice_contents σ b s e :
  0 ≤ s ≤ e → e ≤ Z.of_nat (Buffer.length b) →
  Buffer.contents σ (Buffer.slice b s e) = Buffer.range (Buffer.contents σ b) s e.
Proof.
  intros Hs He. unfold Buffer.contents, Buffer.slice, Buffer.range, Buffer.clamp.
  rewrite !decide_False by lia. simpl.
  rewrite !Z.min_l by lia. rewrite ?Nat2Z.id.
  destruct (σ !! Buffer.buffer b) as [mem|]; simpl.
  - rewrite skipn_firstn_comm, take_take, drop_drop. f_equal; lia.
  - repeat (rewrite drop_nil || rewrite take_nil). done.
Qed.

(** A store to the source inside a slice shows in the slice. *)
Lemma slice_sees_source σ b s e i v :
  Buffer.valid σ b →
  0 ≤ s ≤ e → e ≤ Z.of_nat (Buffer.length b) → 0 ≤ i < e - s →
  Buffer.contents (Buffer.set σ b (s + i) v) (Buffer.slice b s e) !! Z.to_nat i
  = Some (ToUint8 v).
Proof.
  intros Hv Hs He Hi.
  assert (Buffer.contents (Buffer.set σ b (s + i) v) (Buffer.slice b s e)
          = Buffer.range (Buffer.contents (Buffer.set σ b (s + i) v) b) s e) as ->
    by (by apply slice_contents).
  rewrite contents_set_same by (done || lia).
  pose proof (contents_valid_length σ b Hv) as Hl.
  unfold Buffer.range. rewrite lookup_take_lt by lia. rewrite lookup_drop.
  replace (Z.to_nat s + Z.to_nat i)%nat with (Z.to_nat (s + i)) by lia.
  apply list_lookup_insert_eq. lia.
Qed.

(** A store through a slice shows in the source. *)
Lemma source_sees_slice σ b s e i v :
  Buffer.valid σ b →
  0 ≤ s ≤ e → e ≤ Z.of_nat (Buffer.length b) → 0 ≤ i < e - s →
  Buffer.contents (Buffer.set σ (Buffer.slice b s e) i v) b !! Z.to_nat (s + i)
  = Some (ToUint8 v).
Proof.
  intros (mem & Hmem & Hfit) Hs He Hi.
  unfold Buffer.set, Buffer.contents, Buffer.slice, Buffer.clamp.
  rewrite !(decide_False (P := s < 0)), !(decide_False (P := e < 0)) by lia. simpl.
  rewrite !Z.min_l by lia. rewrite ?Nat2Z.id.
  rewrite decide_True by lia.
  rewrite list_lookup_alter_eq, Hmem. simpl.
  rewrite lookup_take_lt by lia. rewrite lookup_drop.
  replace (Buffer.byteOffset b + Z.to_nat (s + i))%nat
    with (Buffer.byteOffset b + Z.to_nat s + Z.to_nat i)%nat by lia.
  apply list_lookup_insert_eq. lia.
Qed.

(** The buffer that [Buffer.allocUnsafe] and [data.copy] make of the
    bytes from [start] on: it holds them, on an array buffer of its
    own, and the views of the store before keep their contents. *)
Lemma copied_spec σ r n start :
  Buffer.valid σ (BufferReader.data r) →
  0 ≤ start → 0 ≤ n → start + n ≤ BufferReader.data_length r →
  let c := copied σ r n start (start + n) in
  Buffer.contents c.1 c.2
  = Buffer.range (Buffer.contents σ (BufferReader.data r)) start (start + n) ∧
  Buffer.buffer c.2 = length σ ∧
  Buffer.valid c.1 c.2 ∧
  (∀ b, Buffer.valid σ b → Buffer.valid c.1 b) ∧
  (∀ b, (Buffer.buffer b < length σ)%nat → Buffer.contents c.1 b = Buffer.contents σ b).
Proof.
  intros Hv H0 Hn Hfit.
  pose proof (contents_valid_length σ _ Hv) as Hlen.
  destruct Hv as (mem & Hmem & Hwin).
  assert (Buffer.buffer (BufferReader.data r) < length σ)%nat as Hlt
    by (by eapply lookup_lt_Some).
  unfold BufferReader.data_length in Hfit.
  set (data := Buffer.contents σ (BufferReader.data r)) in *.
  assert (Buffer.contents (σ ++ [replicate (Z.to_nat n) 0]) (BufferReader.data r) = data)
    as Hsame by (unfold data, Buffer.contents; by rewrite lookup_app_l).
  set (chunk := Buffer.range data start (start + n)).
  assert (length chunk = Z.to_nat n) as Hchunk.
  { unfold chunk, Buffer.range. rewrite length_take, length_drop. lia. }
  assert ((copied σ r n start (start + n)).1 = σ ++ [chunk]) as Hstore.
  { unfold copied, Buffer.copy. cbn [fst Buffer.buffer Buffer.byteOffset Buffer.length].
    rewrite Hsame.
    replace (take (Z.to_nat n - Z.to_nat 0)
               (take (Z.to_nat (start + n - start)) (drop (Z.to_nat start) data)))
      with chunk.
    2:{ unfold chunk, Buffer.range. rewrite take_take. f_equal. lia. }
    replace (length σ) with (length σ + 0)%nat at 1 by lia.
    rewrite alter_app_r. change (Z.to_nat 0) with 0%nat. simpl. f_equal. f_equal.
    rewrite <- (app_nil_r (replicate _ _)).
    rewrite list_inserts_0_r by (by rewrite length_replicate).
    by rewrite app_nil_r. }
  cbn zeta. rewrite Hstore. unfold copied. cbn [snd].
  split; [|split; [done|split; [|split]]].
  - unfold Buffer.contents. cbn. rewrite list_lookup_middle by done. cbn.
    rewrite <- Hchunk. apply firstn_all.
  - exists chunk. cbn. rewrite list_lookup_middle by done. split; [done|lia].
  - intros b (m & Hm & Hb). exists m. split; [|done].
    rewrite lookup_app_l; [done|]. by eapply lookup_lt_Some.
  - intros b Hb. unfold Buffer.contents. by rewrite lookup_app_l.
Qed.

(** Whether the buffer that a read returns shares its bytes with the
    buffer of the reader: a store to the source at an index of the
    returned range shows in the returned buffer, or no store to the
    source does. *)
Definition shares_from (σ' : Buffer.store) (src ret : Buffer.t) (start n : Z) : Prop :=
  ∀ i v, 0 ≤ i < n →
    Buffer.contents (Buffer.set σ' src (start + i) v) ret !! Z.to_nat i
    = Some (ToUint8 v).

Definition independent_of (σ' : Buffer.store) (src ret : Buffer.t) : Prop :=
  ∀ i v, Buffer.contents (Buffer.set σ' src i v) ret = Buffer.contents σ' ret.

(** X5: [readBytes] on a reader within its buffer returns a buffer that
    holds the [size] bytes at the offset.  For a reader in zero-copy
    mode, or when the call asks for it, the buffer is a slice of the
    source, so that a store to the source shows in it; otherwise it is
    on an array buffer of its own, which no store to the source
    reaches, and the source keeps its contents. *)
Theorem readBytes_copies_or_shares
    (σ : Buffer.store) (r : BufferReader.t) (size : Z) (zeroCopy : bool) :
  Buffer.valid σ (BufferReader.data r) →
  0 ≤ BufferReader.offset r →
  0 ≤ size →
  BufferReader.offset r + size ≤ BufferReader.data_length r →
  ∃ ret σ',
    BufferReader.readBytes (Some size) zeroCopy (σ, r)
    = (Ok ret, (σ', advance r size)) ∧
    Buffer.contents σ' ret
    = Buffer.range (Buffer.contents σ (BufferReader.data r))
        (BufferReader.offset r) (BufferReader.offset r + size) ∧
    Buffer.contents σ' (BufferReader.data r)
    = Buffer.contents σ (BufferReader.data r) ∧
    if BufferReader.zeroCopy r || zeroCopy
    then σ' = σ ∧
         shares_from σ' (BufferReader.data r) ret (BufferReader.offset r) size
    else independent_of σ' (BufferReader.data r) ret.
Proof.
  intros Hv H0 Hn Hfit. rewrite readBytes_outcome.
  rewrite !bool_decide_eq_true_2 by done.
  unfold BufferReader.data_length in Hfit.
  destruct (_ || _).
  - eexists _, _. split; [reflexivity|].
    split; [apply slice_contents; lia|]. split; [done|]. split; [done|].
    intros i v Hi. apply slice_sees_source; (done || lia).
  - destruct (copied_spec σ r size (BufferReader.offset r) Hv H0 Hn Hfit)
      as (Hc & Hbuf & _ & _ & Hold).
    destruct Hv as (mem & Hmem & _). apply lookup_lt_Some in Hmem.
    eexists _, _. split; [reflexivity|]. split; [exact Hc|].
    split; [by apply Hold|].
    intros i v. apply contents_set_other. rewrite Hbuf. lia.
Qed.

Lemma readBytes_copies_or_shares_witness :
  let w := reader_of [1; 2; 3; 4] false in
  ∃ ret σ',
    BufferReader.readBytes (Some 2) false w = (Ok ret, (σ', advance w.2 2)) ∧
    Buffer.contents σ' ret = [1; 2] ∧
    Buffer.contents σ' (BufferReader.data w.2) = [1; 2; 3; 4] ∧
    independent_of σ' (BufferReader.data w.2) ret.
Proof.
  intros w.
  apply (readBytes_copies_or_shares w.1 w.2 2 false).
  - exists [1; 2; 3; 4]. split; [reflexivity | simpl; lia].
  - reflexivity.
  - lia.
  - vm_compute. congruence.
Defined.

Lemma endData_outcome zeroCopy σ r :
  BufferReader.endData zeroCopy (σ, r)
  = match BufferReader.stack r with
    | [] => (Throw AssertionError, (σ, r))
    | start :: rest =>
        let r' := BufferReader.mk (BufferReader.data r) (BufferReader.offset r)
                    (BufferReader.zeroCopy r) rest in
        let size := BufferReader.offset r - start in
        if bool_decide (size = BufferReader.data_length r)
        then (Ok (BufferReader.data r), (σ, r'))
        else if BufferReader.zeroCopy r || zeroCopy
        then (Ok (Buffer.slice (BufferReader.data r) start (BufferReader.offset r)),
              (σ, r'))
        else BufferReader.alloc_copy size start (BufferReader.offset r) (σ, r')
    end.
Proof.
  unfold BufferReader.endData. run_reader.
  destruct (BufferReader.stack r) as [|start rest]; [reflexivity|].
  rewrite (bool_decide_eq_true_2 (0 < _)%nat) by (simpl; lia).
  run_reader. unfold BufferReader.data_length. cbn.
  case_bool_decide; [reflexivity|]. by destruct (_ || _).
Qed.

(** X6: [endData] on a reader within its buffer, with a span begun at
    or before the offset, pops the span and returns a buffer that holds
    the bytes of the span.  When the span is the whole buffer the
    buffer returned is the source itself, in copy mode too; otherwise a
    reader in zero-copy mode, or a call that asks for it, returns a
    slice of the source, and a reader in copy mode a buffer on an array
    buffer of its own. *)
Theorem endData_returns_the_span
    (σ : Buffer.store) (r : BufferReader.t) (start : Z) (rest : list Z)
    (zeroCopy : bool) :
  Buffer.valid σ (BufferReader.data r) →
  BufferReader.stack r = start :: rest →
  0 ≤ start ≤ BufferReader.offset r →
  BufferReader.offset r ≤ BufferReader.data_length r →
  let r' := BufferReader.mk (BufferReader.data r) (BufferReader.offset r)
              (BufferReader.zeroCopy r) rest in
  let size := BufferReader.offset r - start in
  ∃ ret σ',
    BufferReader.endData zeroCopy (σ, r) = (Ok ret, (σ', r')) ∧
    Buffer.contents σ' ret
    = Buffer.range (Buffer.contents σ (BufferReader.data r)) start
        (BufferReader.offset r) ∧
    Buffer.contents σ' (BufferReader.data r)
    = Buffer.contents σ (BufferReader.data r) ∧
    if bool_decide (size = BufferReader.data_length r)
    then σ' = σ ∧ ret = BufferReader.data r
    else if BufferReader.zeroCopy r || zeroCopy
    then σ' = σ ∧ shares_from σ' (BufferReader.data r) ret start size
    else independent_of σ' (BufferReader.data r) ret.
Proof.
  intros Hv Hstack Hstart Hoff r' size. rewrite endData_outcome, Hstack.
  fold r' size. pose proof (contents_valid_length σ _ Hv) as Hlen.
  unfold BufferReader.data_length in *.
  case_bool_decide as Hwhole; [|destruct (_ || _)].
  - eexists _, _. split; [reflexivity|]. split; [|done].
    unfold Buffer.range. unfold size in Hwhole.
    assert (start = 0) as -> by (clear -Hstart Hoff Hwhole; lia).
    change (Z.to_nat 0) with 0%nat. rewrite drop_0, firstn_all2; [done|].
    clear -Hlen Hwhole. lia.
  - eexists _, _. split; [reflexivity|].
    split; [apply slice_contents; lia|]. split; [done|]. split; [done|].
    intros i v Hi. apply slice_sees_source; (done || lia).
  - rewrite alloc_copy_outcome by lia.
    assert (copied σ r' size start (BufferReader.offset r)
            = copied σ r size start (start + size)) as ->
      by (replace (start + size) with (BufferReader.offset r)
            by (unfold size; lia); reflexivity).
    destruct (copied_spec σ r size start Hv) as (Hc & Hbuf & _ & _ & Hold);
      [unfold BufferReader.data_length, size; lia..|].
    destruct Hv as (mem & Hmem & _). apply lookup_lt_Some in Hmem.
    eexists _, _. split; [reflexivity|].
    split; [rewrite Hc; f_equal; lia|].
    split; [by apply Hold|].
    intros i v. apply contents_set_other. rewrite Hbuf. lia.
Qed.

Lemma endData_returns_the_span_witness :
  let σ := [[1; 2; 3]] in
  let data := Buffer.mk 0 0 3 in
  let r := BufferReader.mk data 3 false [0] in
  ∃ ret σ',
    BufferReader.endData false (σ, r)
    = (Ok ret, (σ', BufferReader.mk data 3 false [])) ∧
    Buffer.contents σ' ret = [1; 2; 3] ∧
    Buffer.contents σ' data = [1; 2; 3] ∧
    σ' = σ ∧ ret = data.
Proof.
  intros σ data r.
  apply (endData_returns_the_span σ r 0 [] false).
  - exists [1; 2; 3]. split; [reflexivity | simpl; lia].
  - reflexivity.
  - simpl. lia.
  - vm_compute. congruence.
Defined.

(** ** The bit-packed varint: what is written is read back *)

Lemma stored_at_set (dst : list Z) (off x : Z) (code : list Z) :
  0 ≤ off → off + 1 + encoding.len code ≤ encoding.len dst →
  stored_at (encoding.set dst off x) (off + 1) code
  = stored_at dst off (ToUint8 x :: code).
Proof.
  intros H0 Hfit.
  destruct (buffer_split dst off (S (length code))) as (pre & chunk & post & -> & <- & Hlen);
    [done | unfold encoding.len in *; lia |].
  destruct chunk as [|c chunk]; [discriminate|]. injection Hlen as Hlen.
  rewrite (stored_at_chunk pre (c :: chunk) post (ToUint8 x :: code)) by (simpl; lia).
  rewrite set_app_r0. simpl app. rewrite set_cons_0.
  change (pre ++ ToUint8 x :: chunk ++ post) with (pre ++ [ToUint8 x] ++ chunk ++ post).
  rewrite (app_assoc pre [ToUint8 x]).
  replace (encoding.len pre + 1) with (encoding.len (pre ++ [ToUint8 x]))
    by (rewrite len_app; reflexivity).
  rewrite stored_at_chunk by done. by rewrite <- app_assoc.
Qed.

Lemma stored_at_one (dst : list Z) (off x : Z) :
  0 ≤ off → off + 1 ≤ encoding.len dst →
  encoding.set dst off x = stored_at dst off [ToUint8 x].
Proof.
  intros H0 Hfit.
  destruct (buffer_split dst off 1) as (pre & chunk & post & -> & <- & Hlen);
    [done | lia |].
  rewrite (stored_at_chunk pre chunk post [_]) by (by rewrite Hlen).
  fixed_length chunk. by rewrite set_app_r0.
Qed.

Lemma ToUint8_byte (b : Z) : byte b → ToUint8 b = b.
Proof. unfold byte, ToUint8. intros H. apply Z.mod_small. lia. Qed.

(** The second loop of [writeVarint2] stores [tmp[len]] down to
    [tmp[0]]. *)
Lemma writeVarint2_emit_stores (tmp : list Z) (len : nat) :
  ∀ dst off,
    Forall byte tmp → (len < length tmp)%nat →
    0 ≤ off → off + Z.of_nat (S len) ≤ encoding.len dst →
    encoding.writeVarint2_emit dst off tmp len
    = (stored_at dst off (reverse (take (S len) tmp)), off + Z.of_nat (S len)).
Proof.
  induction len as [|len IH]; intros dst off Hb Hlt H0 Hfit.
  - destruct tmp as [|t tmp]; [simpl in Hlt; lia|].
    apply Forall_cons in Hb as [Ht _].
    simpl. rewrite stored_at_one by lia. by rewrite ToUint8_byte.
  - destruct (lookup_lt_is_Some_2 tmp (S len) Hlt) as [t Ht].
    assert (byte t) as Hbt by (eapply Forall_lookup_1; eauto).
    cbn [encoding.writeVarint2_emit]. rewrite Ht. cbn [default from_option id].
    rewrite IH; [|done|lia|lia|rewrite len_set; lia].
    rewrite (take_S_r _ _ _ Ht), reverse_snoc.
    rewrite stored_at_set, ToUint8_byte; [|done..| ].
    + f_equal. lia.
    + unfold encoding.len in *. rewrite length_reverse, length_take. lia.
Qed.

Lemma band_7f (num : Z) : band (Some num) (Some 0x7f) = num mod 128.
Proof.
  unfold band, int32. simpl from_option.
  rewrite (ToInt32_small 127) by lia.
  change 127 with (Z.ones 7). rewrite Z.land_ones by lia.
  rewrite ToInt32_eq. Z.to_euclidean_division_equations; lia.
Qed.

Lemma bor_flag (x : Z) (first : bool) :
  0 ≤ x < 128 →
  bor (Some x) (Some (if first then 0x00 else 0x80)) = if first then x else x + 128.
Proof.
  intros Hx. assert (byte x) as Hb by (unfold byte; lia).
  revert x Hb Hx. destruct first.
  - apply (byte_cases (λ x, 0 ≤ x < 128 → bor (Some x) (Some 0) = x)).
    vm_compute. reflexivity.
  - apply (byte_cases (λ x, 0 ≤ x < 128 → bor (Some x) (Some 128) = x + 128)).
    vm_compute. reflexivity.
Qed.

(** The first loop of [writeVarint2] on a number that is not negative:
    the digit without a flag, and then the flagged digits [body], whose
    value is that of the number without its last digit. *)
Lemma writeVarint2_loop_digits (num len : Z) (tmp : list Z) :
  0 ≤ num → 0 ≤ len →
  ∃ body,
    encoding.writeVarint2_loop num len tmp
    = (tmp ++ (num mod 128 + (if bool_decide (len = 0) then 0 else 128)) :: body,
       len + encoding.len body) ∧
    Forall cont body ∧
    varint2_acc 0 (reverse body) = num / 128.
Proof.
  funelim (encoding.writeVarint2_loop num len tmp); intros Hnum Hlen;
    rewrite band_7f, bor_flag in * by (apply Z.mod_pos_bound; lia).
  - exists []. split; [|split; [constructor|]].
    + case_bool_decide; rewrite ?Z.add_0_r; f_equal; unfold encoding.len; simpl; lia.
    + simpl. symmetry. apply Z.div_small. lia.
  - clear Heqcall Heq. rewrite ?Z.rem_mod_nonneg in * by lia.
    assert ((num0 - num0 mod 128) / 128 = num0 / 128) as Hdiv
      by (clear H; Z.to_euclidean_division_equations; lia).
    rewrite Hdiv in *.
    destruct H as (body & -> & Hcont & Hacc);
      [Z.to_euclidean_division_equations; lia | lia |].
    rewrite (bool_decide_eq_false_2 (len + 1 = 0)) by lia.
    set (n1 := num0 / 128 - 1) in *.
    exists ((n1 mod 128 + 128) :: body). split; [|split].
    + rewrite <- app_assoc. simpl.
      case_bool_decide; rewrite ?Z.add_0_r; f_equal; unfold encoding.len;
        simpl length; lia.
    + constructor; [|done]. unfold cont.
      pose proof (Z.mod_pos_bound n1 128). lia.
    + rewrite reverse_cons, varint2_acc_snoc, Hacc.
      subst n1. Z.to_euclidean_division_equations; lia.
Qed.

Lemma varint2_acc_ge (body : list Z) :
  ∀ n, 0 ≤ n → Forall cont body → n ≤ varint2_acc n body.
Proof.
  induction body as [|c body IH]; intros n Hn Hb; simpl; [lia|].
  apply Forall_cons in Hb as [Hc Hb]. unfold cont in Hc.
  etrans; [|apply IH; [lia|done]]. lia.
Qed.

(** [readVarint2] on the continuation bytes [body] and the last byte
    [last]: the value is decoded when the accumulator and the last
    digit pass the guard of the last step, which is the strictest. *)
Lemma readVarint2_loop_decodes (body : list Z) :
  ∀ off n s last post,
    0 ≤ n → Forall cont body → 0 ≤ last < 128 →
    varint2_acc n body + last ≤ 2^46 - 1 →
    encoding.readVarint2_loop (body ++ last :: post) off n s
    = Ok (encoding.mkVarint (s + encoding.len body + 1)
            (Some (varint2_acc n body * 128 + last))).
Proof.
  induction body as [|c body IH]; intros off n s last post Hn Hb Hlast Hguard.
  - simpl in *. rewrite byte_low7, byte_bit7 by (unfold byte; lia).
    rewrite Z.mod_small by lia. unfold encoding.enforce.
    rewrite !bool_decide_eq_true_2 by lia. simpl.
    do 2 f_equal. unfold encoding.len. simpl. lia.
  - apply Forall_cons in Hb as [Hc Hb]. unfold cont in Hc.
    pose proof (varint2_acc_ge body (n * 128 + (c - 128) + 1) ltac:(lia) Hb) as Hge.
    simpl in *. rewrite byte_low7, byte_bit7 by (unfold byte; lia).
    assert (c mod 128 = c - 128) as -> by (Z.to_euclidean_division_equations; lia).
    unfold encoding.enforce.
    rewrite (bool_decide_eq_true_2 (n ≤ _)) by lia. simpl.
    rewrite (bool_decide_eq_false_2 (c < 128)) by lia.
    rewrite bool_decide_eq_true_2 by (unfold encoding.MAX_SAFE_INTEGER; lia). simpl.
    rewrite IH; [|lia|done|done|lia].
    do 2 f_equal. unfold encoding.len. simpl length. lia.
Qed.

Lemma readVarint2_loop_refuses (body : list Z) :
  ∀ off n s last post,
    0 ≤ n → Forall cont body → 0 ≤ last < 128 →
    varint2_acc n body ≤ 2^46 - 1 →
    2^46 - 1 < varint2_acc n body + last →
    encoding.readVarint2_loop (body ++ last :: post) off n s
    = Throw (exceeds (off + encoding.len body + 1)).
Proof.
  induction body as [|c body IH]; intros off n s last post Hn Hb Hlast Hacc Hguard.
  - simpl in *. rewrite byte_low7 by (unfold byte; lia).
    rewrite Z.mod_small by lia. unfold encoding.enforce.
    rewrite (bool_decide_eq_false_2 (n ≤ _)) by lia. simpl.
    unfold exceeds. do 3 f_equal. unfold encoding.len. simpl. lia.
  - apply Forall_cons in Hb as [Hc Hb]. unfold cont in Hc.
    pose proof (varint2_acc_ge body (n * 128 + (c - 128) + 1) ltac:(lia) Hb) as Hge.
    simpl in *. rewrite byte_low7, byte_bit7 by (unfold byte; lia).
    assert (c mod 128 = c - 128) as -> by (Z.to_euclidean_division_equations; lia).
    unfold encoding.enforce.
    rewrite (bool_decide_eq_true_2 (n ≤ _)) by lia. simpl.
    rewrite (bool_decide_eq_false_2 (c < 128)) by lia.
    rewrite bool_decide_eq_true_2 by (unfold encoding.MAX_SAFE_INTEGER; lia). simpl.
    rewrite IH; [|lia|done|done|lia|lia].
    unfold exceeds. do 3 f_equal. unfold encoding.len. simpl length. lia.
Qed.

(** What [writeVarint2] does with a number that is not negative, in a
    buffer with room for it, and what the bytes are to [readVarint2]. *)
Lemma writeVarint2_digits (dst : list Z) (v off : Z) :
  0 ≤ v → 0 ≤ off → off + encoding.sizeVarint2 v ≤ encoding.len dst →
  ∃ body dst',
    encoding.writeVarint2 dst v off = Ok (dst', off + encoding.sizeVarint2 v) ∧
    encoding.sizeVarint2 v = encoding.len body + 1 ∧
    encoding.len dst' = encoding.len dst ∧
    drop (Z.to_nat off) dst'
    = body ++ v mod 128 :: drop (Z.to_nat (off + encoding.sizeVarint2 v)) dst ∧
    Forall cont body ∧ varint2_acc 0 body = v / 128.
Proof.
  intros Hv H0 Hfit.
  destruct (writeVarint2_loop_digits v 0 [] Hv ltac:(done)) as (body & Hloop & Hcont & Hacc).
  pose proof (writeVarint2_loop_size v 0 [] 0) as Hsize.
  fold (encoding.sizeVarint2 v) in Hsize. rewrite Hloop in Hsize.
  cbn [fst snd] in Hsize.
  rewrite bool_decide_eq_true_2, Z.add_0_r in Hloop by done. simpl app in Hloop.
  assert (encoding.sizeVarint2 v = encoding.len body + 1) as Hn by lia.
  unfold encoding.writeVarint2. rewrite Hloop.
  unfold encoding.check. rewrite bool_decide_eq_true_2 by lia. simpl.
  assert (Forall byte (v mod 128 :: body)) as Hbytes.
  { constructor; [pose proof (Z.mod_pos_bound v 128); unfold byte; lia|].
    eapply Forall_impl; [exact Hcont|]. unfold cont, byte. lia. }
  unfold encoding.len in Hn, Hfit |- *.
  rewrite writeVarint2_emit_stores; [|done|simpl; lia|done|unfold encoding.len; lia].
  replace (S (Z.to_nat (0 + Z.of_nat (length body)))) with (length (v mod 128 :: body))
    by (simpl; lia).
  rewrite firstn_all, reverse_cons.
  exists (reverse body), (stored_at dst off (reverse body ++ [v mod 128])).
  assert (encoding.len (reverse body ++ [v mod 128]) = Z.of_nat (length body) + 1) as Hl
    by (unfold encoding.len; rewrite length_app, length_reverse; simpl; lia).
  split; [|split; [|split; [|split; [|split]]]].
  - do 2 f_equal. simpl length. lia.
  - unfold encoding.len. rewrite length_reverse. lia.
  - unfold stored_at, encoding.len in *.
    rewrite !length_app, length_take, length_drop, length_reverse. simpl. lia.
  - unfold stored_at. rewrite drop_app_length'; [|rewrite length_take; lia].
    rewrite <- app_assoc. simpl. do 3 f_equal. unfold encoding.len in *. lia.
  - by apply Forall_reverse.
  - exact Hacc.
Qed.

(** X7: [writeVarint2] followed by [readVarint2] returns the number,
    for every number [v] from 0 on whose last digit and whose rest
    together pass the guard of the decoder, [v / 128 + v % 128 <=
    2^46 - 1]; this holds for every [v <= 2^53 - 2^14].  Both sides
    agree with [sizeVarint2] on the size. *)
Theorem varint2_roundtrip (dst : list Z) (v off : Z) :
  0 ≤ v → v / 128 + v mod 128 ≤ 2^46 - 1 →
  0 ≤ off → off + encoding.sizeVarint2 v ≤ encoding.len dst →
  ∃ dst',
    encoding.writeVarint2 dst v off = Ok (dst', off + encoding.sizeVarint2 v) ∧
    encoding.readVarint2 dst' off
    = Ok (encoding.mkVarint (encoding.sizeVarint2 v) (Some v)).
Proof.
  intros Hv Hguard H0 Hfit.
  destruct (writeVarint2_digits dst v off Hv H0 Hfit)
    as (body & dst' & Hw & Hn & _ & Hdrop & Hcont & Hacc).
  exists dst'. split; [done|].
  unfold encoding.readVarint2. rewrite decide_False by lia. rewrite Hdrop.
  pose proof (Z.mod_pos_bound v 128 ltac:(lia)).
  rewrite readVarint2_loop_decodes; [|done..|lia].
  rewrite Hacc, Hn.
  refine (f_equal Ok (f_equal2 encoding.mkVarint _ (f_equal Some _))); [lia|].
  Z.to_euclidean_division_equations; lia.
Qed.

Lemma varint2_roundtrip_witness :
  ∃ dst',
    encoding.writeVarint2 [9; 9; 9; 9] 300 1 = Ok (dst', 1 + encoding.sizeVarint2 300) ∧
    encoding.readVarint2 dst' 1
    = Ok (encoding.mkVarint (encoding.sizeVarint2 300) (Some 300)).
Proof.
  apply (varint2_roundtrip [9; 9; 9; 9] 300 1); [lia | vm_compute; congruence | lia |].
  vm_compute. congruence.
Defined.

(** X8: the safe integers from 0 on that fail the guard of the
    decoder, [2^46 - 1 < v / 128 + v % 128], which are some of those
    above [2^53 - 2^14] and include [2^53 - 1], are written by
    [writeVarint2] and then refused by [readVarint2]: it throws
    "Number exceeds 2^53-1" with the offset behind the varint. *)
Theorem varint2_decoder_refuses_what_is_written (dst : list Z) (v off : Z) :
  0 ≤ v ≤ 2^53 - 1 → 2^46 - 1 < v / 128 + v mod 128 →
  0 ≤ off → off + encoding.sizeVarint2 v ≤ encoding.len dst →
  ∃ dst',
    encoding.writeVarint2 dst v off = Ok (dst', off + encoding.sizeVarint2 v) ∧
    encoding.readVarint2 dst' off
    = Throw (EncodingError (VNum (off + encoding.sizeVarint2 v))
               (VStr "Number exceeds 2^53-1")).
Proof.
  intros Hv Hguard H0 Hfit.
  destruct (writeVarint2_digits dst v off ltac:(lia) H0 Hfit)
    as (body & dst' & Hw & Hn & _ & Hdrop & Hcont & Hacc).
  exists dst'. split; [done|].
  unfold encoding.readVarint2. rewrite decide_False by lia. rewrite Hdrop.
  pose proof (Z.mod_pos_bound v 128 ltac:(lia)).
  rewrite readVarint2_loop_refuses; [|done..| |lia].
  - unfold exceeds. rewrite Hn. do 3 f_equal. lia.
  - rewrite Hacc. Z.to_euclidean_division_equations; lia.
Qed.

Lemma varint2_decoder_refuses_what_is_written_witness :
  ∃ dst',
    encoding.writeVarint2 (replicate 8 0) (2^53 - 1) 0
    = Ok (dst', 0 + encoding.sizeVarint2 (2^53 - 1)) ∧
    encoding.readVarint2 dst' 0
    = Throw (EncodingError (VNum (0 + encoding.sizeVarint2 (2^53 - 1)))
               (VStr "Number exceeds 2^53-1")).
Proof.
  apply (varint2_decoder_refuses_what_is_written (replicate 8 0) (2^53 - 1) 0);
    [lia | vm_compute; reflexivity | lia | vm_compute; congruence].
Defined.

(** ** The width dispatchers and the wide reads, in general *)

(** X9: at every width from 1 to 8 bytes, a value that fits the width
    and is a safe integer is read back by [readU] after [writeU] and by
    [readUBE] after [writeUBE] (unsigned), and by [readIBE] after
    [writeIBE] and, at every width but 4, by [readI] after [writeI]
    (signed). *)
Theorem dispatch_roundtrip (dst : list Z) (off len v : Z) :
  1 ≤ len ≤ 8 → 0 ≤ off → off + len ≤ encoding.len dst →
  (unsigned_fits len v →
   (r ← encoding.writeU dst v off len; encoding.readU r.1 off len) = Ok (Some v) ∧
   (r ← encoding.writeUBE dst v off len; encoding.readUBE r.1 off len) = Ok (Some v)) ∧
  (signed_fits len v →
   (r ← encoding.writeIBE dst v off len; encoding.readIBE r.1 off len) = Ok (Some v) ∧
   (len ≠ 4 →
    (r ← encoding.writeI dst v off len; encoding.readI r.1 off len) = Ok (Some v))).
Proof.
  intros Hlen H0 Hfit. split; intros Hv; split.
  - by apply roundtrip_U.
  - by apply roundtrip_UBE.
  - by apply roundtrip_IBE.
  - intros H4. by apply roundtrip_I.
Qed.

Lemma dispatch_roundtrip_witness :
  let dst := [0; 0; 0; 0; 0; 0; 0] in
  let v := 2^47 + 5 in
  (r ← encoding.writeU dst v 1 6; encoding.readU r.1 1 6) = Ok (Some v) ∧
  (r ← encoding.writeUBE dst v 1 6; encoding.readUBE r.1 1 6) = Ok (Some v) ∧
  (r ← encoding.writeIBE dst (5 - v) 1 6; encoding.readIBE r.1 1 6) = Ok (Some (5 - v)) ∧
  (r ← encoding.writeI dst (5 - v) 1 6; encoding.readI r.1 1 6) = Ok (Some (5 - v)).
Proof.
  cbv zeta.
  destruct (dispatch_roundtrip [0; 0; 0; 0; 0; 0; 0] 1 6 (2^47 + 5)) as [HU _];
    [lia | lia | vm_compute; congruence |].
  destruct (dispatch_roundtrip [0; 0; 0; 0; 0; 0; 0] 1 6 (5 - (2^47 + 5))) as [_ HI];
    [lia | lia | vm_compute; congruence |].
  destruct HU as [H1 H2]; [unfold unsigned_fits; change (8 * 6) with 48; lia|].
  destruct HI as [H3 H4]; [unfold signed_fits; change (8 * 6 - 1) with 47; lia|].
  split; [exact H1|]. split; [exact H2|]. split; [exact H3|]. apply H4. lia.
Defined.

(** X10: on a buffer of bytes with the 8 (or 7) bytes at [off] in
    bounds, [readU64], [readU64BE], [readU56] and [readU56BE] return
    the little-endian (or big-endian) value of those bytes when it is
    at most 2^53 - 1, and otherwise throw an [EncodingError] with the
    offset [off] and the reason "Number exceeds 2^53-1". *)
Theorem wide_unsigned_reads (data : list Z) (off : Z) :
  0 ≤ off → Forall byte data →
  (off + 8 ≤ encoding.len data →
   encoding.readU64 data off
   = read_unsigned (le_value (Buffer.range data off (off + 8))) off ∧
   encoding.readU64BE data off
   = read_unsigned (be_value (Buffer.range data off (off + 8))) off) ∧
  (off + 7 ≤ encoding.len data →
   encoding.readU56 data off
   = read_unsigned (le_value (Buffer.range data off (off + 7))) off ∧
   encoding.readU56BE data off
   = read_unsigned (be_value (Buffer.range data off (off + 7))) off).
Proof.
  intros H0 Hb. split; intros Hfit; split.
  - by apply readU64_spec.
  - by apply readU64BE_spec.
  - by apply readU56_spec.
  - by apply readU56BE_spec.
Qed.

Lemma wide_unsigned_reads_witness :
  let data := [1; 0; 0; 0; 0; 0; 0; 0x20; 0] in
  encoding.readU64 data 1 = Throw (exceeds 1) ∧
  encoding.readU64BE data 1 = Ok (Some 0x2000) ∧
  encoding.readU56 data 1 = Throw (exceeds 1) ∧
  encoding.readU56BE data 1 = Ok (Some 0x20).
Proof.
  cbv zeta.
  destruct (wide_unsigned_reads [1; 0; 0; 0; 0; 0; 0; 0x20; 0] 1) as [H8 H7];
    [lia | repeat constructor; unfold byte; lia |].
  destruct H8 as [H1 H2]; [vm_compute; congruence|].
  destruct H7 as [H3 H4]; [vm_compute; congruence|].
  split; [exact H1|]. split; [exact H2|]. split; [exact H3|]. exact H4.
Defined.

(** X11: with the same bounds, [readI64], [readI64BE], [readI56] and
    [readI56BE] return the two's complement value of the bytes when it
    is a safe integer (between -(2^53 - 1) and 2^53 - 1), and otherwise
    throw; the error then has the message in the place of the offset. *)
Theorem wide_signed_reads (data : list Z) (off : Z) :
  0 ≤ off → Forall byte data →
  (off + 8 ≤ encoding.len data →
   encoding.readI64 data off
   = read_signed (twos 8 (le_value (Buffer.range data off (off + 8)))) ∧
   encoding.readI64BE data off
   = read_signed (twos 8 (be_value (Buffer.range data off (off + 8))))) ∧
  (off + 7 ≤ encoding.len data →
   encoding.readI56 data off
   = read_signed (twos 7 (le_value (Buffer.range data off (off + 7)))) ∧
   encoding.readI56BE data off
   = read_signed (twos 7 (be_value (Buffer.range data off (off + 7))))).
Proof.
  intros H0 Hb. split; intros Hfit; split.
  - by apply readI64_spec.
  - by apply readI64BE_spec.
  - by apply readI56_spec.
  - by apply readI56BE_spec.
Qed.

Lemma wide_signed_reads_witness :
  let data := [0xfe; 0xff; 0xff; 0xff; 0xff; 0xff; 0xff; 0xff] in
  encoding.readI64 data 0 = Ok (Some (-2)) ∧
  encoding.readI64BE data 0 = Throw exceeds_no_offset ∧
  encoding.readI56 data 0 = Ok (Some (-2)) ∧
  encoding.readI56BE data 0 = Ok (Some (- 2^48 - 1)).
Proof.
  cbv zeta.
  destruct (wide_signed_reads [0xfe; 0xff; 0xff; 0xff; 0xff; 0xff; 0xff; 0xff] 0)
    as [H8 H7];
    [lia | repeat constructor; unfold byte; lia |].
  destruct H8 as [H1 H2]; [vm_compute; congruence|].
  destruct H7 as [H3 H4]; [vm_compute; congruence|].
  split; [exact H1|]. split; [exact H2|]. split; [exact H3|]. exact H4.
Defined.

(** ** The compact varint: what is accepted is what is written *)

Lemma le_bytes_le_value (l : list Z) :
  Forall byte l → le_bytes (length l) (le_value l) = l.
Proof.
  induction 1 as [|b l Hb Hl IH]; [done|].
  simpl length. simpl le_bytes. simpl le_value. unfold byte in Hb.
  change (2^8) with 256. set (x := le_value l) in *. f_equal.
  - symmetry. apply (Z.mod_unique_pos _ _ x); lia.
  - rewrite <- IH at 2. f_equal. symmetry. apply (Z.div_unique_pos _ _ _ b); lia.
Qed.

Lemma stored_at_range (data : list Z) (off n : Z) :
  0 ≤ off → 0 ≤ n → off + n ≤ encoding.len data →
  stored_at data off (Buffer.range data off (off + n)) = data.
Proof.
  intros H0 Hn Hfit.
  destruct (buffer_split data off (Z.to_nat n)) as (pre & chunk & post & -> & <- & Hlen);
    [done | lia |].
  rewrite range_at by (unfold encoding.len; lia).
  by apply stored_at_chunk.
Qed.

Lemma range_cons (data : list Z) (off n m : Z) :
  0 ≤ off → 0 ≤ n → encoding.get data off = Some m →
  Buffer.range data off (off + 1 + n) = m :: Buffer.range data (off + 1) (off + 1 + n).
Proof.
  intros H0 Hn Hget. unfold encoding.get in Hget. rewrite decide_True in Hget by done.
  unfold Buffer.range.
  rewrite (drop_S _ _ _ Hget).
  replace (Z.to_nat (off + 1 + n) - Z.to_nat off)%nat
    with (S (Z.to_nat (off + 1 + n) - Z.to_nat (off + 1))) by lia.
  simpl. do 3 f_equal. lia.
Qed.

(** X12: whatever [readVarint] accepts on a buffer of bytes is a number
    from 0 to 2^53 - 1 in the form [writeVarint] gives it: the size is
    [sizeVarint] of the value, and writing the value back at the same
    offset leaves the buffer as it is. *)
Theorem readVarint_accepts_only_what_writeVarint_writes
    (data : list Z) (off : Z) (vr : encoding.Varint) :
  Forall byte data → 0 ≤ off →
  encoding.readVarint data off = Ok vr →
  ∃ v, encoding.value vr = Some v ∧ 0 ≤ v ≤ 2^53 - 1 ∧
       encoding.size vr = encoding.sizeVarint v ∧
       encoding.writeVarint data v off = (data, off + encoding.size vr).
Proof.
  intros Hb H0 Hread.
  destruct (encoding.get data off) as [m|] eqn:Hget.
  2:{ unfold encoding.readVarint, encoding.check in Hread.
      unfold encoding.get in Hget. rewrite decide_True in Hget by done.
      apply lookup_ge_None in Hget.
      rewrite (bool_decide_eq_false_2 (off < encoding.len data)) in Hread
        by (unfold encoding.len; lia).
      discriminate. }
  assert (byte m) as Hm.
  { unfold encoding.get in Hget. rewrite decide_True in Hget by lia.
    eapply Forall_lookup_1 in Hb; done. }
  destruct (decide (off + 1 + form_bytes m ≤ encoding.len data)) as [Hin|Hout].
  2:{ exfalso. unfold encoding.readVarint, encoding.check in Hread.
      rewrite Hget, !bool_decide_Some_eq in Hread.
      unfold form_bytes in Hout.
      repeat (case_bool_decide; simpl in Hread; try discriminate; try lia). }
  assert (in_bounds data off m) as Hbounds by (repeat split; [lia|done..]).
  rewrite (readVarint_in_bounds data off m Hb Hbounds) in Hread.
  set (k := form_bytes m) in *.
  assert (0 ≤ k) as Hk by (unfold k, form_bytes; repeat case_bool_decide; lia).
  set (code := Buffer.range data (off + 1) (off + 1 + k)) in *.
  assert (Forall byte code) as Hcode by (by apply Forall_byte_range).
  assert (encoding.len code = k) as Hlen by (unfold code; rewrite range_length; lia).
  pose proof (le_value_bound code Hcode) as Hbound. rewrite Hlen in Hbound.
  set (v := form_value data off m) in *.
  destruct (bool_decide_reflect (v < form_least m)) as [|Hleast]; [discriminate|].
  destruct (bool_decide_reflect (v ≤ 2^53 - 1)) as [Hsafe|]; [|discriminate].
  injection Hread as <-. cbn [encoding.value encoding.size].
  assert (0 ≤ v) as Hv0.
  { unfold v, form_value. fold k code. unfold byte in Hm. case_bool_decide; lia. }
  assert (encoding.sizeVarint v = 1 + k ∧ varint_table v = m :: code) as [Hsize Htable].
  { unfold v, form_value, form_least, encoding.sizeVarint, varint_table in *.
    fold k code in Hleast, Hsafe, Hv0 |- *.
    pose proof (le_bytes_le_value code Hcode) as Hle.
    unfold encoding.len in Hlen.
    unfold k, form_bytes, byte in *.
    repeat (case_bool_decide; try lia); simpl in Hbound;
      repeat (case_bool_decide; try lia); subst;
      (split; [reflexivity|]); try (f_equal; rewrite <- Hle at 2; f_equal; lia).
    destruct code; [done|discriminate]. }
  exists v. split; [done|]. split; [lia|]. split; [lia|].
  rewrite writeVarint_stores by (lia || done). rewrite Htable, Hsize.
  f_equal. unfold code. rewrite <- (range_cons data off k m) by done.
  replace (off + 1 + k) with (off + (1 + k)) by lia.
  apply stored_at_range; lia.
Qed.

Lemma readVarint_accepts_only_what_writeVarint_writes_witness :
  ∃ v, Some 0x0201 = Some v ∧ 0 ≤ v ≤ 2^53 - 1 ∧
       3 = encoding.sizeVarint v ∧
       encoding.writeVarint [7; 0xfd; 1; 2] v 1 = ([7; 0xfd; 1; 2], 1 + 3).
Proof.
  apply (readVarint_accepts_only_what_writeVarint_writes [7; 0xfd; 1; 2] 1
           (encoding.mkVarint 3 (Some 0x0201))).
  - repeat constructor; unfold byte; lia.
  - lia.
  - reflexivity.
Defined.

(** ** Checksums: written by the static writer, verified by the reader *)

Lemma inserts_stored_at (dst : list Z) (off : Z) (code : list Z) :
  0 ≤ off → off + encoding.len code ≤ encoding.len dst →
  list_inserts (Z.to_nat off) code dst = stored_at dst off code.
Proof.
  intros H0 Hfit.
  destruct (buffer_split dst off (length code)) as (pre & chunk & post & -> & <- & Hlen);
    [done | unfold encoding.len in *; lia |].
  rewrite stored_at_chunk by done. unfold encoding.len. rewrite Nat2Z.id.
  replace (length pre) with (length pre + 0)%nat at 1 by lia.
  rewrite list_inserts_app_r. f_equal. by apply list_inserts_0_r.
Qed.

Lemma range_stored_at (dst : list Z) (off : Z) (code : list Z) :
  0 ≤ off → off + encoding.len code ≤ encoding.len dst →
  Buffer.range (stored_at dst off code) off (off + encoding.len code) = code ∧
  (∀ a b, 0 ≤ a → b ≤ off →
     Buffer.range (stored_at dst off code) a b = Buffer.range dst a b).
Proof.
  intros H0 Hfit.
  destruct (buffer_split dst off (length code)) as (pre & chunk & post & -> & <- & Hlen);
    [done | unfold encoding.len in *; lia |].
  rewrite stored_at_chunk by done. split; [by apply range_at|].
  intros a b Ha Hb. unfold Buffer.range, encoding.len in *.
  destruct (decide (b ≤ a)) as [|Hab].
  { by replace (Z.to_nat b - Z.to_nat a)%nat with 0%nat by lia. }
  rewrite !drop_app_le by lia. rewrite !take_app_le; [done|..];
    rewrite length_drop; lia.
Qed.

(** The span that a checksum covers begins at the last [start()], or
    at 0 when no span is open. *)
Definition span_start (r : BufferReader.t) : Z :=
  default 0 (head (BufferReader.stack r)).

Lemma verifyChecksum_outcome (hash : list Z → list Z) σ r :
  Buffer.valid σ (BufferReader.data r) →
  0 ≤ span_start r ≤ BufferReader.offset r →
  BufferReader.offset r + 4 ≤ BufferReader.data_length r →
  let data := Buffer.contents σ (BufferReader.data r) in
  let off := BufferReader.offset r in
  let chk := encoding.readU32 (hash (Buffer.range data (span_start r) off)) 0 in
  let checksum := encoding.readU32 data off in
  BufferReader.verifyChecksum hash (σ, r)
  = if BufferReader.same_number chk checksum
    then (Ok checksum, (σ, advance r 4))
    else (Throw (EncodingError (VNum (off + 4)) (VStr "Checksum mismatch.")),
          (σ, advance r 4)).
Proof.
  intros Hv Hs Hfit data off chk checksum.
  unfold BufferReader.verifyChecksum, BufferReader.createChecksum. run_reader.
  assert ((if bool_decide (0 < length (BufferReader.stack r))%nat
           then default 0 (head (BufferReader.stack r)) else 0) = span_start r) as ->.
  { unfold span_start. destruct (BufferReader.stack r); [done|].
    by rewrite bool_decide_eq_true_2 by (simpl; lia). }
  rewrite slice_contents by (unfold BufferReader.data_length in *; lia).
  fold data off chk.
  unfold BufferReader.readU32. rewrite fixed_outcome.
  rewrite bool_decide_eq_true_2 by done. unfold BufferReader.pure_read.
  fold data off checksum. run_reader.
  by destruct (BufferReader.same_number chk checksum).
Qed.

Lemma le_value_inj (l1 l2 : list Z) :
  Forall byte l1 → Forall byte l2 → length l1 = length l2 →
  le_value l1 = le_value l2 → l1 = l2.
Proof.
  intros H1 H2 Hlen Hval.
  rewrite <- (le_bytes_le_value l1 H1), <- (le_bytes_le_value l2 H2).
  by rewrite Hlen, Hval.
Qed.

(** X13: [verifyChecksum] on a reader with four bytes left compares
    them with the first four bytes of the hash of the span read so far
    (from the last [start()], or from 0).  When they are the same it
    returns them as a little-endian number; when they differ it throws
    "Checksum mismatch.".  In both cases the offset has moved past the
    four bytes, and the error carries that offset. *)
Theorem verifyChecksum_compares_four_bytes
    (hash : list Z → list Z) (σ : Buffer.store) (r : BufferReader.t) :
  let data := Buffer.contents σ (BufferReader.data r) in
  let off := BufferReader.offset r in
  let digest := hash (Buffer.range data (span_start r) off) in
  let given := Buffer.range data off (off + 4) in
  Buffer.valid σ (BufferReader.data r) →
  0 ≤ span_start r ≤ off →
  off + 4 ≤ BufferReader.data_length r →
  Forall byte data → Forall byte digest → 4 ≤ encoding.len digest →
  BufferReader.verifyChecksum hash (σ, r)
  = if bool_decide (given = take 4 digest)
    then (Ok (Some (le_value given)), (σ, advance r 4))
    else (Throw (EncodingError (VNum (off + 4)) (VStr "Checksum mismatch.")),
          (σ, advance r 4)).
Proof.
  intros data off digest given Hv Hs Hfit Hb Hd Hlen.
  rewrite verifyChecksum_outcome by done. cbv zeta. fold data off digest.
  pose proof (contents_valid_length σ _ Hv) as Hl. fold data in Hl.
  unfold BufferReader.data_length in Hfit.
  rewrite (readU32_spec data off) by (unfold encoding.len; lia).
  rewrite (readU32_spec digest 0) by lia. fold given.
  assert (Buffer.range digest 0 (0 + 4) = take 4 digest) as -> by reflexivity.
  unfold BufferReader.same_number.
  assert (length given = 4%nat) as Hg.
  { unfold given, Buffer.range. rewrite length_take, length_drop. lia. }
  assert (length (take 4 digest) = 4%nat) as Ht.
  { rewrite length_take. unfold encoding.len in Hlen. lia. }
  destruct (bool_decide_reflect (given = take 4 digest)) as [->|Hne].
  - by rewrite bool_decide_eq_true_2.
  - rewrite bool_decide_eq_false_2; [done|].
    intros Heq. apply Hne. symmetry. apply le_value_inj; try done.
    + by apply Forall_take.
    + by apply Forall_byte_range.
    + congruence.
Qed.

Lemma verifyChecksum_compares_four_bytes_witness :
  BufferReader.verifyChecksum (λ data, data ++ [1; 2; 3; 4])
    ([[9; 1; 2; 3]], BufferReader.mk (Buffer.mk 0 0 4) 0 false [])
  = (Throw (EncodingError (VNum 4) (VStr "Checksum mismatch.")),
     ([[9; 1; 2; 3]], BufferReader.mk (Buffer.mk 0 0 4) 4 false [])).
Proof.
  refine (eq_trans
    (verifyChecksum_compares_four_bytes (λ data, data ++ [1; 2; 3; 4])
       [[9; 1; 2; 3]] (BufferReader.mk (Buffer.mk 0 0 4) 0 false []) _ _ _ _ _ _) _).
  - exists [9; 1; 2; 3]. split; [reflexivity | simpl; lia].
  - vm_compute. split; congruence.
  - vm_compute. congruence.
  - repeat constructor; unfold byte; lia.
  - repeat constructor; unfold byte; lia.
  - vm_compute. congruence.
  - reflexivity.
Defined.

(** X14: a checksum that the static writer writes is one the reader
    verifies.  After [writeChecksum(hash)] on a writer with room for
    the four bytes, a reader on the written bytes that stands where the
    checksum begins, with no span open, returns from
    [verifyChecksum(hash)] with the checksum and stands behind it. *)
Theorem written_checksum_verifies
    (hash : list Z → list Z) (w : StaticWriter.t) :
  let off := StaticWriter.offset w in
  let digest := hash (Buffer.range (StaticWriter.data w) 0 off) in
  0 ≤ off → off + 4 ≤ encoding.len (StaticWriter.data w) →
  Forall byte digest → 4 ≤ encoding.len digest →
  ∃ data',
    StaticWriter.writeChecksum hash w = (Ok tt, StaticWriter.mk data' (off + 4)) ∧
    ∀ (σ : Buffer.store) (r : BufferReader.t),
      Buffer.valid σ (BufferReader.data r) →
      Buffer.contents σ (BufferReader.data r) = data' →
      BufferReader.offset r = off →
      BufferReader.stack r = [] →
      BufferReader.verifyChecksum hash (σ, r)
      = (Ok (Some (le_value (take 4 digest))), (σ, advance r 4)).
Proof.
  intros off digest H0 Hfit Hd Hlen.
  assert (encoding.len (take 4 digest) = 4) as Ht.
  { unfold encoding.len in *. rewrite length_take. lia. }
  exists (stored_at (StaticWriter.data w) off (take 4 digest)). split.
  - unfold StaticWriter.writeChecksum, Buffer.blit. run_method. fold off digest.
    rewrite decide_True by (unfold encoding.len in *; lia).
    by rewrite inserts_stored_at by lia.
  - intros σ r Hv Hdata Hoff Hstack.
    destruct (range_stored_at (StaticWriter.data w) off (take 4 digest))
      as [Hcode Hpre]; [lia..|].
    pose proof (contents_valid_length σ _ Hv) as Hl. rewrite Hdata in Hl.
    assert (encoding.len (stored_at (StaticWriter.data w) off (take 4 digest))
            = encoding.len (StaticWriter.data w)) as Hsame.
    { rewrite <- inserts_stored_at by lia. unfold encoding.len.
      by rewrite length_inserts. }
    assert (span_start r = 0) as Hstart by (unfold span_start; by rewrite Hstack).
    rewrite verifyChecksum_outcome;
      [|done|lia|unfold BufferReader.data_length, encoding.len in *; lia].
    cbv zeta. rewrite Hdata, Hoff, Hstart.
    rewrite Hpre by lia. fold digest.
    rewrite (readU32_spec digest 0) by lia.
    rewrite readU32_spec by lia.
    assert (Buffer.range digest 0 (0 + 4) = take 4 digest) as -> by reflexivity.
    rewrite Ht in Hcode. rewrite Hcode.
    unfold BufferReader.same_number. by rewrite bool_decide_eq_true_2.
Qed.

Lemma written_checksum_verifies_witness :
  let hash := λ data : list Z, reverse data ++ [0; 0; 0; 0] in
  ∃ data',
    StaticWriter.writeChecksum hash (StaticWriter.mk [1; 2; 9; 9; 9; 9] 2)
    = (Ok tt, StaticWriter.mk data' (2 + 4)) ∧
    ∀ (σ : Buffer.store) (r : BufferReader.t),
      Buffer.valid σ (BufferReader.data r) →
      Buffer.contents σ (BufferReader.data r) = data' →
      BufferReader.offset r = 2 →
      BufferReader.stack r = [] →
      BufferReader.verifyChecksum hash (σ, r)
      = (Ok (Some (le_value (take 4 (hash [1; 2])))), (σ, advance r 4)).
Proof.
  cbv zeta.
  apply (written_checksum_verifies (λ data : list Z, reverse data ++ [0; 0; 0; 0])
           (StaticWriter.mk [1; 2; 9; 9; 9; 9] 2)).
  - simpl. lia.
  - vm_compute. congruence.
  - repeat constructor; unfold byte; lia.
  - vm_compute. congruence.
Defined.

(** ** What the static writer writes, the reader reads *)

Lemma roundtrip_I32 (dst : list Z) (off v : Z) :
  0 ≤ off → off + 4 ≤ encoding.len dst → signed_fits 4 v →
  (r ← Ok (encoding.writeI32 dst v off); Ok (encoding.readI32 r.1 off))
  = Ok (Some v).
Proof. intros H0 H1 [Hv Hs]. codec_at dst off 4%nat. Qed.

(** A write and a read of the codec that undo each other on the
    values that fit. *)
Definition inverse_at (fits : Z → Prop) (n : Z)
    (write : list Z → Z → Z → list Z * Z)
    (read : list Z → Z → result num) : Prop :=
  ∀ dst v off,
    fits v → 0 ≤ off → off + n ≤ encoding.len dst →
    read (write dst v off).1 off = Ok (Some v).

Ltac by_dispatch lemma n :=
  intros dst v off Hv H0 Hfit;
  pose proof (lemma dst off n v ltac:(lia) H0 Hfit Hv) as H;
  exact H.

Lemma inverse_U8 :
  inverse_at (unsigned_fits 1) 1 encoding.writeU8 (BufferReader.pure_read encoding.readU8).
Proof. by_dispatch roundtrip_U 1. Qed.
Lemma inverse_U16 :
  inverse_at (unsigned_fits 2) 2 encoding.writeU16 (BufferReader.pure_read encoding.readU16).
Proof. by_dispatch roundtrip_U 2. Qed.
Lemma inverse_U32 :
  inverse_at (unsigned_fits 4) 4 encoding.writeU32 (BufferReader.pure_read encoding.readU32).
Proof. by_dispatch roundtrip_U 4. Qed.
Lemma inverse_U64 :
  inverse_at (unsigned_fits 8) 8 encoding.writeU64 encoding.readU64.
Proof. by_dispatch roundtrip_U 8. Qed.
Lemma inverse_U16BE :
  inverse_at (unsigned_fits 2) 2 encoding.writeU16BE (BufferReader.pure_read encoding.readU16BE).
Proof. by_dispatch roundtrip_UBE 2. Qed.
Lemma inverse_U32BE :
  inverse_at (unsigned_fits 4) 4 encoding.writeU32BE (BufferReader.pure_read encoding.readU32BE).
Proof. by_dispatch roundtrip_UBE 4. Qed.
Lemma inverse_U64BE :
  inverse_at (unsigned_fits 8) 8 encoding.writeU64BE encoding.readU64BE.
Proof. by_dispatch roundtrip_UBE 8. Qed.
Lemma inverse_I8 :
  inverse_at (signed_fits 1) 1 encoding.writeI8 (BufferReader.pure_read encoding.readI8).
Proof. by_dispatch roundtrip_IBE 1. Qed.
Lemma inverse_I16 :
  inverse_at (signed_fits 2) 2 encoding.writeI16 (BufferReader.pure_read encoding.readI16).
Proof.
  intros dst v off Hv H0 Hfit.
  exact (roundtrip_I dst off 2 v ltac:(lia) ltac:(lia) H0 Hfit Hv).
Qed.
Lemma inverse_I32 :
  inverse_at (signed_fits 4) 4 encoding.writeI32 (BufferReader.pure_read encoding.readI32).
Proof. intros dst v off Hv H0 Hfit. by apply roundtrip_I32. Qed.
Lemma inverse_I64 :
  inverse_at (signed_fits 8) 8 encoding.writeI64 encoding.readI64.
Proof.
  intros dst v off Hv H0 Hfit.
  exact (roundtrip_I dst off 8 v ltac:(lia) ltac:(lia) H0 Hfit Hv).
Qed.
Lemma inverse_I16BE :
  inverse_at (signed_fits 2) 2 encoding.writeI16BE (BufferReader.pure_read encoding.readI16BE).
Proof. by_dispatch roundtrip_IBE 2. Qed.
Lemma inverse_I32BE :
  inverse_at (signed_fits 4) 4 encoding.writeI32BE (BufferReader.pure_read encoding.readI32BE).
Proof. by_dispatch roundtrip_IBE 4. Qed.
Lemma inverse_I64BE :
  inverse_at (signed_fits 8) 8 encoding.writeI64BE encoding.readI64BE.
Proof. by_dispatch roundtrip_IBE 8. Qed.

(** The read that undoes a write of a number, the number, and what
    makes it fit. *)
Definition read_of (o : Write.op) : option (BufferReader.op * Z * Prop) :=
  match o with
  | Write.U8 v => Some (BufferReader.ReadU8, v, unsigned_fits 1 v)
  | Write.U16 v => Some (BufferReader.ReadU16, v, unsigned_fits 2 v)
  | Write.U16BE v => Some (BufferReader.ReadU16BE, v, unsigned_fits 2 v)
  | Write.U32 v => Some (BufferReader.ReadU32, v, unsigned_fits 4 v)
  | Write.U32BE v => Some (BufferReader.ReadU32BE, v, unsigned_fits 4 v)
  | Write.U64 v => Some (BufferReader.ReadU64, v, unsigned_fits 8 v)
  | Write.U64BE v => Some (BufferReader.ReadU64BE, v, unsigned_fits 8 v)
  | Write.I8 v => Some (BufferReader.ReadI8, v, signed_fits 1 v)
  | Write.I16 v => Some (BufferReader.ReadI16, v, signed_fits 2 v)
  | Write.I16BE v => Some (BufferReader.ReadI16BE, v, signed_fits 2 v)
  | Write.I32 v => Some (BufferReader.ReadI32, v, signed_fits 4 v)
  | Write.I32BE v => Some (BufferReader.ReadI32BE, v, signed_fits 4 v)
  | Write.I64 v => Some (BufferReader.ReadI64, v, signed_fits 8 v)
  | Write.I64BE v => Some (BufferReader.ReadI64BE, v, signed_fits 8 v)
  | Write.Varint v => Some (BufferReader.ReadVarint, v, 0 ≤ v ≤ 2^53 - 1)
  | Write.Varint2 v =>
      Some (BufferReader.ReadVarint2, v, 0 ≤ v ∧ v / 128 + v mod 128 ≤ 2^46 - 1)
  | _ => None
  end.

(** A reader that stands at [off] on the bytes [data]. *)
Definition reads_at (σ : Buffer.store) (r : BufferReader.t)
    (data : list Z) (off : Z) : Prop :=
  Buffer.valid σ (BufferReader.data r) ∧
  Buffer.contents σ (BufferReader.data r) = data ∧
  BufferReader.offset r = off.

Lemma put_then_fixed (fits : Z → Prop) n write read v w :
  advances write n → inverse_at fits n write read →
  fits v → 0 ≤ StaticWriter.offset w →
  StaticWriter.offset w + n ≤ encoding.len (StaticWriter.data w) →
  ∃ data',
    StaticWriter.put write v w
    = (Ok tt, StaticWriter.mk data' (StaticWriter.offset w + n)) ∧
    ∀ σ r, reads_at σ r data' (StaticWriter.offset w) →
      BufferReader.fixed n read (σ, r) = (Ok (Some v), (σ, advance r n)).
Proof.
  intros Hadv Hinv Hv H0 Hfit.
  destruct (Hadv (StaticWriter.data w) v (StaticWriter.offset w)) as [Hoff Hlen].
  specialize (Hinv (StaticWriter.data w) v (StaticWriter.offset w) Hv H0 Hfit).
  exists (write (StaticWriter.data w) v (StaticWriter.offset w)).1. split.
  - unfold StaticWriter.put. run_method.
    destruct (write _ _ _) as [d o]. cbn [fst snd] in *. by subst o.
  - intros σ r (Hvalid & Hdata & Hr). rewrite fixed_outcome.
    pose proof (contents_valid_length σ _ Hvalid) as Hl.
    rewrite Hdata in Hl. unfold BufferReader.data_length, encoding.len in *.
    rewrite bool_decide_eq_true_2 by lia.
    by rewrite Hdata, Hr, Hinv.
Qed.

(** X15: a number written by the static writer is read back by the
    reader.  For each fixed-width integer write and for the two varint
    writes, with a value that fits and room in the buffer, the write
    returns; and a reader on the written bytes that stands where the
    write began returns the value from the read of the same name and
    stands where the writer stands. *)
Theorem reader_reads_back_numbers
    (byteLength : string → option string → Z)
    (encode : string → option string → list Z)
    (toString : string → list Z → string)
    (readU64N readU64BEN readI64N readI64BEN : list Z → Z → result Z)
    (o : Write.op) (ro : BufferReader.op) (v : Z) (fits : Prop)
    (w : StaticWriter.t) :
  read_of o = Some (ro, v, fits) → fits →
  Forall byte (StaticWriter.data w) →
  0 ≤ StaticWriter.offset w →
  StaticWriter.offset w + grows byteLength o ≤ encoding.len (StaticWriter.data w) →
  ∃ data',
    StaticWriter.exec byteLength encode o w
    = (Ok tt, StaticWriter.mk data' (StaticWriter.offset w + grows byteLength o)) ∧
    ∀ σ r, reads_at σ r data' (StaticWriter.offset w) →
      BufferReader.exec toString readU64N readU64BEN readI64N readI64BEN ro (σ, r)
      = (Ok (BufferReader.RNum (Some v)), (σ, advance r (grows byteLength o))).
Proof.
  intros Hro Hv Hb H0 Hfit.
  assert (∀ (fits' : Z → Prop) n write (read : list Z → Z → result num),
    advances write n → inverse_at fits' n write read → fits' v →
    StaticWriter.offset w + n ≤ encoding.len (StaticWriter.data w) →
    ∃ data',
      StaticWriter.put write v w
      = (Ok tt, StaticWriter.mk data' (StaticWriter.offset w + n)) ∧
      ∀ σ r, reads_at σ r data' (StaticWriter.offset w) →
        (BufferReader.RNum <$> BufferReader.fixed n read) (σ, r)
        = (Ok (BufferReader.RNum (Some v)), (σ, advance r n))) as Hfixed.
  { intros fits' n write read Hadv Hinv Hv' Hroom.
    destruct (put_then_fixed fits' n write read v w Hadv Hinv Hv' H0 Hroom)
      as (data' & Hput & Hread).
    exists data'. split; [done|]. intros σ r Hr. run_reader. by rewrite (Hread σ r Hr). }
  destruct o; try discriminate Hro; injection Hro as <- <- <-;
    unfold grows in *; cbn in Hfit |- *.
  - eapply Hfixed; [apply advances_writeU8 | apply inverse_U8 | exact Hv | done].
  - eapply Hfixed; [apply advances_writeU16 | apply inverse_U16 | exact Hv | done].
  - eapply Hfixed; [apply advances_writeU16BE | apply inverse_U16BE | exact Hv | done].
  - eapply Hfixed; [apply advances_writeU32 | apply inverse_U32 | exact Hv | done].
  - eapply Hfixed; [apply advances_writeU32BE | apply inverse_U32BE | exact Hv | done].
  - eapply Hfixed; [apply (advances_write64 false) | apply inverse_U64 | exact Hv | done].
  - eapply Hfixed; [apply (advances_write64 true) | apply inverse_U64BE | exact Hv | done].
  - eapply Hfixed; [apply advances_writeI8 | apply inverse_I8 | exact Hv | done].
  - eapply Hfixed; [apply advances_writeI16 | apply inverse_I16 | exact Hv | done].
  - eapply Hfixed; [apply advances_writeI16BE | apply inverse_I16BE | exact Hv | done].
  - eapply Hfixed; [apply advances_writeI32 | apply inverse_I32 | exact Hv | done].
  - eapply Hfixed; [apply advances_writeI32BE | apply inverse_I32BE | exact Hv | done].
  - eapply Hfixed; [apply (advances_write64 false) | apply inverse_I64 | exact Hv | done].
  - eapply Hfixed; [apply (advances_write64 true) | apply inverse_I64BE | exact Hv | done].
  - (* writeVarint, readVarint *)
    change (SizeWriter.offset _) with (0 + encoding.sizeVarint value0) in *.
    rewrite Z.add_0_l in *.
    exists (stored_at (StaticWriter.data w) (StaticWriter.offset w) (varint_table value0)).
    split.
    + unfold StaticWriter.writeVarint, StaticWriter.put. run_method.
      by rewrite writeVarint_stores by done.
    + intros σ r (Hvalid & Hdata & Hr). run_reader.
      rewrite readVarint_outcome, Hdata, Hr.
      by rewrite readVarint_of_table by done.
  - (* writeVarint2, readVarint2 *)
    change (SizeWriter.offset _) with (0 + encoding.sizeVarint2 value0) in *.
    rewrite Z.add_0_l in *. destruct Hv as [Hv Hguard].
    destruct (writeVarint2_digits (StaticWriter.data w) value0 (StaticWriter.offset w)
                Hv H0 Hfit) as (body & data' & Hw & Hn & _ & Hdrop & Hcont & Hacc).
    exists data'. split.
    + unfold StaticWriter.writeVarint2. run_method. by rewrite Hw.
    + intros σ r (Hvalid & Hdata & Hr). run_reader.
      rewrite readVarint2_outcome, Hdata, Hr.
      unfold encoding.readVarint2. rewrite decide_False by lia. rewrite Hdrop.
      pose proof (Z.mod_pos_bound value0 128 ltac:(lia)).
      rewrite readVarint2_loop_decodes; [|done..|lia].
      rewrite Hacc, Hn. cbn.
      replace (value0 / 128 * 128 + value0 mod 128) with value0
        by (Z.to_euclidean_division_equations; lia).
      do 4 f_equal; lia.
Qed.

Lemma reader_reads_back_numbers_witness :
  ∃ data',
    StaticWriter.exec (λ _ _, 0) (λ _ _, []) (Write.I32 (-2)) (StaticWriter.mk [7; 0; 0; 0; 0] 1)
    = (Ok tt, StaticWriter.mk data' (1 + 4)) ∧
    ∀ σ r, reads_at σ r data' 1 →
      BufferReader.exec latin1 read64N read64N read64N read64N BufferReader.ReadI32 (σ, r)
      = (Ok (BufferReader.RNum (Some (-2))), (σ, advance r 4)).
Proof.
  apply (reader_reads_back_numbers (λ _ _, 0) (λ _ _, []) latin1
           read64N read64N read64N read64N (Write.I32 (-2)) BufferReader.ReadI32 (-2)
           (signed_fits 4 (-2)) (StaticWriter.mk [7; 0; 0; 0; 0] 1)).
  - reflexivity.
  - unfold signed_fits. change (8 * 4 - 1) with 31. lia.
  - repeat constructor; unfold byte; lia.
  - simpl. lia.
  - vm_compute. congruence.
Defined.

Lemma stored_at_nil (dst : list Z) (off : Z) : stored_at dst off [] = dst.
Proof.
  unfold stored_at, encoding.len. simpl.
  rewrite Z.add_0_r. apply take_drop.
Qed.

Lemma Forall_byte_stored_at (dst : list Z) (off : Z) (code : list Z) :
  Forall byte dst → Forall byte code → Forall byte (stored_at dst off code).
Proof.
  intros Hd Hc. unfold stored_at.
  repeat apply Forall_app_2; [by apply Forall_take | done | by apply Forall_drop].
Qed.

(** Two stores side by side, in either order. *)
Lemma stored_at_twice (dst : list Z) (off : Z) (a b : list Z) :
  0 ≤ off → off + encoding.len a + encoding.len b ≤ encoding.len dst →
  stored_at (stored_at dst off a) (off + encoding.len a) b
  = stored_at (stored_at dst (off + encoding.len a) b) off a.
Proof.
  intros H0 Hfit.
  destruct (buffer_split dst off (length a + length b))
    as (pre & chunk & post & -> & <- & Hlen);
    [done | unfold encoding.len in *; lia |].
  rewrite <- (take_drop (length a) chunk).
  set (c1 := take (length a) chunk). set (c2 := drop (length a) chunk).
  assert (length c1 = length a) as H1 by (unfold c1; rewrite length_take; lia).
  assert (length c2 = length b) as H2 by (unfold c2; rewrite length_drop; lia).
  assert (encoding.len pre + encoding.len a = encoding.len (pre ++ c1)) as E1
    by (rewrite len_app; unfold encoding.len; lia).
  assert (encoding.len pre + encoding.len a = encoding.len (pre ++ a)) as E2
    by (rewrite len_app; unfold encoding.len; lia).
  rewrite <- (app_assoc c1 c2 post).
  rewrite (stored_at_chunk pre c1 (c2 ++ post) a) by done.
  rewrite (app_assoc pre a), E2, (stored_at_chunk (pre ++ a) c2 post b) by done.
  rewrite <- E2, E1, (app_assoc pre c1), (stored_at_chunk (pre ++ c1) c2 post b) by done.
  rewrite <- (app_assoc pre c1), (stored_at_chunk pre c1 (b ++ post) a) by done.
  by rewrite <- app_assoc.
Qed.

Lemma writeBytes_stores value w :
  0 ≤ StaticWriter.offset w →
  StaticWriter.offset w + encoding.len value ≤ encoding.len (StaticWriter.data w) →
  StaticWriter.writeBytes value w
  = (Ok tt, StaticWriter.mk (stored_at (StaticWriter.data w) (StaticWriter.offset w) value)
              (StaticWriter.offset w + encoding.len value)).
Proof.
  intros H0 Hfit. unfold StaticWriter.writeBytes. case_bool_decide as Hlen.
  - destruct value; [|discriminate]. rewrite stored_at_nil.
    destruct w. cbn. by rewrite Z.add_0_r.
  - unfold Buffer.blit. run_method.
    pose proof (len_nonneg value).
    rewrite decide_True by (unfold encoding.len in *; lia).
    by rewrite inserts_stored_at by lia.
Qed.

(** The buffer that [readBytes] returns holds the bytes asked for. *)
Lemma readBytes_contents σ r size zeroCopy :
  Buffer.valid σ (BufferReader.data r) →
  0 ≤ BufferReader.offset r → 0 ≤ size →
  BufferReader.offset r + size ≤ BufferReader.data_length r →
  ∃ ret σ',
    BufferReader.readBytes (Some size) zeroCopy (σ, r)
    = (Ok ret, (σ', advance r size)) ∧
    Buffer.contents σ' ret
    = Buffer.range (Buffer.contents σ (BufferReader.data r))
        (BufferReader.offset r) (BufferReader.offset r + size).
Proof.
  intros Hv H0 Hn Hfit. rewrite readBytes_outcome.
  rewrite !bool_decide_eq_true_2 by done.
  unfold BufferReader.data_length in Hfit.
  destruct (_ || _).
  - eexists _, _. split; [reflexivity|]. apply slice_contents; lia.
  - destruct (copied_spec σ r size (BufferReader.offset r) Hv H0 Hn Hfit) as (Hc & _).
    eexists _, _. split; [reflexivity|]. exact Hc.
Qed.

(** X16: bytes written by the static writer with their length are read
    back by the reader.  After [writeVarBytes(value)] on a writer with
    room, a reader on the written bytes that stands where the write
    began returns from [readVarBytes] a buffer that holds [value], in
    either mode, and stands where the writer stands. *)
Theorem reader_reads_back_bytes
    (value : list Z) (w : StaticWriter.t) (zeroCopy : bool) :
  let off := StaticWriter.offset w in
  let n := encoding.sizeVarint (encoding.len value) + encoding.len value in
  Forall byte value → Forall byte (StaticWriter.data w) →
  encoding.len value ≤ 2^53 - 1 →
  0 ≤ off → off + n ≤ encoding.len (StaticWriter.data w) →
  ∃ data',
    StaticWriter.writeVarBytes value w = (Ok tt, StaticWriter.mk data' (off + n)) ∧
    ∀ σ r, reads_at σ r data' off →
      ∃ ret σ',
        BufferReader.readVarBytes zeroCopy (σ, r) = (Ok ret, (σ', advance r n)) ∧
        Buffer.contents σ' ret = value.
Proof.
  cbv zeta. intros Hvalue Hb Hsafe H0 Hfit.
  pose proof (len_nonneg value) as Hlen. pose proof (sizeVarint_pos (encoding.len value)).
  assert (encoding.len (varint_table (encoding.len value))
          = encoding.sizeVarint (encoding.len value)) as Htable.
  { unfold varint_table, encoding.sizeVarint. repeat case_bool_decide; reflexivity. }
  remember (StaticWriter.offset w) as off eqn:Eoff.
  remember (encoding.sizeVarint (encoding.len value)) as k eqn:Ek.
  remember (varint_table (encoding.len value)) as table eqn:Et.
  remember (stored_at (StaticWriter.data w) off table) as data1 eqn:E1.
  assert (encoding.len data1 = encoding.len (StaticWriter.data w)) as Hlen1.
  { subst data1. rewrite <- inserts_stored_at by lia.
    unfold encoding.len. by rewrite length_inserts. }
  assert (encoding.len (stored_at data1 (off + k) value) = encoding.len data1) as Hlen2.
  { rewrite <- inserts_stored_at by lia. unfold encoding.len. by rewrite length_inserts. }
  exists (stored_at data1 (off + k) value). split.
  - unfold StaticWriter.writeVarBytes, StaticWriter.writeVarint, StaticWriter.put.
    unfold mbind at 1, method_bind at 1. run_method.
    rewrite writeVarint_stores by (done || lia). rewrite <- Eoff, <- Ek, <- Et, <- E1.
    rewrite writeBytes_stores by (cbn; lia).
    cbn [StaticWriter.data StaticWriter.offset]. by rewrite Z.add_assoc.
  - intros σ r (Hvalid & Hdata & Hr).
    pose proof (contents_valid_length σ _ Hvalid) as Hl. rewrite Hdata in Hl.
    unfold BufferReader.readVarBytes. unfold mbind at 1, method_bind at 1.
    rewrite readVarint_outcome, Hdata, Hr.
    pose proof Hdata as Hdata1. rewrite E1. rewrite <- Htable, stored_at_twice by lia. rewrite Htable.
    rewrite Et, Ek.
    rewrite readVarint_of_table; [|apply Forall_byte_stored_at; done|lia|lia|].
    2:{ rewrite <- inserts_stored_at by lia.
        unfold encoding.len in *. rewrite length_inserts. lia. }
    cbn [encoding.value encoding.size]. rewrite <- Ek.
    destruct (readBytes_contents σ (advance r k) (encoding.len value) zeroCopy)
      as (ret & σ' & Hread & Hc).
    + done.
    + cbn. lia.
    + done.
    + unfold BufferReader.data_length, encoding.len in *. cbn. lia.
    + exists ret, σ'. rewrite advance_advance in Hread. split; [exact Hread|].
      rewrite Hc. cbn [advance BufferReader.data BufferReader.offset].
      rewrite Hdata1, Hr.
      by destruct (range_stored_at data1 (off + k) value ltac:(lia) ltac:(lia)) as [-> _].
Qed.

Lemma reader_reads_back_bytes_witness :
  ∃ data',
    StaticWriter.writeVarBytes [5; 6] (StaticWriter.mk [0; 0; 0; 0] 1)
    = (Ok tt, StaticWriter.mk data' (1 + (encoding.sizeVarint 2 + 2))) ∧
    ∀ σ r, reads_at σ r data' 1 →
      ∃ ret σ',
        BufferReader.readVarBytes false (σ, r)
        = (Ok ret, (σ', advance r (encoding.sizeVarint 2 + 2))) ∧
        Buffer.contents σ' ret = [5; 6].
Proof.
  apply (reader_reads_back_bytes [5; 6] (StaticWriter.mk [0; 0; 0; 0] 1) false).
  - repeat constructor; unfold byte; lia.
  - repeat constructor; unfold byte; lia.
  - vm_compute. congruence.
  - simpl. lia.
  - vm_compute. congruence.
Defined.

(** ** Spans: [start()], reads, [end()] *)

(** The reader with another span stack. *)
Definition with_stack (st : list Z) (r : BufferReader.t) : BufferReader.t :=
  BufferReader.mk (BufferReader.data r) (BufferReader.offset r)
    (BufferReader.zeroCopy r) st.

(** The outcome of a method, with another span stack on the reader. *)
Definition restack {A} (st : list Z) (out : result A * BufferReader.world)
  : result A * BufferReader.world :=
  (out.1, (out.2.1, with_stack st out.2.2)).

Ltac frame_cases :=
  unfold with_stack, advance, out_of_bounds, BufferReader.data_length,
    BufferReader.pure_read, copied;
  repeat first
    [ reflexivity
    | progress cbn
    | case_bool_decide
    | match goal with
      | |- context [match ?x with _ => _ end] =>
          lazymatch x with
          | context [bool_decide] => fail
          | context [match _ with _ => _ end] => fail
          | _ => destruct x eqn:?
          end
      end ].

Section frame.

Variable toString : string → list Z → string.
Variables encoding_readU64N encoding_readU64BEN
          encoding_readI64N encoding_readI64BEN : list Z → Z → result Z.

(** No read looks at the span stack or touches it. *)
Lemma exec_frame o st σ r :
  BufferReader.exec toString encoding_readU64N encoding_readU64BEN
    encoding_readI64N encoding_readI64BEN o (σ, with_stack st r)
  = restack st
      (BufferReader.exec toString encoding_readU64N encoding_readU64BEN
         encoding_readI64N encoding_readI64BEN o (σ, r)).
Proof.
  unfold restack.
  destruct o; cbn [BufferReader.exec]; run_reader;
    unfold BufferReader.readU8, BufferReader.readU16, BufferReader.readU16BE,
      BufferReader.readU32, BufferReader.readU32BE, BufferReader.readU64,
      BufferReader.readU64BE, BufferReader.readI8, BufferReader.readI16,
      BufferReader.readI16BE, BufferReader.readI32, BufferReader.readI32BE,
      BufferReader.readI64, BufferReader.readI64BE,
      BufferReader.readU64N, BufferReader.readU64BEN,
      BufferReader.readI64N, BufferReader.readI64BEN,
      BufferReader.readFloat, BufferReader.readFloatBE,
      BufferReader.readDouble, BufferReader.readDoubleBE;
    rewrite ?fixed_outcome, ?readVarint_outcome, ?readVarint2_outcome,
      ?readBytes_outcome, ?readString_outcome, ?readNullString_outcome.
  all: try (frame_cases; fail).
  - unfold BufferReader.readVarBytes. run_reader.
    rewrite !readVarint_outcome. cbn.
    destruct (encoding.readVarint _ _) as [v|e]; [|reflexivity].
    rewrite !readBytes_outcome. frame_cases.
  - unfold BufferReader.readVarString. run_reader.
    rewrite !readVarint_outcome. cbn.
    destruct (encoding.readVarint _ _) as [v|e]; [|reflexivity].
    run_reader. destruct (match limit with Some _ => _ | None => _ end); [|reflexivity].
    run_reader. rewrite !readString_outcome. frame_cases.
Qed.

End frame.

Section spans.

Variable toString : string → list Z → string.
Variables encoding_readU64N encoding_readU64BEN
          encoding_readI64N encoding_readI64BEN : list Z → Z → result Z.

(** A sequence of reads on one reader; the first to throw ends it. *)
Fixpoint read_all (ops : list BufferReader.op) : BufferReader.M (list BufferReader.ret) :=
  match ops with
  | [] => mret []
  | o :: ops =>
      a ← BufferReader.exec toString encoding_readU64N encoding_readU64BEN
             encoding_readI64N encoding_readI64BEN o;
      rest ← read_all ops;
      mret (a :: rest)
  end.

Lemma read_all_frame ops : ∀ st σ r,
  read_all ops (σ, with_stack st r) = restack st (read_all ops (σ, r)).
Proof.
  induction ops as [|o ops IH]; intros st σ r; [reflexivity|].
  cbn [read_all]. unfold mbind at 1 3, method_bind at 1 3.
  rewrite exec_frame. unfold restack at 1.
  destruct (BufferReader.exec _ _ _ _ _ _ _) as [[a|e] [σ1 r1]]; [|reflexivity].
  cbn [fst snd]. unfold mbind, method_bind. rewrite IH. unfold restack.
  by destruct (read_all ops (σ1, r1)) as [[rest|e] [σ2 r2]].
Qed.

Lemma read_all_keeps_stack ops : ∀ σ r out,
  read_all ops (σ, r) = out →
  BufferReader.stack out.2.2 = BufferReader.stack r.
Proof.
  induction ops as [|o ops IH]; intros σ r out <-; [reflexivity|].
  cbn [read_all]. unfold mbind at 1, method_bind at 1.
  pose proof (exec_settles toString encoding_readU64N encoding_readU64BEN
                encoding_readI64N encoding_readI64BEN o σ r) as Hs.
  destruct (BufferReader.exec _ _ _ _ _ _ _) as [[a|e] [σ1 r1]].
  - destruct Hs as (-> & _). unfold mbind, method_bind.
    specialize (IH σ1 (advance r (consumed o (Buffer.contents σ (BufferReader.data r))
                                    (BufferReader.offset r))) _ eq_refl).
    by destruct (read_all ops _) as [[rest|e] [σ2 r2]].
  - by destruct Hs as [_ [->|(_ & -> & _)]].
Qed.

End spans.

(** X17: reads between [start()] and [end()] are measured.  When a
    sequence of reads returns, the same sequence run after [start()]
    and followed by [end()] returns the same values, [end()] returns
    the number of bytes by which the offset has moved, and the store
    and the reader are left exactly as by the reads alone: the span
    stack is as before [start()]. *)
Theorem span_measures_the_reads
    (toString : string → list Z → string)
    (readU64N readU64BEN readI64N readI64BEN : list Z → Z → result Z)
    (ops : list BufferReader.op) (σ σ' : Buffer.store) (r r' : BufferReader.t)
    (values : list BufferReader.ret) :
  read_all toString readU64N readU64BEN readI64N readI64BEN ops (σ, r)
  = (Ok values, (σ', r')) →
  (BufferReader.start;;
   xs ← read_all toString readU64N readU64BEN readI64N readI64BEN ops;
   n ← BufferReader.end_;
   mret (xs, n)) (σ, r)
  = (Ok (values, BufferReader.offset r' - BufferReader.offset r), (σ', r')).
Proof.
  intros Hreads.
  pose proof (read_all_keeps_stack _ _ _ _ _ ops σ r _ Hreads) as Hstack.
  cbn in Hstack.
  unfold BufferReader.start. run_reader.
  change (BufferReader.mk (BufferReader.data r) (BufferReader.offset r)
            (BufferReader.zeroCopy r) (BufferReader.offset r :: BufferReader.stack r))
    with (with_stack (BufferReader.offset r :: BufferReader.stack r) r).
  rewrite read_all_frame, Hreads. unfold restack. cbn.
  unfold BufferReader.end_. run_reader. cbn.
  rewrite bool_decide_eq_true_2 by lia. cbn.
  rewrite <- Hstack. by destruct r'.
Qed.

Lemma span_measures_the_reads_witness :
  let w := reader_of [0xfd; 0; 1; 7; 8] false in
  let ops := [BufferReader.ReadVarint; BufferReader.ReadU8] in
  (BufferReader.start;;
   xs ← read_all latin1 read64N read64N read64N read64N ops;
   n ← BufferReader.end_;
   mret (xs, n)) w
  = (Ok ([BufferReader.RNum (Some 256); BufferReader.RNum (Some 7)], 4 - 0),
     (w.1, advance w.2 4)).
Proof.
  cbv zeta.
  apply (span_measures_the_reads latin1 read64N read64N read64N read64N
           [BufferReader.ReadVarint; BufferReader.ReadU8]
           [[0xfd; 0; 1; 7; 8]] [[0xfd; 0; 1; 7; 8]]
           (reader_of [0xfd; 0; 1; 7; 8] false).2
           (advance (reader_of [0xfd; 0; 1; 7; 8] false).2 4)).
  reflexivity.
Defined.

(** ** A static writer of the size that the size writer reports *)



(** ** Null-terminated strings *)

Lemma strlen_until_zero (body rest : list Z) :
  0 ∉ body → strlen (body ++ 0 :: rest) = encoding.len body.
Proof.
  unfold encoding.len. induction body as [|b body IH]; intros Hz; [done|].
  apply not_elem_of_cons in Hz as [Hb Hz]. simpl.
  rewrite bool_decide_eq_false_2 by done. rewrite IH by done. lia.
Qed.

Lemma strlen_no_zero (l : list Z) : 0 ∉ l → strlen l = encoding.len l.
Proof.
  unfold encoding.len. induction l as [|b l IH]; intros Hz; [done|].
  apply not_elem_of_cons in Hz as [Hb Hz]. simpl.
  rewrite bool_decide_eq_false_2 by done. rewrite IH by done. lia.
Qed.

(** X19: [readNullString(enc)] on a reader within its buffer.  When the
    bytes from the offset on are [body], without a zero, then a zero
    byte, the call returns [body] decoded with [enc] and the offset
    moves past the zero.  When there is no zero byte from the offset
    on, the call throws "Out of bounds read" with the offset, and the
    reader is as it was. *)
Theorem readNullString_reads_to_the_zero
    (toString : string → list Z → string) (enc : string)
    (σ : Buffer.store) (r : BufferReader.t) :
  let data := Buffer.contents σ (BufferReader.data r) in
  let off := BufferReader.offset r in
  Buffer.valid σ (BufferReader.data r) →
  0 ≤ off ≤ BufferReader.data_length r →
  (∀ body rest, drop (Z.to_nat off) data = body ++ 0 :: rest → 0 ∉ body →
     BufferReader.readNullString toString enc (σ, r)
     = (Ok (toString enc body), (σ, advance r (encoding.len body + 1)))) ∧
  (0 ∉ drop (Z.to_nat off) data →
     BufferReader.readNullString toString enc (σ, r)
     = (Throw (EncodingError (VNum off) (VStr "Out of bounds read")), (σ, r))).
Proof.
  cbv zeta. intros Hv Hoff.
  pose proof (contents_valid_length σ _ Hv) as Hl.
  unfold BufferReader.data_length in Hoff.
  split.
  - intros body rest Hdrop Hz.
    rewrite readNullString_outcome. cbv zeta.
    rewrite Hdrop, strlen_until_zero by done.
    assert (length (drop (Z.to_nat (BufferReader.offset r))
                      (Buffer.contents σ (BufferReader.data r)))
            = length (body ++ 0 :: rest)) as Hlen by (by rewrite Hdrop).
    rewrite length_drop, length_app in Hlen. simpl in Hlen.
    unfold BufferReader.data_length, encoding.len.
    rewrite !bool_decide_eq_true_2 by lia.
    replace (Z.max (BufferReader.offset r) 0 - BufferReader.offset r) with 0 by lia.
    rewrite Z.add_0_l. do 3 f_equal.
    unfold Buffer.range. rewrite Hdrop.
    replace (Z.to_nat (BufferReader.offset r + Z.of_nat (length body))
             - Z.to_nat (BufferReader.offset r))%nat with (length body) by lia.
    by rewrite take_app_length.
  - intros Hz. rewrite readNullString_outcome. cbv zeta.
    rewrite strlen_no_zero by done.
    unfold BufferReader.data_length, encoding.len. rewrite length_drop.
    case_bool_decide; [|done].
    rewrite bool_decide_eq_false_2; [done|]. lia.
Qed.

Lemma readNullString_reads_to_the_zero_witness :
  BufferReader.readNullString latin1 "ascii" (reader_of [104; 105; 0; 7] false)
  = (Ok (latin1 "ascii" [104; 105]),
     ([[104; 105; 0; 7]], advance (reader_of [104; 105; 0; 7] false).2 (2 + 1))).
Proof.
  destruct (readNullString_reads_to_the_zero latin1 "ascii" [[104; 105; 0; 7]]
              (reader_of [104; 105; 0; 7] false).2) as [H _].
  - exists [104; 105; 0; 7]. split; [reflexivity | simpl; lia].
  - vm_compute. split; congruence.
  - apply (H [104; 105] [7]); [reflexivity|].
    intros Hin. apply elem_of_cons in Hin as [|Hin]; [done|].
    apply elem_of_cons in Hin as [|Hin]; [done|]. by apply elem_of_nil in Hin.
Defined.

(** ** The functions of the codec on whole buffers *)

Lemma take_inserts {A} (c : list A) : ∀ (i n : nat) (l : list A),
  (i + length c ≤ n)%nat →
  take n (list_inserts i c l) = list_inserts i c (take n l).
Proof.
  induction c as [|x c IH]; intros i n l Hn; [done|].
  simpl in *. rewrite take_insert_lt by lia. f_equal. apply IH. lia.
Qed.

Lemma drop_inserts {A} (c : list A) : ∀ (i n : nat) (l : list A),
  drop n (list_inserts (n + i) c l) = list_inserts i c (drop n l).
Proof.
  induction c as [|x c IH]; intros i n l; [done|].
  simpl. rewrite drop_insert_ge by lia.
  replace (n + i - n)%nat with i by lia. f_equal.
  replace (S (n + i)) with (n + S i)%nat by lia. apply IH.
Qed.

(** The bytes that [src.copy(target, targetStart, sourceStart,
    sourceEnd)] moves. *)
Definition copy_chunk (σ : Buffer.store) (src target : Buffer.t)
    (targetStart sourceStart sourceEnd : Z) : list Z :=
  take (Buffer.length target - Z.to_nat targetStart)
    (take (Z.to_nat (sourceEnd - sourceStart))
       (drop (Z.to_nat sourceStart) (Buffer.contents σ src))).

(** After a copy the target holds the chunk at the target start, and a
    view on another array buffer holds what it held. *)
Lemma copy_contents σ src target tS sS sE :
  Buffer.valid σ target →
  Buffer.contents (Buffer.copy σ src target tS sS sE) target
  = list_inserts (Z.to_nat tS) (copy_chunk σ src target tS sS sE)
      (Buffer.contents σ target) ∧
  Buffer.valid (Buffer.copy σ src target tS sS sE) target ∧
  (∀ b, Buffer.buffer b ≠ Buffer.buffer target →
        Buffer.contents (Buffer.copy σ src target tS sS sE) b = Buffer.contents σ b) ∧
  (∀ b, Buffer.valid σ b → Buffer.valid (Buffer.copy σ src target tS sS sE) b).
Proof.
  intros (mem & Hmem & Hfit). unfold Buffer.copy. fold (copy_chunk σ src target tS sS sE).
  set (chunk := copy_chunk σ src target tS sS sE).
  assert (length chunk ≤ Buffer.length target - Z.to_nat tS)%nat as Hchunk
    by (unfold chunk, copy_chunk; rewrite length_take; lia).
  split; [|split; [|split]].
  - unfold Buffer.contents. rewrite list_lookup_alter_eq, Hmem. simpl.
    destruct (decide (Z.to_nat tS ≤ Buffer.length target)%nat) as [Hle|Hgt].
    + rewrite drop_inserts, take_inserts; [done|lia].
    + assert (chunk = []) as -> by (apply length_zero_iff_nil; lia). done.
  - exists (list_inserts (Buffer.byteOffset target + Z.to_nat tS) chunk mem).
    rewrite list_lookup_alter_eq, Hmem. split; [done|]. by rewrite length_inserts.
  - intros b Hb. unfold Buffer.contents. by rewrite list_lookup_alter_ne.
  - intros b (m & Hm & Hb).
    destruct (decide (Buffer.buffer target = Buffer.buffer b)) as [E|E].
    + exists (list_inserts (Buffer.byteOffset target + Z.to_nat tS) chunk m).
      rewrite <- E, list_lookup_alter_eq. rewrite E, Hm. split; [done|].
      by rewrite length_inserts.
    + exists m. by rewrite list_lookup_alter_ne.
Qed.

(** A new buffer of [size] bytes on an array buffer of its own. *)
Lemma allocUnsafe_fresh σ size :
  0 ≤ size →
  ∃ σ' buf,
    Buffer.allocUnsafe σ size = Ok (σ', buf) ∧
    Buffer.buffer buf = length σ ∧ Buffer.length buf = Z.to_nat size ∧
    Buffer.valid σ' buf ∧
    length (Buffer.contents σ' buf) = Z.to_nat size ∧
    (∀ b, Buffer.valid σ b →
          Buffer.valid σ' b ∧ Buffer.contents σ' b = Buffer.contents σ b ∧
          Buffer.buffer b ≠ Buffer.buffer buf).
Proof.
  intros Hsize. unfold Buffer.allocUnsafe. rewrite decide_False by lia.
  eexists _, _. split; [reflexivity|]. cbn.
  split; [done|]. split; [done|].
  assert (Buffer.valid (σ ++ [replicate (Z.to_nat size) 0])
            (Buffer.mk (length σ) 0 (Z.to_nat size))) as Hv.
  { exists (replicate (Z.to_nat size) 0). cbn.
    rewrite list_lookup_middle by done. split; [done|]. by rewrite length_replicate. }
  split; [done|]. split; [exact (contents_valid_length _ _ Hv)|].
  intros b (m & Hm & Hb). pose proof (lookup_lt_Some _ _ _ Hm) as Hlt.
  split; [|split; [|lia]].
  - exists m. by rewrite lookup_app_l.
  - unfold Buffer.contents. by rewrite lookup_app_l.
Qed.

Lemma inserts_whole (c l : list Z) :
  length c = length l → list_inserts 0 c l = c.
Proof.
  intros Hlen. pose proof (list_inserts_0_r c l [] Hlen) as H.
  by rewrite !app_nil_r in H.
Qed.

(** X20: [concat(a, b)] returns a new buffer that holds the bytes of
    [a] followed by the bytes of [b]; [a] and [b] hold what they held,
    and no store to either reaches the new buffer. *)
Theorem concat_appends (σ : Buffer.store) (a b : Buffer.t) :
  Buffer.valid σ a → Buffer.valid σ b →
  ∃ σ' buf,
    encoding_bytes.concat σ a b = Ok (σ', buf) ∧
    Buffer.contents σ' buf = Buffer.contents σ a ++ Buffer.contents σ b ∧
    Buffer.contents σ' a = Buffer.contents σ a ∧
    Buffer.contents σ' b = Buffer.contents σ b ∧
    independent_of σ' a buf ∧ independent_of σ' b buf.
Proof.
  intros Ha Hb. unfold encoding_bytes.concat.
  destruct (allocUnsafe_fresh σ (Z.of_nat (Buffer.length a) + Z.of_nat (Buffer.length b)))
    as (σ1 & buf & -> & Hbuf & Hlen & Hv1 & Hl1 & Hold); [lia|].
  destruct (Hold a Ha) as (Ha1 & Hca & Hna). destruct (Hold b Hb) as (Hb1 & Hcb & Hnb).
  cbn [mbind result_bind].
  set (σ2 := Buffer.copy σ1 a buf 0 0 (Z.of_nat (Buffer.length a))).
  destruct (copy_contents σ1 a buf 0 0 (Z.of_nat (Buffer.length a)) Hv1)
    as (Hc2 & Hv2 & Hother2 & Hvalid2). fold σ2 in Hc2, Hv2, Hother2, Hvalid2.
  set (σ3 := Buffer.copy σ2 b buf (Z.of_nat (Buffer.length a)) 0
               (Z.of_nat (Buffer.length b))).
  destruct (copy_contents σ2 b buf (Z.of_nat (Buffer.length a)) 0
              (Z.of_nat (Buffer.length b)) Hv2)
    as (Hc3 & Hv3 & Hother3 & Hvalid3). fold σ3 in Hc3, Hv3, Hother3, Hvalid3.
  pose proof (contents_valid_length σ a Ha) as Hla.
  pose proof (contents_valid_length σ b Hb) as Hlb.
  exists σ3, buf. split; [reflexivity|].
  assert (Buffer.contents σ3 a = Buffer.contents σ a) as Ea
    by (rewrite Hother3, Hother2 by done; done).
  assert (Buffer.contents σ3 b = Buffer.contents σ b) as Eb
    by (rewrite Hother3, Hother2 by done; done).
  split; [|split; [done|split; [done|split]]].
  - rewrite Hc3, Hc2. unfold copy_chunk.
    rewrite (Hother2 b) by done. rewrite Hca, Hcb, Hlen.
    change (Z.to_nat 0) with 0%nat. rewrite !drop_0, !Nat2Z.id, Z.sub_0_r, !Nat2Z.id.
    rewrite (firstn_all2 (Buffer.contents σ a)) by lia.
    rewrite (firstn_all2 (Buffer.contents σ a)) by lia.
    rewrite (firstn_all2 (Buffer.contents σ b)) by lia.
    rewrite (firstn_all2 (Buffer.contents σ b)) by lia.
    rewrite <- (take_drop (Buffer.length a) (Buffer.contents σ1 buf)).
    rewrite list_inserts_0_r by (rewrite length_take; lia).
    replace (Buffer.length a) with (length (Buffer.contents σ a) + 0)%nat at 1 by lia.
    rewrite list_inserts_app_r. f_equal.
    apply inserts_whole. rewrite length_drop. lia.
  - intros i v. apply contents_set_other. done.
  - intros i v. apply contents_set_other. done.
Qed.

Lemma concat_appends_witness :
  let σ := [[1; 2; 3; 4; 5]] in
  ∃ σ' buf,
    encoding_bytes.concat σ (Buffer.mk 0 3 2) (Buffer.mk 0 0 2) = Ok (σ', buf) ∧
    Buffer.contents σ' buf = [4; 5] ++ [1; 2] ∧
    Buffer.contents σ' (Buffer.mk 0 3 2) = [4; 5] ∧
    Buffer.contents σ' (Buffer.mk 0 0 2) = [1; 2] ∧
    independent_of σ' (Buffer.mk 0 3 2) buf ∧ independent_of σ' (Buffer.mk 0 0 2) buf.
Proof.
  cbv zeta.
  apply (concat_appends [[1; 2; 3; 4; 5]] (Buffer.mk 0 3 2) (Buffer.mk 0 0 2)).
  - exists [1; 2; 3; 4; 5]. split; [reflexivity | simpl; lia].
  - exists [1; 2; 3; 4; 5]. split; [reflexivity | simpl; lia].
Defined.

(** X21: [sliceBytes] and [readBytes] of the codec at an offset and a
    size that are not negative.  Both throw "Out of bounds read" with
    the offset exactly when [off + size] exceeds the length.
    Otherwise both return a buffer that holds the [size] bytes at
    [off]: [sliceBytes] a slice that shares them with the source,
    [readBytes] a new buffer that no store to the source reaches. *)
Theorem codec_slice_and_read (σ : Buffer.store) (data : Buffer.t) (off size : Z) :
  Buffer.valid σ data → 0 ≤ off → 0 ≤ size →
  let bytes := Buffer.range (Buffer.contents σ data) off (off + size) in
  if bool_decide (off + size ≤ Z.of_nat (Buffer.length data))
  then
    (∃ s, encoding_bytes.sliceBytes data off size = Ok s ∧
          Buffer.contents σ s = bytes ∧ shares_from σ data s off size) ∧
    (∃ σ' buf, encoding_bytes.readBytes σ data off size = Ok (σ', buf) ∧
               Buffer.contents σ' buf = bytes ∧
               Buffer.contents σ' data = Buffer.contents σ data ∧
               independent_of σ' data buf)
  else
    encoding_bytes.sliceBytes data off size
    = Throw (EncodingError (VNum off) (VStr "Out of bounds read")) ∧
    encoding_bytes.readBytes σ data off size
    = Throw (EncodingError (VNum off) (VStr "Out of bounds read")).
Proof.
  intros Hv H0 Hsize. cbv zeta.
  unfold encoding_bytes.sliceBytes, encoding_bytes.readBytes.
  case_bool_decide as Hfit.
  2:{ rewrite !bool_decide_eq_true_2 by lia. done. }
  rewrite !bool_decide_eq_false_2 by lia. split.
  - eexists. split; [reflexivity|]. split; [apply slice_contents; lia|].
    intros i v Hi. apply slice_sees_source; (done || lia).
  - destruct (allocUnsafe_fresh σ size Hsize)
      as (σ1 & buf & -> & Hbuf & Hlen & Hv1 & Hl1 & Hold).
    destruct (Hold data Hv) as (Hd1 & Hcd & Hne).
    cbn [mbind result_bind].
    destruct (copy_contents σ1 data buf 0 off (off + size) Hv1)
      as (Hc & _ & Hother & _).
    pose proof (contents_valid_length σ data Hv) as Hld.
    eexists _, _. split; [reflexivity|]. split; [|split].
    + rewrite Hc. unfold copy_chunk. rewrite Hcd, Hlen.
      change (Z.to_nat 0) with 0%nat. rewrite Nat.sub_0_r, take_take.
      replace (Z.to_nat size `min` Z.to_nat (off + size - off))%nat
        with (Z.to_nat (off + size) - Z.to_nat off)%nat by lia.
      unfold Buffer.range.
      apply inserts_whole. rewrite Hl1, length_take, length_drop. lia.
    + rewrite Hother by done. done.
    + intros i v. by apply contents_set_other.
Qed.

Lemma codec_slice_and_read_witness :
  let σ := [[1; 2; 3; 4; 5]] in
  let data := Buffer.mk 0 1 4 in
  (∃ s, encoding_bytes.sliceBytes data 1 2 = Ok s ∧
        Buffer.contents σ s = [3; 4] ∧ shares_from σ data s 1 2) ∧
  (∃ σ' buf, encoding_bytes.readBytes σ data 1 2 = Ok (σ', buf) ∧
             Buffer.contents σ' buf = [3; 4] ∧
             Buffer.contents σ' data = [2; 3; 4; 5] ∧
             independent_of σ' data buf).
Proof.
  cbv zeta.
  apply (codec_slice_and_read [[1; 2; 3; 4; 5]] (Buffer.mk 0 1 4) 1 2).
  - exists [1; 2; 3; 4; 5]. split; [reflexivity | simpl; lia].
  - lia.
  - lia.
Defined.

(** X22: [writeBytes(data, value, off)] of the codec at an offset that
    is not negative.  It throws "Out of bounds write" with the offset
    exactly when [off + value.length] exceeds the length of [data].
    Otherwise [data] holds [value] at [off] and its other bytes as
    before, and the call returns the number of bytes written,
    [value.length], which is not the offset behind them. *)
Theorem codec_writeBytes (σ : Buffer.store) (data value : Buffer.t) (off : Z) :
  Buffer.valid σ data → Buffer.valid σ value → 0 ≤ off →
  if bool_decide (off + Z.of_nat (Buffer.length value) ≤ Z.of_nat (Buffer.length data))
  then
    ∃ σ', encoding_bytes.writeBytes σ data value off
          = Ok (σ', Z.of_nat (Buffer.length value)) ∧
          Buffer.contents σ' data
          = stored_at (Buffer.contents σ data) off (Buffer.contents σ value)
  else
    encoding_bytes.writeBytes σ data value off
    = Throw (EncodingError (VNum off) (VStr "Out of bounds write")).
Proof.
  intros Hd Hv H0. unfold encoding_bytes.writeBytes.
  case_bool_decide as Hfit.
  2:{ by rewrite bool_decide_eq_true_2 by lia. }
  rewrite !bool_decide_eq_false_2 by lia.
  eexists. split; [reflexivity|].
  destruct (copy_contents σ value data off 0 (Z.of_nat (Buffer.length value)) Hd)
    as (Hc & _).
  pose proof (contents_valid_length σ data Hd) as Hld.
  pose proof (contents_valid_length σ value Hv) as Hlv.
  rewrite Hc. unfold copy_chunk.
  change (Z.to_nat 0) with 0%nat. rewrite drop_0, take_take, firstn_all2 by lia.
  apply inserts_stored_at; unfold encoding.len; lia.
Qed.

Lemma codec_writeBytes_witness :
  let σ := [[0; 0; 0; 0]; [7; 8]] in
  ∃ σ', encoding_bytes.writeBytes σ (Buffer.mk 0 0 4) (Buffer.mk 1 0 2) 1 = Ok (σ', 2) ∧
        Buffer.contents σ' (Buffer.mk 0 0 4) = stored_at [0; 0; 0; 0] 1 [7; 8].
Proof.
  cbv zeta.
  apply (codec_writeBytes [[0; 0; 0; 0]; [7; 8]] (Buffer.mk 0 0 4) (Buffer.mk 1 0 2) 1).
  - exists [0; 0; 0; 0]. split; [reflexivity | simpl; lia].
  - exists [7; 8]. split; [reflexivity | simpl; lia].
  - lia.
Defined.

(** ** A stream of numbers, written and read back *)

(** The bytes a write of the codec stores: what it leaves in a buffer
    of [n] zeros. *)
Definition code_of (write : list Z → Z → Z → list Z * Z) (n : nat) (v : Z) : list Z :=
  take n (write (replicate n 0) v 0).1.

(** A write of the codec that stores [n] bytes at the offset, the same
    whatever the buffer holds, and leaves the other bytes alone. *)
Definition places (write : list Z → Z → Z → list Z * Z) (n : nat) : Prop :=
  ∀ v,
    Forall byte (code_of write n v) ∧
    ∀ dst off, 0 ≤ off → off + Z.of_nat n ≤ encoding.len dst →
      (write dst v off).1 = stored_at dst off (code_of write n v).

Lemma ToUint8_is_byte (x : Z) : byte (ToUint8 x).
Proof. unfold byte, ToUint8. pose proof (Z.mod_pos_bound x (2^8)). lia. Qed.

Ltac codec_places k :=
  intros v; unfold code_of; simpl replicate; unfold_codec;
  try destruct (encoding.split64 v) as [hi lo];
  cbv beta iota zeta; cbn [fst snd]; norm_offsets; sets_concrete; simpl take;
  split;
  [ repeat constructor; apply ToUint8_is_byte
  | intros dst off H0 Hfit; stored_chunk dst off k;
    norm_offsets; sets_concrete; reflexivity ].

Lemma places_writeU8 : places encoding.writeU8 1.
Proof. codec_places 1%nat. Qed.
Lemma places_writeU16 : places encoding.writeU16 2.
Proof. codec_places 2%nat. Qed.
Lemma places_writeU16BE : places encoding.writeU16BE 2.
Proof. codec_places 2%nat. Qed.
Lemma places_writeU32 : places encoding.writeU32 4.
Proof. codec_places 4%nat. Qed.
Lemma places_writeU32BE : places encoding.writeU32BE 4.
Proof. codec_places 4%nat. Qed.
Lemma places_write64 be : places (λ dst num off, encoding.write64 dst num off be) 8.
Proof. destruct be; codec_places 8%nat. Qed.

Lemma code_of_length write (k : nat) v :
  advances write (Z.of_nat k) → length (code_of write k v) = k.
Proof.
  intros Hadv. destruct (Hadv (replicate k 0) v 0) as [_ Hlen].
  unfold code_of, encoding.len in *. rewrite length_replicate in Hlen.
  rewrite length_take. lia.
Qed.

Lemma put_in_place write (k : nat) v w :
  places write k → advances write (Z.of_nat k) →
  0 ≤ StaticWriter.offset w →
  StaticWriter.offset w + Z.of_nat k ≤ encoding.len (StaticWriter.data w) →
  StaticWriter.put write v w
  = (Ok tt, StaticWriter.mk
              (stored_at (StaticWriter.data w) (StaticWriter.offset w) (code_of write k v))
              (StaticWriter.offset w + Z.of_nat k)).
Proof.
  intros Hp Hadv H0 Hfit. destruct (Hp v) as [_ Hst].
  specialize (Hst _ _ H0 Hfit).
  destruct (Hadv (StaticWriter.data w) v (StaticWriter.offset w)) as [Hoff _].
  unfold StaticWriter.put. run_method.
  destruct (write _ _ _) as [d o]. cbn [fst snd] in *. by subst.
Qed.

Lemma read_in_place (fits : Z → Prop) write (k : nat) read v data off :
  places write k → inverse_at fits (Z.of_nat k) write read → fits v →
  0 ≤ off → off + Z.of_nat k ≤ encoding.len data →
  Buffer.range data off (off + Z.of_nat k) = code_of write k v →
  read data off = Ok (Some v).
Proof.
  intros Hp Hinv Hv H0 Hfit Hcode. destruct (Hp v) as [_ Hst].
  specialize (Hinv data v off Hv H0 Hfit).
  by rewrite Hst, <- Hcode, stored_at_range in Hinv by lia.
Qed.

(** The bytes [writeVarint2] stores: digits that continue, then the
    last digit. *)
Lemma writeVarint2_stores (v : Z) :
  0 ≤ v →
  ∃ body,
    Forall cont body ∧ varint2_acc 0 body = v / 128 ∧
    encoding.sizeVarint2 v = encoding.len body + 1 ∧
    ∀ dst off, 0 ≤ off → off + encoding.sizeVarint2 v ≤ encoding.len dst →
      encoding.writeVarint2 dst v off
      = Ok (stored_at dst off (body ++ [v mod 128]), off + encoding.sizeVarint2 v).
Proof.
  intros Hv.
  destruct (writeVarint2_loop_digits v 0 [] Hv ltac:(done)) as (body & Hloop & Hcont & Hacc).
  pose proof (writeVarint2_loop_size v 0 [] 0) as Hsize.
  fold (encoding.sizeVarint2 v) in Hsize. rewrite Hloop in Hsize.
  cbn [fst snd] in Hsize.
  rewrite bool_decide_eq_true_2, Z.add_0_r in Hloop by done. simpl app in Hloop.
  assert (encoding.sizeVarint2 v = encoding.len body + 1) as Hn by lia.
  exists (reverse body). split; [by apply Forall_reverse|]. split; [done|].
  split; [unfold encoding.len in *; rewrite length_reverse; lia|].
  intros dst off H0 Hfit.
  unfold encoding.writeVarint2. rewrite Hloop.
  unfold encoding.check. rewrite bool_decide_eq_true_2 by lia. simpl.
  assert (Forall byte (v mod 128 :: body)) as Hbytes.
  { constructor; [pose proof (Z.mod_pos_bound v 128); unfold byte; lia|].
    eapply Forall_impl; [exact Hcont|]. unfold cont, byte. lia. }
  unfold encoding.len in Hn, Hfit |- *.
  rewrite writeVarint2_emit_stores; [|done|simpl; lia|done|unfold encoding.len; lia].
  replace (S (Z.to_nat (0 + Z.of_nat (length body)))) with (length (v mod 128 :: body))
    by (simpl; lia).
  rewrite firstn_all, reverse_cons.
  do 2 f_equal. simpl length. lia.
Qed.

(** A write of a number that fits, a reader that stands on the
    written bytes: the write returns, the read returns the number. *)
Definition fitting (o : Write.op) : Prop :=
  match read_of o with
  | Some (_, _, fits) => fits
  | None => False
  end.

Definition reads_of (ops : list Write.op) : list BufferReader.op :=
  omap (λ o, (λ x, x.1.1) <$> read_of o) ops.

Definition values_of (ops : list Write.op) : list BufferReader.ret :=
  omap (λ o, (λ x, BufferReader.RNum (Some x.1.2)) <$> read_of o) ops.

Lemma reads_of_cons o ops ro v (fits : Prop) :
  read_of o = Some (ro, v, fits) → reads_of (o :: ops) = ro :: reads_of ops.
Proof. intros H. unfold reads_of. simpl. by rewrite H. Qed.

Lemma values_of_cons o ops ro v (fits : Prop) :
  read_of o = Some (ro, v, fits) →
  values_of (o :: ops) = BufferReader.RNum (Some v) :: values_of ops.
Proof. intros H. unfold values_of. simpl. by rewrite H. Qed.

Section stream.

Variable byteLength : string → option string → Z.
Variable encode : string → option string → list Z.
Variable toString : string → list Z → string.
Variables readU64N readU64BEN readI64N readI64BEN : list Z → Z → result Z.

(** What a sequence of calls adds to the offset of the size writer. *)
Definition total (ops : list Write.op) : Z :=
  foldr (λ o n, grows byteLength o + n) 0 ops.

Lemma SizeWriter_run ops : ∀ s,
  SizeWriter.run byteLength ops s
  = (Ok tt, SizeWriter.mk (SizeWriter.offset s + total ops)).
Proof.
  induction ops as [|o ops IH]; intros s.
  - destruct s as [n]. cbn [SizeWriter.run total foldr]. unfold mret, method_ret.
    cbn [SizeWriter.offset]. by rewrite Z.add_0_r.
  - cbn [SizeWriter.run total foldr]. unfold mbind, method_bind.
    rewrite SizeWriter_exec, IH. cbn [SizeWriter.offset].
    fold (total ops). do 2 f_equal. lia.
Qed.

Lemma number_in_place o ro v (fits : Prop) :
  read_of o = Some (ro, v, fits) → fits →
  ∃ code,
    Forall byte code ∧ encoding.len code = grows byteLength o ∧
    (∀ w, 0 ≤ StaticWriter.offset w →
          StaticWriter.offset w + grows byteLength o ≤ encoding.len (StaticWriter.data w) →
          StaticWriter.exec byteLength encode o w
          = (Ok tt, StaticWriter.mk
                      (stored_at (StaticWriter.data w) (StaticWriter.offset w) code)
                      (StaticWriter.offset w + grows byteLength o))) ∧
    (∀ σ r data off,
       reads_at σ r data off → Forall byte data →
       0 ≤ off → off + grows byteLength o ≤ encoding.len data →
       Buffer.range data off (off + grows byteLength o) = code →
       BufferReader.exec toString readU64N readU64BEN readI64N readI64BEN ro (σ, r)
       = (Ok (BufferReader.RNum (Some v)), (σ, advance r (grows byteLength o)))).
Proof.
  intros Hro Hv.
  assert (∀ (fits' : Z → Prop) (k : nat) write (read : list Z → Z → result num),
    places write k → advances write (Z.of_nat k) →
    inverse_at fits' (Z.of_nat k) write read → fits' v →
    ∃ code,
      Forall byte code ∧ encoding.len code = Z.of_nat k ∧
      (∀ w, 0 ≤ StaticWriter.offset w →
            StaticWriter.offset w + Z.of_nat k ≤ encoding.len (StaticWriter.data w) →
            StaticWriter.put write v w
            = (Ok tt, StaticWriter.mk
                        (stored_at (StaticWriter.data w) (StaticWriter.offset w) code)
                        (StaticWriter.offset w + Z.of_nat k))) ∧
      (∀ σ r data off,
         reads_at σ r data off → Forall byte data →
         0 ≤ off → off + Z.of_nat k ≤ encoding.len data →
         Buffer.range data off (off + Z.of_nat k) = code →
         (BufferReader.RNum <$> BufferReader.fixed (Z.of_nat k) read) (σ, r)
         = (Ok (BufferReader.RNum (Some v)), (σ, advance r (Z.of_nat k))))) as Hfixed.
  { intros fits' k write read Hp Hadv Hinv Hv'.
    exists (code_of write k v). split; [apply Hp|].
    split; [unfold encoding.len; by rewrite code_of_length|].
    split; [intros w H0 Hfit; by apply put_in_place|].
    intros σ r data off (Hvalid & Hdata & Hr) _ H0 Hfit Hcode.
    run_reader. rewrite fixed_outcome.
    pose proof (contents_valid_length σ _ Hvalid) as Hl.
    rewrite Hdata in Hl. unfold BufferReader.data_length, encoding.len in *.
    rewrite bool_decide_eq_true_2 by lia.
    rewrite Hdata, Hr.
    by rewrite (read_in_place fits' write k read v data off). }
  destruct o; try discriminate Hro; injection Hro as <- <- <-;
    unfold grows in *; cbn.
  - apply (Hfixed _ 1%nat _ _ places_writeU8 advances_writeU8 inverse_U8 Hv).
  - apply (Hfixed _ 2%nat _ _ places_writeU16 advances_writeU16 inverse_U16 Hv).
  - apply (Hfixed _ 2%nat _ _ places_writeU16BE advances_writeU16BE inverse_U16BE Hv).
  - apply (Hfixed _ 4%nat _ _ places_writeU32 advances_writeU32 inverse_U32 Hv).
  - apply (Hfixed _ 4%nat _ _ places_writeU32BE advances_writeU32BE inverse_U32BE Hv).
  - apply (Hfixed _ 8%nat _ _ (places_write64 false) (advances_write64 false) inverse_U64 Hv).
  - apply (Hfixed _ 8%nat _ _ (places_write64 true) (advances_write64 true) inverse_U64BE Hv).
  - apply (Hfixed _ 1%nat _ _ places_writeU8 advances_writeI8 inverse_I8 Hv).
  - apply (Hfixed _ 2%nat _ _ places_writeU16 advances_writeI16 inverse_I16 Hv).
  - apply (Hfixed _ 2%nat _ _ places_writeU16BE advances_writeI16BE inverse_I16BE Hv).
  - apply (Hfixed _ 4%nat _ _ places_writeU32 advances_writeI32 inverse_I32 Hv).
  - apply (Hfixed _ 4%nat _ _ places_writeU32BE advances_writeI32BE inverse_I32BE Hv).
  - apply (Hfixed _ 8%nat _ _ (places_write64 false) (advances_write64 false) inverse_I64 Hv).
  - apply (Hfixed _ 8%nat _ _ (places_write64 true) (advances_write64 true) inverse_I64BE Hv).
  - (* writeVarint, readVarint *)
    change (SizeWriter.offset _) with (0 + encoding.sizeVarint value0) in *.
    rewrite !Z.add_0_l in *.
    assert (encoding.len (varint_table value0) = encoding.sizeVarint value0) as Hn.
    { unfold varint_table, encoding.sizeVarint. repeat case_bool_decide; reflexivity. }
    exists (varint_table value0).
    split; [unfold varint_table; repeat case_bool_decide;
            constructor; first [unfold byte; lia | apply Forall_byte_le_bytes | constructor]|].
    split; [done|]. split.
    + intros w H0 Hfit. unfold StaticWriter.writeVarint, StaticWriter.put. run_method.
      by rewrite writeVarint_stores by done.
    + intros σ r data off (Hvalid & Hdata & Hr) Hb H0 Hfit Hcode. run_reader.
      rewrite readVarint_outcome, Hdata, Hr.
      pose proof (sizeVarint_pos value0).
      rewrite <- (stored_at_range data off (encoding.sizeVarint value0)) by lia.
      rewrite Hcode.
      by rewrite readVarint_of_table by done.
  - (* writeVarint2, readVarint2 *)
    change (SizeWriter.offset _) with (0 + encoding.sizeVarint2 value0) in *.
    rewrite !Z.add_0_l in *. destruct Hv as [Hv Hguard].
    destruct (writeVarint2_stores value0 Hv) as (body & Hcont & Hacc & Hn & Hw).
    pose proof (Z.mod_pos_bound value0 128 ltac:(lia)).
    pose proof (len_nonneg body) as Hbody.
    exists (body ++ [value0 mod 128]). split.
    { apply Forall_app. split; [|repeat constructor; unfold byte; lia].
      eapply Forall_impl; [exact Hcont|]. unfold cont, byte. lia. }
    split; [rewrite len_app; unfold encoding.len in *; simpl; lia|]. split.
    + intros w H0 Hfit. unfold StaticWriter.writeVarint2. run_method.
      by rewrite Hw.
    + intros σ r data off (Hvalid & Hdata & Hr) Hb H0 Hfit Hcode. run_reader.
      rewrite readVarint2_outcome, Hdata, Hr.
      unfold encoding.readVarint2. rewrite decide_False by lia.
      assert (drop (Z.to_nat off) data
              = body ++ value0 mod 128
                  :: drop (Z.to_nat (off + encoding.sizeVarint2 value0)) data) as ->.
      { rewrite <- (stored_at_range data off (encoding.sizeVarint2 value0)) at 1 by lia.
        rewrite Hcode. unfold stored_at.
        rewrite drop_app_length'; [|unfold encoding.len in *; rewrite length_take; lia].
        rewrite <- app_assoc. simpl. do 3 f_equal.
        rewrite len_app. unfold encoding.len in *. simpl. lia. }
      rewrite readVarint2_loop_decodes; [|done..|lia].
      rewrite Hacc, Hn. cbn.
      replace (value0 / 128 * 128 + value0 mod 128) with value0
        by (Z.to_euclidean_division_equations; lia).
      do 4 f_equal; lia.
Qed.

Lemma total_nonneg ops : Forall fitting ops → 0 ≤ total ops.
Proof.
  induction 1 as [|o ops Ho _ IH]; [done|]. cbn [total foldr]. fold (total ops).
  unfold fitting in Ho. destruct (read_of o) as [[[ro v] fits]|] eqn:Hro; [|done].
  destruct (number_in_place o ro v fits Hro Ho) as (code & _ & Hlen & _).
  pose proof (len_nonneg code). lia.
Qed.

Lemma range_of_take (data : list Z) (a b : Z) :
  0 ≤ a → Buffer.range data a b = drop (Z.to_nat a) (take (Z.to_nat b) data).
Proof. intros Ha. unfold Buffer.range. by rewrite skipn_firstn_comm. Qed.

(** The writes of [ops] on a writer with room, then the reads of the
    same names on a reader that stands where the writer stood. *)
Lemma run_then_read_all ops : ∀ w,
  Forall fitting ops → Forall byte (StaticWriter.data w) →
  0 ≤ StaticWriter.offset w →
  StaticWriter.offset w + total ops ≤ encoding.len (StaticWriter.data w) →
  ∃ data',
    StaticWriter.run byteLength encode ops w
    = (Ok tt, StaticWriter.mk data' (StaticWriter.offset w + total ops)) ∧
    encoding.len data' = encoding.len (StaticWriter.data w) ∧
    Forall byte data' ∧
    take (Z.to_nat (StaticWriter.offset w)) data'
    = take (Z.to_nat (StaticWriter.offset w)) (StaticWriter.data w) ∧
    ∀ σ r, reads_at σ r data' (StaticWriter.offset w) →
      read_all toString readU64N readU64BEN readI64N readI64BEN (reads_of ops) (σ, r)
      = (Ok (values_of ops), (σ, advance r (total ops))).
Proof.
  induction ops as [|o ops IH]; intros w Hops Hb H0 Hroom.
  - exists (StaticWriter.data w). cbn [total foldr]. rewrite Z.add_0_r.
    split; [by destruct w|]. split; [done|]. split; [done|]. split; [done|].
    intros σ r _. cbn. unfold advance. rewrite Z.add_0_r. by destruct r.
  - apply Forall_cons in Hops as [Ho Hops].
    pose proof (total_nonneg ops Hops) as Hrest.
    cbn [total foldr] in Hroom |- *. fold (total ops) in Hroom |- *.
    unfold fitting in Ho. destruct (read_of o) as [[[ro v] fits]|] eqn:Hro; [|done].
    destruct (number_in_place o ro v fits Hro Ho) as (code & Hcode & Hlen & Hexec & Hread).
    pose proof (len_nonneg code) as Hn.
    remember (grows byteLength o) as n eqn:En in *.
    remember (StaticWriter.offset w) as off eqn:Eoff in *.
    set (d1 := stored_at (StaticWriter.data w) off code).
    assert (encoding.len d1 = encoding.len (StaticWriter.data w)) as Hlen1.
    { unfold d1. rewrite <- inserts_stored_at by lia.
      unfold encoding.len. by rewrite length_inserts. }
    destruct (IH (StaticWriter.mk d1 (off + n))) as (data' & Erun & Hlen' & Hb' & Htake & Hreads).
    { done. }
    { by apply Forall_byte_stored_at. }
    { simpl. lia. }
    { simpl. lia. }
    cbn [StaticWriter.data StaticWriter.offset] in *.
    exists data'. split; [|split; [congruence|split; [done|split]]].
    + cbn [StaticWriter.run]. unfold mbind at 1, method_bind at 1.
      rewrite Hexec by lia. rewrite <- Eoff. fold d1. rewrite Erun. by rewrite Z.add_assoc.
    + replace (take (Z.to_nat off) data')
        with (take (Z.to_nat off) (take (Z.to_nat (off + n)) data'))
        by (rewrite take_take; f_equal; lia).
      rewrite Htake, take_take.
      unfold d1, stored_at. rewrite take_app_le; [|rewrite length_take; unfold encoding.len in *; lia].
      rewrite take_take. f_equal. lia.
    + intros σ r Hr.
      assert (Buffer.range data' off (off + n) = code) as Hrange.
      { rewrite range_of_take, Htake, <- range_of_take by done.
        rewrite <- Hlen. by apply range_stored_at; lia. }
      rewrite (reads_of_cons o ops ro v fits Hro), (values_of_cons o ops ro v fits Hro).
      cbn [read_all]. unfold mbind at 1, method_bind at 1.
      rewrite (Hread σ r data' off Hr Hb' H0) by (done || lia).
      unfold mbind, method_bind.
      destruct Hr as (Hvalid & Hdata & Hoff).
      rewrite (Hreads σ (advance r n))
        by (split; [done|split; [done|simpl; lia]]).
      unfold mret, method_ret. by rewrite advance_advance.
Qed.

End stream.

(** X23: numbers written one after another by the static writer are
    read back in the same order by the reader.  For a sequence of
    fixed-width integer writes and varint writes, each with a value
    that fits, on a new writer with room for what the size writer
    reports: the writes return, and a reader on the written buffer
    that stands at 0 returns the values from the reads of the same
    names and stands behind them. *)
Theorem written_numbers_are_read_back
    (byteLength : string → option string → Z)
    (encode : string → option string → list Z)
    (toString : string → list Z → string)
    (readU64N readU64BEN readI64N readI64BEN : list Z → Z → result Z)
    (ops : list Write.op) (init : list Z) :
  Forall fitting ops → Forall byte init →
  let size := SizeWriter.offset (SizeWriter.run byteLength ops SizeWriter.new).2 in
  size ≤ encoding.len init →
  ∃ data,
    StaticWriter.run byteLength encode ops (StaticWriter.new init)
    = (Ok tt, StaticWriter.mk data size) ∧
    ∀ σ r, reads_at σ r data 0 →
      read_all toString readU64N readU64BEN readI64N readI64BEN (reads_of ops) (σ, r)
      = (Ok (values_of ops), (σ, advance r size)).
Proof.
  intros Hops Hb. rewrite SizeWriter_run. cbn [snd SizeWriter.offset SizeWriter.new].
  rewrite Z.add_0_l. intros Hroom.
  destruct (run_then_read_all byteLength encode toString
              readU64N readU64BEN readI64N readI64BEN ops (StaticWriter.new init))
    as (data & Erun & _ & _ & _ & Hreads); [done..|simpl; lia|].
  exists data. cbn [StaticWriter.new StaticWriter.offset] in *.
  rewrite Z.add_0_l in Erun. by split.
Qed.

Lemma written_numbers_are_read_back_witness :
  let ops := [Write.U16 513; Write.Varint 300; Write.I8 (-2); Write.U32BE 7] in
  ∃ data,
    StaticWriter.run (λ _ _, 0) (λ _ _, []) ops (StaticWriter.new (replicate 10 0))
    = (Ok tt, StaticWriter.mk data 10) ∧
    ∀ σ r, reads_at σ r data 0 →
      read_all latin1 read64N read64N read64N read64N
        [BufferReader.ReadU16; BufferReader.ReadVarint; BufferReader.ReadI8;
         BufferReader.ReadU32BE] (σ, r)
      = (Ok [BufferReader.RNum (Some 513); BufferReader.RNum (Some 300);
             BufferReader.RNum (Some (-2)); BufferReader.RNum (Some 7)],
         (σ, advance r 10)).
Proof.
  cbv zeta.
  apply (written_numbers_are_read_back (λ _ _, 0) (λ _ _, []) latin1
           read64N read64N read64N read64N
           [Write.U16 513; Write.Varint 300; Write.I8 (-2); Write.U32BE 7]
           (replicate 10 0)).
  - repeat constructor; unfold fitting, read_of, unsigned_fits, signed_fits; simpl; lia.
  - repeat constructor; unfold byte; lia.
  - vm_compute. congruence.
Defined.

(** ** Reallocation *)

(** X24: [realloc(data, size)] for a size that is not negative returns
    a new buffer of [size] bytes whose first bytes are those of
    [data], as many as both have: all of [data] when [size] is at
    least its length, its first [size] bytes otherwise.  [copy(data)]
    returns a new buffer with the contents of [data].  In both cases
    [data] holds what it held and no store to it reaches the new
    buffer. *)
Theorem realloc_keeps_the_prefix (σ : Buffer.store) (data : Buffer.t) (size : Z) :
  Buffer.valid σ data → 0 ≤ size →
  (∃ σ' buf,
     encoding_bytes.realloc σ data size = Ok (σ', buf) ∧
     Buffer.length buf = Z.to_nat size ∧
     take (Buffer.length data) (Buffer.contents σ' buf)
     = take (Z.to_nat size) (Buffer.contents σ data) ∧
     Buffer.contents σ' data = Buffer.contents σ data ∧
     independent_of σ' data buf) ∧
  (∃ σ' buf,
     encoding_bytes.copy σ data = Ok (σ', buf) ∧
     Buffer.contents σ' buf = Buffer.contents σ data ∧
     Buffer.contents σ' data = Buffer.contents σ data ∧
     independent_of σ' data buf).
Proof.
  intros Hv Hsize.
  assert (∀ size, 0 ≤ size →
    ∃ σ' buf,
      encoding_bytes.realloc σ data size = Ok (σ', buf) ∧
      Buffer.length buf = Z.to_nat size ∧
      length (Buffer.contents σ' buf) = Z.to_nat size ∧
      take (Buffer.length data) (Buffer.contents σ' buf)
      = take (Z.to_nat size) (Buffer.contents σ data) ∧
      Buffer.contents σ' data = Buffer.contents σ data ∧
      independent_of σ' data buf) as Hre.
  { clear size Hsize. intros size Hsize. unfold encoding_bytes.realloc.
    destruct (allocUnsafe_fresh σ size Hsize)
      as (σ1 & buf & -> & Hbuf & Hlen & Hv1 & Hl1 & Hold).
    destruct (Hold data Hv) as (Hd1 & Hcd & Hne).
    cbn [mbind result_bind].
    destruct (copy_contents σ1 data buf 0 0 (Z.of_nat (Buffer.length data)) Hv1)
      as (Hc & Hv2 & Hother & _).
    pose proof (contents_valid_length σ data Hv) as Hld.
    eexists _, _. split; [reflexivity|]. split; [done|].
    assert (copy_chunk σ1 data buf 0 0 (Z.of_nat (Buffer.length data))
            = take (Z.to_nat size) (Buffer.contents σ data)) as Hchunk.
    { unfold copy_chunk. rewrite Hcd, Hlen.
      change (Z.to_nat 0) with 0%nat.
      rewrite drop_0, Nat.sub_0_r, Z.sub_0_r, Nat2Z.id.
      by rewrite (firstn_all2 (Buffer.contents σ data)) by lia. }
    rewrite Hc, Hchunk. change (Z.to_nat 0) with 0%nat.
    split; [by rewrite length_inserts|]. split; [|split].
    - destruct (decide (Z.to_nat size ≤ Buffer.length data)%nat) as [Hle|Hgt].
      + rewrite inserts_whole by (rewrite length_take; lia).
        apply firstn_all2. rewrite length_take. lia.
      + rewrite (firstn_all2 (Buffer.contents σ data)) by lia.
        rewrite take_inserts by (simpl; lia).
        by rewrite inserts_whole by (rewrite length_take; lia).
    - rewrite Hother by done. done.
    - intros i v. by apply contents_set_other. }
  split.
  - destruct (Hre size Hsize) as (σ' & buf & E & Hl & _ & Ht & Hd & Hi).
    by exists σ', buf.
  - unfold encoding_bytes.copy.
    destruct (Hre (Z.of_nat (Buffer.length data)) ltac:(lia))
      as (σ' & buf & E & Hl & Hlc & Ht & Hd & Hi).
    exists σ', buf. split; [done|]. split; [|done].
    pose proof (contents_valid_length σ data Hv) as Hld.
    rewrite Nat2Z.id in *.
    rewrite !firstn_all2 in Ht by lia. done.
Qed.

Lemma realloc_keeps_the_prefix_witness :
  let σ := [[1; 2; 3]] in
  let data := Buffer.mk 0 0 3 in
  (∃ σ' buf,
     encoding_bytes.realloc σ data 2 = Ok (σ', buf) ∧
     Buffer.length buf = Z.to_nat 2 ∧
     take 3 (Buffer.contents σ' buf) = take (Z.to_nat 2) [1; 2; 3] ∧
     Buffer.contents σ' data = [1; 2; 3] ∧
     independent_of σ' data buf) ∧
  (∃ σ' buf,
     encoding_bytes.copy σ data = Ok (σ', buf) ∧
     Buffer.contents σ' buf = [1; 2; 3] ∧
     Buffer.contents σ' data = [1; 2; 3] ∧
     independent_of σ' data buf).
Proof.
  cbv zeta.
  apply (realloc_keeps_the_prefix [[1; 2; 3]] (Buffer.mk 0 0 3) 2).
  - exists [1; 2; 3]. split; [reflexivity | simpl; lia].
  - lia.
Defined.

(** ** A write of bytes that do not fit *)

(** X25: [writeBytes(value)] on a static writer within its buffer, with
    a value longer than the room that is left.  The call returns: the
    bytes that fit are stored, the others are dropped, and the offset
    moves by the whole length and so leaves the buffer.  [render()]
    after it throws node's assertion error. *)
Theorem writeBytes_past_the_end (value : list Z) (w : StaticWriter.t) :
  let off := StaticWriter.offset w in
  let data := StaticWriter.data w in
  0 ≤ off ≤ encoding.len data →
  encoding.len data - off < encoding.len value →
  let data' := take (Z.to_nat off) data ++ take (Z.to_nat (encoding.len data - off)) value in
  StaticWriter.writeBytes value w
  = (Ok tt, StaticWriter.mk data' (off + encoding.len value)) ∧
  encoding.len data' = encoding.len data ∧
  (StaticWriter.writeBytes value;; StaticWriter.render) w
  = (Throw AssertionError, StaticWriter.mk data' (off + encoding.len value)).
Proof.
  cbv zeta. intros Hoff Hlong.
  set (off := StaticWriter.offset w) in *.
  set (data := StaticWriter.data w) in *.
  assert (list_inserts (Z.to_nat off) value data
          = take (Z.to_nat off) data
            ++ take (Z.to_nat (encoding.len data - off)) value) as Hins.
  { unfold encoding.len in *.
    rewrite <- (take_drop (Z.to_nat off) data) at 1.
    replace (Z.to_nat off) with (length (take (Z.to_nat off) data) + 0)%nat at 1
      by (rewrite length_take; lia).
    rewrite list_inserts_app_r. f_equal.
    rewrite <- (take_drop (Z.to_nat (Z.of_nat (length data) - off)) value) at 1.
    apply list_inserts_0_l. rewrite length_take, length_drop. lia. }
  assert (StaticWriter.writeBytes value w
          = (Ok tt, StaticWriter.mk
                      (take (Z.to_nat off) data
                       ++ take (Z.to_nat (encoding.len data - off)) value)
                      (off + encoding.len value))) as Hw.
  { unfold StaticWriter.writeBytes.
    rewrite bool_decide_eq_false_2 by lia. run_method.
    unfold Buffer.blit. fold off data. unfold encoding.len in *.
    rewrite decide_True by lia. by rewrite Hins. }
  assert (encoding.len (take (Z.to_nat off) data
                        ++ take (Z.to_nat (encoding.len data - off)) value)
          = encoding.len data) as Hlen.
  { unfold encoding.len in *. rewrite length_app, !length_take. lia. }
  split; [done|]. split; [done|].
  unfold mbind at 1, method_bind at 1. rewrite Hw.
  unfold StaticWriter.render. run_method. cbn [StaticWriter.offset StaticWriter.data].
  rewrite bool_decide_eq_false_2 by lia. done.
Qed.

Lemma writeBytes_past_the_end_witness :
  let w := StaticWriter.mk [0; 0; 0] 1 in
  StaticWriter.writeBytes [7; 8; 9] w = (Ok tt, StaticWriter.mk [0; 7; 8] 4) ∧
  encoding.len [0; 7; 8] = 3 ∧
  (StaticWriter.writeBytes [7; 8; 9];; StaticWriter.render) w
  = (Throw AssertionError, StaticWriter.mk [0; 7; 8] 4).
Proof.
  cbv zeta.
  apply (writeBytes_past_the_end [7; 8; 9] (StaticWriter.mk [0; 0; 0] 1)).
  - unfold encoding.len. simpl. lia.
  - unfold encoding.len. simpl. lia.
Defined.
